(** * Langcache-demo-cloud: the retrieval and caching engine

    A shallow embedding of the chat route (semantic-cache lookup, shadow
    mode), the two chunkers, the two cosine-similarity scorers, the
    brute-force vector search and the document store, with the properties
    of the specification proved about them.

    Conventions of the embedding.
    - A JavaScript string is the list of its UTF-16 code units.
    - A JavaScript number is an IEEE-754 binary64 value: Rocq's primitive
      [float], whose operations are the hardware's.
    - A value read from a JSON reply is a [JSON] tree; [undefined] is the
      [None] of [option JSON].
    - An [async] function that calls an external service is a function of
      the [World] (what each service answers) that threads the list of
      calls issued so far and returns either a value or a thrown error.
    - Where the order of calls and awaits matters (shadow mode), the chat
      route is also given await by await ([ChatRouteAsync]): a promise is
      the state of its async function, and a run is the list of the calls
      issued and of the awaits resumed.
    - [console.log] and [console.error] have no effect on any result and
      are left out. *)

From stdpp Require Import base gmap sets list.
From Stdlib Require Import ZArith List Bool Lia Floats Sorted.
From Stdlib Require Strings.String Strings.Ascii.
From Stdlib Require Import DecimalString.
From Stdlib Require DecimalPos DecimalZ.
Import ListNotations.
Import Strings.String.StringSyntax.
Delimit Scope string_scope with string.
Open Scope Z_scope.
#[local] Set Warnings "-register-all,-inexact-float,-clear-no-such-hyp".

(** ** Strings *)

Module JsString.

(** UTF-16 code units. *)
Abbreviation jsstring := (list N).

Definition lit (s : String.string) : jsstring :=
  map Ascii.N_of_ascii (String.list_ascii_of_string s).
Arguments lit s%_string.

(** ECMAScript WhiteSpace and LineTerminator code units: what
    [String.prototype.trim] strips and what [\s] matches. *)
Definition is_space (c : N) : bool :=
  ((9 <=? c) && (c <=? 13) || (c =? 32) || (c =? 160) || (c =? 5760)
   || (8192 <=? c) && (c <=? 8202) || (c =? 8232) || (c =? 8233)
   || (c =? 8239) || (c =? 8287) || (c =? 12288) || (c =? 65279))%N.

Fixpoint trimStart (s : jsstring) : jsstring :=
  match s with
  | c :: s' => if is_space c then trimStart s' else s
  | [] => []
  end.

Definition trimEnd (s : jsstring) : jsstring := rev (trimStart (rev s)).

Definition trim (s : jsstring) : jsstring := trimEnd (trimStart s).

(** [n.toString()] for an integer. *)
Definition of_Z (z : Z) : jsstring := lit (NilZero.string_of_int (Z.to_int z)).
Definition of_nat (n : nat) : jsstring := of_Z (Z.of_nat n).

(** [parts.join(sep)] *)
Fixpoint join (sep : jsstring) (parts : list jsstring) : jsstring :=
  match parts with
  | [] => []
  | [p] => p
  | p :: ps => p ++ sep ++ join sep ps
  end.

End JsString.
Import JsString.

(** ** JSON values and JavaScript numbers *)

Module Js.

Inductive JSON : Type :=
| JNull
| JBool (b : bool)
| JNum (x : float)
| JStr (s : jsstring)
| JArr (items : list JSON)
| JObj (fields : list (jsstring * JSON)).

(** A JavaScript value that may be [undefined]. *)
Abbreviation value := (option JSON).
Abbreviation undefined := (@None JSON).

(** The number of an integer that a binary64 holds exactly. *)
Definition num_of_Z (z : Z) : float :=
  if z <? 0 then PrimFloat.opp (PrimFloat.of_uint63 (Uint63.of_Z (- z)))
  else PrimFloat.of_uint63 (Uint63.of_Z z).
Definition num_of_nat (n : nat) : float := num_of_Z (Z.of_nat n).

(** [Math.ceil]: a number without a fraction (and NaN, an infinity, a
    zero) is returned as it is; otherwise the next integer above, which is
    [-0] for a number between -1 and 0. *)
Definition Math_ceil (x : float) : float :=
  match Prim2SF x with
  | S754_finite s m e =>
      if 0 <=? e then x
      else if s then
        let q := Z.shiftr (Zpos m) (- e) in
        if q =? 0 then (-0)%float else num_of_Z (- q)
      else num_of_Z (Z.shiftr (Zpos m + Z.shiftl 1 (- e) - 1) (- e))
  | _ => x
  end.

(** ToBoolean. *)
Definition truthy (v : value) : bool :=
  match v with
  | None | Some JNull => false
  | Some (JBool b) => b
  | Some (JNum x) => negb (PrimFloat.eqb x 0 || PrimFloat.is_nan x)
  | Some (JStr s) => negb (Nat.eqb (List.length s) 0)
  | Some (JArr _) | Some (JObj _) => true
  end.

(** [a || b] *)
Definition or_else (a : value) (b : JSON) : JSON :=
  match a with
  | Some x => if truthy a then x else b
  | None => b
  end.

Fixpoint assoc (k : jsstring) (fields : list (jsstring * JSON)) : value :=
  match fields with
  | [] => None
  | (k', v) :: rest => if decide (k = k') then Some v else assoc k rest
  end.

(** [v.name] for a property name that is neither an index nor [length],
    on a value that is neither [null] nor [undefined]: only an object
    has such a property. *)
Definition member (name : jsstring) (v : JSON) : value :=
  match v with
  | JObj fields => assoc name fields
  | _ => None
  end.

(** [v[0]] on a value that is neither [null] nor [undefined]. *)
Definition first (v : JSON) : value :=
  match v with
  | JArr items => head items
  | JStr (c :: _) => Some (JStr [c])
  | JObj fields => assoc (lit "0") fields
  | _ => None
  end.

(** Optional chaining: [v?.name] and [v?.[0]]. *)
Definition opt_member (name : jsstring) (v : value) : value :=
  match v with
  | None | Some JNull => None
  | Some x => member name x
  end.

Definition opt_first (v : value) : value :=
  match v with
  | None | Some JNull => None
  | Some x => first x
  end.

(** [Math.ceil(n / 4)] for a length [n]: the quotient by 4 is exact in
    binary64, and its ceiling is the integer below. *)
Definition ceil_div4 (n : nat) : nat := Nat.div (n + 3) 4.

End Js.
Import Js.

(** ** External calls: outcomes, the world, the trace of issued calls *)

Module Effects.

(** What evaluating a JavaScript expression ends in. *)
Inductive Outcome (A : Type) : Type :=
| Returned (a : A)
| Thrown (message : jsstring).
Arguments Returned {A} a.
Arguments Thrown {A} message.

(** One [fetch]: the URL, the [Authorization] header and the object
    given to [JSON.stringify] as the body (method and content type are
    the same constants at every call site). *)
Record Request : Type := {
  url : jsstring;
  authorization : jsstring;
  body : JSON
}.

(** What a [fetch] ends in: a rejected promise (no connection), or a
    response with its [ok] flag, its status and what [response.json()]
    ends in. *)
Inductive FetchResult : Type :=
| NetworkError (message : jsstring)
| Response (ok : bool) (status : Z) (json : Outcome JSON).

(** The services' answers and the wall-clock time each [fetch] takes
    (milliseconds, what two [Date.now()] readings around it differ by). *)
Record World : Type := {
  fetch : Request -> FetchResult;
  elapsed : Request -> Z
}.

(** Which function of the chat route issued a [fetch]. *)
Inductive Event : Type :=
| SearchCall (r : Request)     (* searchLangCache *)
| GenerationCall (r : Request) (* callOpenAI *)
| StoreCall (r : Request).     (* storeInLangCache *)

Definition is_generation (e : Event) : bool :=
  match e with GenerationCall _ => true | _ => false end.

(** A computation: from the calls issued so far to an outcome and the
    calls issued after it. *)
Definition M (A : Type) : Type := list Event -> Outcome A * list Event.

Definition ret {A} (a : A) : M A := fun t => (Returned a, t).
Definition throw {A} (message : jsstring) : M A := fun t => (Thrown message, t).
Definition bind {A B} (m : M A) (k : A -> M B) : M B :=
  fun t =>
    match m t with
    | (Returned a, t') => k a t'
    | (Thrown e, t') => (Thrown e, t')
    end.
(** [try { m } catch (error) { handler }] *)
Definition try_catch {A} (m : M A) (handler : jsstring -> M A) : M A :=
  fun t =>
    match m t with
    | (Returned a, t') => (Returned a, t')
    | (Thrown e, t') => handler e t'
    end.
Definition emit (e : Event) : M unit := fun t => (Returned tt, t ++ [e]).
Definition lift {A} (o : Outcome A) : M A := fun t => (o, t).

Declare Scope js_scope.
Delimit Scope js_scope with js.
Notation "'let*' x := m 'in' k" := (bind m (fun x => k))
  (at level 10, x pattern, m at level 100, k at level 200) : js_scope.

End Effects.
Import Effects.

(** ** The chat route: [searchLangCache], [storeInLangCache], [callOpenAI], [POST] *)

Module ChatRoute.

Local Open Scope js_scope.

(** [interface Config]; a field the request left out is [None]. *)
Record Config : Type := {
  openaiKey : option jsstring;
  langcacheUrl : option jsstring;
  cacheId : option jsstring;
  serviceKey : option jsstring;
  shadowMode : bool
}.

(** [!field]: the field is missing or the empty string. *)
Definition missing (field : option jsstring) : bool :=
  match field with
  | Some (_ :: _) => false
  | _ => true
  end.

(** A field inside a template literal. *)
Definition show (field : option jsstring) : jsstring :=
  match field with
  | Some s => s
  | None => lit "undefined"
  end.

(** What [searchLangCache] resolves to: [{ hit: false }] or
    [{ hit: true, response, similarity, cachedQuery }]. *)
Inductive CacheResult : Type :=
| Miss
| Hit (response similarity cachedQuery : JSON).

Definition hit (r : CacheResult) : bool :=
  match r with Hit _ _ _ => true | Miss => false end.
Definition similarity (r : CacheResult) : value :=
  match r with Hit _ s _ => Some s | Miss => undefined end.
Definition cachedQuery (r : CacheResult) : value :=
  match r with Hit _ _ q => Some q | Miss => undefined end.

(** What [callOpenAI] resolves to. *)
Record Generation : Type := {
  content : JSON;
  latency : Z;
  tokensUsed : JSON
}.

(** The object handed to [NextResponse.json] and the HTTP status. *)
Record HttpResponse : Type := {
  status : Z;
  payload : list (jsstring * value)
}.

Definition field (name : String.string) (r : HttpResponse) : option value :=
  snd <$> List.find (fun kv => bool_decide (fst kv = lit name)) (payload r).
Arguments field name%_string r.

(** The parsed request body: [{ message, config }]. *)
Record ChatRequest : Type := {
  message : option jsstring;
  config : option Config
}.

Definition openai_url : jsstring := lit "https://api.openai.com/v1/chat/completions".

Definition searchRequest (query : jsstring) (config : Config) : Request :=
  {| url := show (langcacheUrl config) ++ lit "/v1/caches/" ++ show (cacheId config)
            ++ lit "/entries/search";
     authorization := lit "Bearer " ++ show (serviceKey config);
     body := JObj [(lit "prompt", JStr (trim query))] |}.

Definition storeRequest (query response : jsstring) (config : Config) : Request :=
  {| url := show (langcacheUrl config) ++ lit "/v1/caches/" ++ show (cacheId config)
            ++ lit "/entries";
     authorization := lit "Bearer " ++ show (serviceKey config);
     body := JObj [(lit "prompt", JStr (trim query));
                   (lit "response", JStr (trim response));
                   (lit "ttl_millis", JNum 2592000000)] |}.

Definition generationRequest (query : jsstring) (config : Config) : Request :=
  {| url := openai_url;
     authorization := lit "Bearer " ++ show (openaiKey config);
     body := JObj [(lit "model", JStr (lit "gpt-3.5-turbo"));
                   (lit "messages",
                    JArr [JObj [(lit "role", JStr (lit "user"));
                                (lit "content", JStr query)]]);
                   (lit "max_tokens", JNum 500)] |}.

(** The message of the TypeError of reading [property] of [null] or of
    [undefined]. *)
Definition type_error (what property : String.string) : jsstring :=
  lit "Cannot read properties of " ++ lit what ++ lit " (reading '" ++ lit property
  ++ lit "')".
Arguments type_error (what property)%_string.

Section WithWorld.

Variable w : World.

Definition searchLangCache (query : jsstring) (config : Config) : M CacheResult :=
  try_catch
    (if missing (langcacheUrl config) || missing (cacheId config)
        || missing (serviceKey config)
     then ret Miss
     else
       let request := searchRequest query config in
       let* _ := emit (SearchCall request) in
       match fetch w request with
       | NetworkError e => throw e
       | Response ok _ json =>
           if negb ok then ret Miss
           else
             let* result := lift json in
             let entry := opt_first (opt_member (lit "data") (Some result)) in
             match opt_member (lit "response") entry with
             | Some response =>
                 if truthy (Some response) then
                   ret (Hit response
                          (or_else (opt_member (lit "similarity") entry) (JNum 0))
                          (or_else (opt_member (lit "prompt") entry) (JStr query)))
                 else ret Miss
             | None => ret Miss
             end
       end)
    (fun _ => ret Miss).

(** [response] is [openaiResult.content]; [response.trim()] throws
    inside the [try] when it is not a string. *)
Definition storeInLangCache (query : jsstring) (response : JSON) (config : Config)
  : M bool :=
  try_catch
    (if missing (langcacheUrl config) || missing (cacheId config)
        || missing (serviceKey config)
     then ret false
     else
       match response with
       | JStr text =>
           let request := storeRequest query text config in
           let* _ := emit (StoreCall request) in
           match fetch w request with
           | NetworkError e => throw e
           | Response ok _ _ => ret ok
           end
       | _ => throw (lit "response.trim is not a function")
       end)
    (fun _ => ret false).

Definition callOpenAI (query : jsstring) (config : Config) : M Generation :=
  let request := generationRequest query config in
  let* _ := emit (GenerationCall request) in
  match fetch w request with
  | NetworkError e => throw e
  | Response ok code json =>
      let latency := elapsed w request in
      if negb ok then throw (lit "OpenAI API error: " ++ JsString.of_Z code)
      else
        let* data := lift json in
        match data with
        | JNull => throw (type_error "null" "choices")
        | _ =>
            match member (lit "choices") data with
            | None => throw (type_error "undefined" "0")
            | Some JNull => throw (type_error "null" "0")
            | Some choices =>
                let content :=
                  or_else (opt_member (lit "content")
                             (opt_member (lit "message") (first choices)))
                          (JStr (lit "No response generated")) in
                let tokensUsed :=
                  or_else (opt_member (lit "total_tokens") (member (lit "usage") data))
                          (JNum 0) in
                ret {| content := content; latency := latency; tokensUsed := tokensUsed |}
            end
        end
  end.

(** [promise.catch(console.error)] on a call that is not awaited: the
    call is issued, what it ends in is dropped. *)
Definition detached {A} (m : M A) : M unit :=
  try_catch (let* _ := m in ret tt) (fun _ => ret tt).

(** [Date.now() - cacheStartTime] around the awaited search. *)
Definition cacheLatency (query : jsstring) (config : Config) : Z :=
  if missing (langcacheUrl config) || missing (cacheId config)
     || missing (serviceKey config)
  then 0
  else elapsed w (searchRequest query config).

(** [Math.ceil(v.length / 4)]: a string and an array have a length, a
    number and a boolean have none ([undefined / 4] is NaN). An object
    has the [length] it carries as a property of its own, converted to a
    number: a number is itself, [null] is 0, [true] is 1, another object
    is NaN. A [length] that is a string or an array, which JavaScript
    reads as the number it spells, is outside the model and taken as
    NaN. *)
Definition estimatedTokens (v : JSON) : float :=
  match v with
  | JStr s => num_of_nat (ceil_div4 (List.length s))
  | JArr items => num_of_nat (ceil_div4 (List.length items))
  | JObj _ =>
      match member (lit "length") v with
      | Some (JNum n) => Math_ceil (n / 4)
      | Some JNull | Some (JBool false) => 0%float
      | Some (JBool true) => 1%float
      | _ => PrimFloat.nan
      end
  | _ => PrimFloat.nan
  end.

Definition respond (code : Z) (fields : list (String.string * value)) : HttpResponse :=
  {| status := code; payload := map (fun kv => (lit (fst kv), snd kv)) fields |}.

Definition shadowResponse (userQuery : jsstring) (cacheResult : CacheResult)
    (openaiResult : Generation) : HttpResponse :=
  respond 200
    [("content", Some (content openaiResult));
     ("cached", Some (JBool false));
     ("shadowMode", Some (JBool true));
     ("cacheHit", Some (JBool (hit cacheResult)));
     ("similarity", similarity cacheResult);
     ("cachedQuery", cachedQuery cacheResult);
     ("userQuery", Some (JStr userQuery));
     ("latency", Some (JNum (num_of_Z (latency openaiResult))));
     ("tokensUsed", Some (tokensUsed openaiResult));
     ("tokensSaved",
      Some (if hit cacheResult then tokensUsed openaiResult else JNum 0))]%string.

Definition hitResponse (userQuery : jsstring) (response similarity cachedQuery : JSON)
    (cacheLatency : Z) : HttpResponse :=
  let estimatedInputTokens := num_of_nat (ceil_div4 (List.length userQuery)) in
  let estimatedOutputTokens := estimatedTokens response in
  let estimatedTotalTokens :=
    PrimFloat.add estimatedInputTokens estimatedOutputTokens in
  respond 200
    [("content", Some response);
     ("cached", Some (JBool true));
     ("similarity", Some similarity);
     ("cachedQuery", Some cachedQuery);
     ("userQuery", Some (JStr userQuery));
     ("latency", Some (JNum (num_of_Z cacheLatency)));
     ("tokensSaved", Some (JNum estimatedTotalTokens))]%string.

Definition missResponse (userQuery : jsstring) (openaiResult : Generation)
  : HttpResponse :=
  respond 200
    [("content", Some (content openaiResult));
     ("cached", Some (JBool false));
     ("userQuery", Some (JStr userQuery));
     ("latency", Some (JNum (num_of_Z (latency openaiResult))));
     ("tokensUsed", Some (tokensUsed openaiResult))]%string.

Definition POST (request : Outcome ChatRequest) : M HttpResponse :=
  try_catch
    (let* parsed := lift request in
     match message parsed, config parsed with
     | Some ((_ :: _) as message), Some config =>
         if shadowMode config then
           (* both calls are made, then both are awaited *)
           let* cacheResult := searchLangCache message config in
           let* openaiResult := callOpenAI message config in
           let* _ :=
             (if negb (hit cacheResult)
              then detached (storeInLangCache message (content openaiResult) config)
              else ret tt) in
           ret (shadowResponse message cacheResult openaiResult)
         else
           let* cacheResult := searchLangCache message config in
           match cacheResult with
           | Hit response similarity cachedQuery =>
               ret (hitResponse message response similarity cachedQuery
                      (cacheLatency message config))
           | Miss =>
               let* openaiResult := callOpenAI message config in
               let* _ :=
                 detached (storeInLangCache message (content openaiResult) config) in
               ret (missResponse message openaiResult)
           end
     | _, _ =>
         ret (respond 400
                [("error", Some (JStr (lit "Missing message or config")))]%string)
     end)
    (fun e => ret (respond 500 [("error", Some (JStr e))]%string)).

End WithWorld.

End ChatRoute.

(** ** Cosine similarity: [RedisVectorStore.cosineSimilarity] and
    [RAGSystem.cosineSimilarity] *)

Module Cosine.

Local Open Scope float_scope.

Abbreviation vector := (list float).

(** The three accumulators of the scoring loop. *)
Record Sums : Type := {
  dotProduct : float;
  normA : float;
  normB : float
}.

Definition no_sums : Sums := {| dotProduct := 0; normA := 0; normB := 0 |}.

(** [for (let i = 0; i < a.length; i++)], entered with [a] and [b] of one
    length. *)
Fixpoint accumulate (a b : vector) (acc : Sums) : Sums :=
  match a, b with
  | x :: a', y :: b' =>
      accumulate a' b'
        {| dotProduct := dotProduct acc + x * y;
           normA := normA acc + x * x;
           normB := normB acc + y * y |}
  | _, _ => acc
  end.

End Cosine.

Module RedisVectorStoreScore.
Import Cosine.
Local Open Scope float_scope.

(** src/lib/redis-vector.ts, [cosineSimilarity]. *)
Definition cosineSimilarity (a b : vector) : float :=
  if negb (Nat.eqb (List.length a) (List.length b)) then 0
  else
    let s := accumulate a b no_sums in
    if (normA s =? 0) || (normB s =? 0) then 0
    else dotProduct s / (sqrt (normA s) * sqrt (normB s)).

End RedisVectorStoreScore.

Module RAGSystemScore.
Import Cosine.
Local Open Scope float_scope.

(** src/lib/rag-system.ts, [cosineSimilarity]: the same loop, without the
    test for a zero norm. *)
Definition cosineSimilarity (a b : vector) : float :=
  if negb (Nat.eqb (List.length a) (List.length b)) then 0
  else
    let s := accumulate a b no_sums in
    dotProduct s / (sqrt (normA s) * sqrt (normB s)).

End RAGSystemScore.

(** ** Regular expressions of the chunkers *)

Module Pattern.

(** The class [[.!?]]. *)
Definition is_terminal (c : N) : bool := ((c =? 46) || (c =? 33) || (c =? 63))%N.

(** The scanner behind [text.split(/[sep]+/)]: the piece being read and
    whether the last code unit belonged to a separator run. *)
Fixpoint split_scan (sep : N -> bool) (s piece : jsstring) (in_separator : bool)
  : list jsstring :=
  match s with
  | [] => [piece]
  | c :: s' =>
      if sep c then
        if in_separator then split_scan sep s' [] true
        else piece :: split_scan sep s' [] true
      else split_scan sep s' (piece ++ [c]) false
  end.

(** [text.split(/[sep]+/)]: the pieces between the maximal runs of
    separators, the empty pieces at either end included. *)
Definition split (sep : N -> bool) (s : jsstring) : list jsstring :=
  split_scan sep s [] false.

(** The scanner behind [text.match(/[^.!?]+[.!?]+/g)]: [body] is the run
    of other code units read so far, [stops] the terminal run after it. A
    terminal with no body before it starts no match; a body that reaches
    the end of the text without a terminal is no match. *)
Fixpoint sentence_scan (s body stops : jsstring) : list jsstring :=
  match s with
  | [] =>
      match stops with
      | [] => []
      | _ => [body ++ stops]
      end
  | c :: s' =>
      if is_terminal c then
        match body with
        | [] => sentence_scan s' [] []
        | _ => sentence_scan s' body (stops ++ [c])
        end
      else
        match stops with
        | [] => sentence_scan s' (body ++ [c]) []
        | _ => (body ++ stops) :: sentence_scan s' [c] []
        end
  end.

(** [text.match(/[^.!?]+[.!?]+/g)]: [None] is [null]. *)
Definition match_sentences (s : jsstring) : option (list jsstring) :=
  match sentence_scan s [] [] with
  | [] => None
  | found => Some found
  end.

(** The number of maximal runs of terminals: the length of
    [text.match(/[.!?]+/g)], 0 when there is none. *)
Fixpoint count_stops (s : jsstring) (in_run : bool) : nat :=
  match s with
  | [] => 0
  | c :: s' =>
      if is_terminal c then
        if in_run then count_stops s' true else S (count_stops s' true)
      else count_stops s' false
  end.

(** [items.slice(start)] *)
Definition slice_from {A} (start : Z) (items : list A) : list A :=
  let len := Z.of_nat (List.length items) in
  let k := if start <? 0 then Z.max (len + start) 0 else Z.min start len in
  skipn (Z.to_nat k) items.

(** [items.slice(0, stop)] *)
Definition slice_to {A} (stop : Z) (items : list A) : list A :=
  let len := Z.of_nat (List.length items) in
  let k := if stop <? 0 then Z.max (len + stop) 0 else Z.min stop len in
  firstn (Z.to_nat k) items.

Definition space : jsstring := [32%N].

(** [text.length / 4 > size] for a whole number [size] of tokens: the
    quotient is exact, so the comparison is that of the length with four
    times the size. *)
Definition exceeds (text : jsstring) (size : Z) : bool :=
  4 * size <? Z.of_nat (List.length text).

End Pattern.
Import Pattern.

(** ** The chunker of the RAG system: [RAGSystem.chunkDocument] *)

Module RAGSystem.

Record ChunkMetadata : Type := {
  startChar : Z;
  endChar : Z;
  wordCount : nat;
  sentenceCount : nat
}.

Record DocumentChunk : Type := {
  id : jsstring;
  documentId : jsstring;
  content : jsstring;
  chunkIndex : nat;
  embedding : list float;
  metadata : ChunkMetadata
}.

(** [interface RAGConfig]; sizes are whole numbers of tokens. *)
Record RAGConfig : Type := {
  openaiKey : jsstring;
  redisUrl : jsstring;
  redisPassword : jsstring;
  chunkSize : Z;
  chunkOverlap : Z;
  similarityThreshold : float
}.

(** The variables of the chunking loop. *)
Record Chunking : Type := {
  chunks : list DocumentChunk;
  currentChunk : jsstring;
  nextIndex : nat;
  nextStart : Z
}.

(** The chunk pushed for the text in [currentChunk]. *)
Definition make_chunk (documentId : jsstring) (st : Chunking) : DocumentChunk :=
  {| id := documentId ++ lit "_chunk_" ++ JsString.of_nat (nextIndex st);
     documentId := documentId;
     content := trim (currentChunk st);
     chunkIndex := nextIndex st;
     embedding := [];
     metadata :=
       {| startChar := nextStart st;
          endChar := nextStart st + Z.of_nat (List.length (currentChunk st));
          wordCount := List.length (split is_space (currentChunk st));
          sentenceCount :=
            match count_stops (currentChunk st) false with
            | O => 1
            | n => n
            end |} |}.

Section WithConfig.

Variable config : RAGConfig.

(** One turn of [for (let i = 0; i < sentences.length; i++)]. *)
Definition chunk_step (documentId : jsstring) (st : Chunking) (raw : jsstring) : Chunking :=
  let sentence := trim raw in
  match sentence with
  | [] => st
  | _ =>
      let potentialChunk :=
        currentChunk st
        ++ (match currentChunk st with [] => [] | _ => space end)
        ++ sentence in
      if exceeds potentialChunk (chunkSize config)
         && (0 <? List.length (currentChunk st))%nat
      then
        let words := split is_space (currentChunk st) in
        let overlapWords := slice_from (- (chunkOverlap config / 4)) words in
        let next := join space overlapWords ++ space ++ sentence in
        {| chunks := chunks st ++ [make_chunk documentId st];
           currentChunk := next;
           nextIndex := S (nextIndex st);
           nextStart :=
             nextStart st
             + (Z.of_nat (List.length next)
                - Z.of_nat (List.length (join space overlapWords))) |}
      else
        {| chunks := chunks st;
           currentChunk := potentialChunk;
           nextIndex := nextIndex st;
           nextStart := nextStart st |}
  end.

(** [content.match(/[^.!?]+[.!?]+/g) || [content]] *)
Definition sentences (content : jsstring) : list jsstring :=
  match match_sentences content with
  | Some found => found
  | None => [content]
  end.

Definition chunkDocument (content documentId : jsstring) : list DocumentChunk :=
  let st :=
    fold_left (chunk_step documentId) (sentences content)
      {| chunks := []; currentChunk := []; nextIndex := 0; nextStart := 0 |} in
  match trim (currentChunk st) with
  | [] => chunks st
  | _ => chunks st ++ [make_chunk documentId st]
  end.

End WithConfig.

End RAGSystem.

(** ** The chunker of the processing endpoint:
    src/app/api/documents/process/route.ts, [chunkDocument] *)

Module ProcessRoute.

Record ChunkMetadata : Type := {
  startChar : Z;
  endChar : Z;
  wordCount : nat
}.

(** [embedding?: number[] | null] *)
Inductive Embedding : Type :=
| NoEmbedding              (* the field is not there *)
| NullEmbedding            (* null *)
| Vector (v : list float).

Record DocumentChunk : Type := {
  id : jsstring;
  documentId : jsstring;
  content : jsstring;
  chunkIndex : nat;
  metadata : ChunkMetadata;
  embedding : Embedding;
  error : option jsstring
}.

Definition maxChunkSize : Z := 800.
Definition overlapSize : Z := 100.

Record Chunking : Type := {
  chunks : list DocumentChunk;
  currentChunk : jsstring;
  nextIndex : nat;
  nextStart : Z
}.

Definition make_chunk (documentId : jsstring) (st : Chunking) : DocumentChunk :=
  {| id := documentId ++ lit "_chunk_" ++ JsString.of_nat (nextIndex st);
     documentId := documentId;
     content := trim (currentChunk st);
     chunkIndex := nextIndex st;
     metadata :=
       {| startChar := nextStart st;
          endChar := nextStart st + Z.of_nat (List.length (currentChunk st));
          wordCount := List.length (split is_space (currentChunk st)) |};
     embedding := NoEmbedding;
     error := None |}.

Definition is_blank (s : jsstring) : bool :=
  match trim s with [] => true | _ => false end.

(** [content.split(/[.!?]+/).filter((s) => s.trim().length > 0)] *)
Definition sentences (content : jsstring) : list jsstring :=
  List.filter (fun s => negb (is_blank s)) (split is_terminal content).

(** One turn of [for (const sentence of sentences)]. *)
Definition chunk_step (documentId : jsstring) (st : Chunking) (sentence : jsstring)
  : Chunking :=
  let trimmedSentence := trim sentence in
  match trimmedSentence with
  | [] => st
  | _ =>
      if exceeds (currentChunk st ++ trimmedSentence) maxChunkSize
         && (0 <? List.length (currentChunk st))%nat
      then
        let words := split is_space (currentChunk st) in
        let overlapWords := slice_from (- (overlapSize / 4)) words in
        let next := join space overlapWords ++ space ++ trimmedSentence in
        {| chunks := chunks st ++ [make_chunk documentId st];
           currentChunk := next;
           nextIndex := S (nextIndex st);
           nextStart :=
             nextStart st
             + (Z.of_nat (List.length next)
                - (Z.of_nat (List.length (join space overlapWords))
                   + Z.of_nat (List.length trimmedSentence))) |}
      else
        {| chunks := chunks st;
           currentChunk :=
             currentChunk st
             ++ (match currentChunk st with [] => [] | _ => space end)
             ++ trimmedSentence;
           nextIndex := nextIndex st;
           nextStart := nextStart st |}
  end.

Definition chunkDocument (content documentId : jsstring) : list DocumentChunk :=
  let st :=
    fold_left (chunk_step documentId) (sentences content)
      {| chunks := []; currentChunk := []; nextIndex := 0; nextStart := 0 |} in
  match trim (currentChunk st) with
  | [] => chunks st
  | _ => chunks st ++ [make_chunk documentId st]
  end.

End ProcessRoute.


(** ** The key-value store behind the vector index *)

Module Redis.

(** A field of a stored hash. The last two stand for the JSON text
    [JSON.stringify] makes of an embedding and of a chunk's metadata. *)
Inductive Field : Type :=
| FText (s : jsstring)
| FNumber (n : Z)
| FEmbedding (v : list float)
| FMetadata (m : RAGSystem.ChunkMetadata).

(** The calls made on the client. *)
Inductive Command : Type :=
| HSET (key : jsstring) (fields : list (jsstring * Field))
| SADD (key member : jsstring).

(** The store: hashes and sets by key. *)
Record Store : Type := {
  hashes : gmap jsstring (list (jsstring * Field));
  sets : gmap jsstring (gset jsstring)
}.

Definition empty : Store := {| hashes := ∅; sets := ∅ |}.

Definition members (key : jsstring) (s : Store) : gset jsstring :=
  default ∅ (sets s !! key).

(** HSET overwrites the fields it names and keeps the others; SADD adds
    one member. *)
Definition overwrite (new old : list (jsstring * Field)) : list (jsstring * Field) :=
  new ++ List.filter (fun kv => negb (bool_decide (fst kv ∈ map fst new))) old.

Definition execute (s : Store) (c : Command) : Store :=
  match c with
  | HSET key fields =>
      {| hashes := <[key := overwrite fields (default [] (hashes s !! key))]> (hashes s);
         sets := sets s |}
  | SADD key member =>
      {| hashes := hashes s;
         sets := <[key := {[member]} ∪ members key s]> (sets s) |}
  end.

Definition run (commands : list Command) (s : Store) : Store :=
  fold_left execute commands s.

End Redis.

(** ** Embedding and storing: [RAGSystem.generateEmbeddings],
    [RAGSystem.storeDocument] and the route that calls them *)

Module RAGIngestion.
Import RAGSystem Redis.

Record DocumentMetadata : Type := {
  wordCount : nat;
  chunkCount : nat;
  processedAt : jsstring;
  lastUpdated : jsstring
}.

Record RAGDocument : Type := {
  doc_id : jsstring;
  name : jsstring;
  url : jsstring;
  doc_content : jsstring;
  doc_chunks : list DocumentChunk;
  doc_metadata : DocumentMetadata
}.

(** What the embedding service answers to one batch of texts: a failure
    (no connection, a non-success status, a body that is no JSON), or the
    list [data.data] of embeddings, each entry carrying the array of
    numbers the service's API documents. An entry of another shape (no
    [embedding], or one that is no array) is outside this type. *)
Inductive BatchResult : Type :=
| BatchFails
| BatchData (embeddings : list (list float)).

Definition with_embedding (chunk : DocumentChunk) (v : list float) : DocumentChunk :=
  {| id := id chunk; documentId := documentId chunk; content := content chunk;
     chunkIndex := chunkIndex chunk; embedding := v; metadata := metadata chunk |}.

(** [batch.forEach((chunk, index) => push({...chunk, embedding:
    data.data[index].embedding}))]: the chunks pushed before
    [data.data[index]] is missing, and whether that happened. *)
Fixpoint attach (batch : list DocumentChunk) (embeddings : list (list float))
  : list DocumentChunk * bool :=
  match batch, embeddings with
  | [], _ => ([], true)
  | chunk :: batch', v :: embeddings' =>
      let (pushed, complete) := attach batch' embeddings' in
      (with_embedding chunk v :: pushed, complete)
  | _ :: _, [] => ([], false)
  end.

(** The [try] and the [catch] of one batch: when the [try] throws, the
    chunks it pushed stay and every chunk of the batch is pushed with an
    empty embedding. *)
Definition embed_batch (answer : BatchResult) (batch : list DocumentChunk)
  : list DocumentChunk :=
  let without := map (fun chunk => with_embedding chunk []) batch in
  match answer with
  | BatchFails => without
  | BatchData embeddings =>
      let (pushed, complete) := attach batch embeddings in
      if complete then pushed else pushed ++ without
  end.

Definition batchSize : nat := 10.

(** [for (let i = 0; i < chunks.length; i += batchSize)] with
    [chunks.slice(i, i + batchSize)]; [turns] bounds the number of turns
    and is the number of chunks left. *)
Fixpoint embed_batches (service : list jsstring -> BatchResult) (turns : nat)
    (chunks : list DocumentChunk) : list DocumentChunk :=
  match turns, chunks with
  | S turns', _ :: _ =>
      let batch := firstn batchSize chunks in
      embed_batch (service (map content batch)) batch
      ++ embed_batches service turns' (skipn batchSize chunks)
  | _, _ => []
  end.

Definition generateEmbeddings (service : list jsstring -> BatchResult)
    (chunks : list DocumentChunk) : list DocumentChunk :=
  embed_batches service (List.length chunks) chunks.

Definition document_key (d : RAGDocument) : jsstring := lit "doc:" ++ doc_id d.
Definition chunk_key (chunk : DocumentChunk) : jsstring := lit "chunk:" ++ id chunk.
Definition chunk_set_key (d : RAGDocument) : jsstring :=
  lit "doc:" ++ doc_id d ++ lit ":chunks".

Definition has_embedding (chunk : DocumentChunk) : bool :=
  (0 <? List.length (embedding chunk))%nat.

Definition chunk_record (chunk : DocumentChunk) : list (jsstring * Field) :=
  [(lit "documentId", FText (documentId chunk));
   (lit "content", FText (content chunk));
   (lit "chunkIndex", FNumber (Z.of_nat (chunkIndex chunk)));
   (lit "embedding", FEmbedding (embedding chunk));
   (lit "metadata", FMetadata (metadata chunk))].

(** The calls of one turn of [for (const chunk of document.chunks)]. *)
Definition store_chunk (d : RAGDocument) (chunk : DocumentChunk) : list Command :=
  if has_embedding chunk
  then [HSET (chunk_key chunk) (chunk_record chunk); SADD (chunk_set_key d) (id chunk)]
  else [].

(** [storeDocument]: the calls it makes on the client, in order. (The
    client of the repository logs each call; [Redis.run] is what the calls
    do to the store they address.) *)
Definition storeDocument (d : RAGDocument) : list Command :=
  HSET (document_key d)
    [(lit "name", FText (name d));
     (lit "url", FText (url d));
     (lit "wordCount", FNumber (Z.of_nat (wordCount (doc_metadata d))));
     (lit "chunkCount", FNumber (Z.of_nat (chunkCount (doc_metadata d))));
     (lit "processedAt", FText (processedAt (doc_metadata d)))]
  :: flat_map (store_chunk d) (doc_chunks d).

(** The code units of [[a-zA-Z0-9-_]]. *)
Definition is_id_unit (c : N) : bool :=
  ((97 <=? c) && (c <=? 122) || (65 <=? c) && (c <=? 90)
   || (48 <=? c) && (c <=? 57) || (c =? 45) || (c =? 95))%N.

Fixpoint strip_prefix (prefix s : jsstring) : option jsstring :=
  match prefix, s with
  | [], _ => Some s
  | p :: prefix', c :: s' => if (p =? c)%N then strip_prefix prefix' s' else None
  | _ :: _, [] => None
  end.

Fixpoint take_while {A} (f : A -> bool) (l : list A) : list A :=
  match l with
  | x :: l' => if f x then x :: take_while f l' else []
  | [] => []
  end.

(** [url.match(/\/document\/d\/([a-zA-Z0-9-_]+)/)], the captured group. *)
Fixpoint match_doc_id (s : jsstring) : option jsstring :=
  match s with
  | [] => None
  | _ :: s' =>
      match strip_prefix (lit "/document/d/") s with
      | Some rest =>
          match take_while is_id_unit rest with
          | [] => match_doc_id s'
          | found => Some found
          end
      | None => match_doc_id s'
      end
  end.

(** What the route needs from outside: the text of a document (or the
    error [fetchGoogleDoc] throws), the embedding service, the clock. *)
Record World : Type := {
  fetchGoogleDoc : jsstring -> Outcome jsstring;
  embeddings : list jsstring -> BatchResult;
  now : jsstring
}.

(** The request body of the route. *)
Record ProcessRequest : Type := {
  req_url : option jsstring;
  req_openaiKey : option jsstring;
  req_redisUrl : option jsstring;
  req_redisPassword : option jsstring
}.

Inductive ProcessResponse : Type :=
| Processed (documentId : jsstring) (chunksCount wordCount : nat)
| Failed (status : Z) (error : jsstring).

Definition routeConfig (r : ProcessRequest) : RAGConfig :=
  {| openaiKey := default [] (req_openaiKey r);
     redisUrl := default [] (req_redisUrl r);
     redisPassword := default [] (req_redisPassword r);
     chunkSize := 800;
     chunkOverlap := 100;
     similarityThreshold := 0.7%float |}.

Definition present (field : option jsstring) : bool :=
  match field with Some (_ :: _) => true | _ => false end.

(** [POST] of the RAG processing route: the response and the calls made
    on the store's client. *)
Definition POST (w : World) (r : ProcessRequest) : ProcessResponse * list Command :=
  if negb (present (req_url r) && present (req_openaiKey r) && present (req_redisUrl r))
  then (Failed 400 (lit "Missing required parameters"), [])
  else
    match match_doc_id (default [] (req_url r)) with
    | None => (Failed 400 (lit "Invalid Google Docs URL"), [])
    | Some docId =>
        match fetchGoogleDoc w docId with
        | Thrown e =>
            (* error.message || "Failed to process document" *)
            (Failed 500 (match e with [] => lit "Failed to process document" | _ => e end),
             [])
        | Returned text =>
            let chunks := chunkDocument (routeConfig r) text docId in
            let chunksWithEmbeddings := generateEmbeddings (embeddings w) chunks in
            let document :=
              {| doc_id := docId;
                 name := lit "Document " ++ docId;
                 url := default [] (req_url r);
                 doc_content := text;
                 doc_chunks := chunksWithEmbeddings;
                 doc_metadata :=
                   {| wordCount := List.length (split is_space text);
                      chunkCount := List.length chunksWithEmbeddings;
                      processedAt := now w;
                      lastUpdated := now w |} |} in
            (Processed docId (List.length chunksWithEmbeddings)
               (wordCount (doc_metadata document)),
             storeDocument document)
        end
    end.

(** The route from the body of the request: [await request.json()] is
    inside the [try], so a body that does not parse is answered 500 with
    the parser's message. *)
Definition POST_body (w : World) (body : Outcome ProcessRequest)
  : ProcessResponse * list Command :=
  match body with
  | Returned r => POST w r
  | Thrown e =>
      (Failed 500 (match e with [] => lit "Failed to process document" | _ => e end), [])
  end.

End RAGIngestion.

(** ** The processing endpoint: src/app/api/documents/process/route.ts *)

Module ProcessEndpoint.
Import ProcessRoute.

(** [generateEmbeddings]: one call of the embedding service per chunk;
    [None] is a call that failed. *)
Definition generateEmbeddings (service : jsstring -> option (list float))
    (chunks : list DocumentChunk) : list DocumentChunk :=
  map (fun chunk =>
         match service (content chunk) with
         | Some v =>
             {| id := id chunk; documentId := documentId chunk; content := content chunk;
                chunkIndex := chunkIndex chunk; metadata := metadata chunk;
                embedding := Vector v; error := error chunk |}
         | None =>
             {| id := id chunk; documentId := documentId chunk; content := content chunk;
                chunkIndex := chunkIndex chunk; metadata := metadata chunk;
                embedding := NullEmbedding;
                error := Some (lit "Failed to generate embedding") |}
         end)
      chunks.

(** [fetchGoogleDocContent] resolves to the trimmed text or to [null]. *)
Record World : Type := {
  fetchGoogleDocContent : jsstring -> option jsstring;
  embedding_of : jsstring -> option (list float)
}.

Record ProcessRequest : Type := {
  req_url : option jsstring;
  req_documentId : option jsstring;
  req_openaiKey : option jsstring
}.

Inductive ProcessResponse : Type :=
| Processed (documentId : jsstring) (chunksCount : nat) (chunks : list DocumentChunk)
| Failed (status : Z) (error : jsstring).

Definition POST (w : World) (r : ProcessRequest) : ProcessResponse :=
  match req_url r, req_documentId r, req_openaiKey r with
  | Some ((_ :: _) as url), Some ((_ :: _) as documentId), Some (_ :: _) =>
      match RAGIngestion.match_doc_id url with
      | None => Failed 400 (lit "Invalid Google Docs URL")
      | Some docId =>
          match fetchGoogleDocContent w docId with
          | Some ((_ :: _) as text) =>
              let chunks := chunkDocument text documentId in
              let chunksWithEmbeddings := generateEmbeddings (embedding_of w) chunks in
              Processed documentId (List.length chunks) chunksWithEmbeddings
          | _ => Failed 400 (lit "Failed to fetch document content")
          end
      end
  | _, _, _ =>
      Failed 400
        (lit "Missing required parameters: url, documentId, and openaiKey are required")
  end.

End ProcessEndpoint.

(** ** The vector search: [RedisVectorStore.searchSimilar] and
    [RAGSystem.searchSimilarChunks] *)

Module ArraySort.

Local Open Scope float_scope.

(** [Array.prototype.sort(compare)] is stable; with a comparator that
    orders its arguments consistently the result is the one of this
    insertion sort, which places an element after the elements [y] it is
    given before only when [compare(x, y) > 0] (a NaN from the comparator
    counts as 0). *)
Fixpoint insert {A} (compare : A -> A -> float) (x : A) (sorted : list A) : list A :=
  match sorted with
  | [] => [x]
  | y :: rest =>
      if 0 <? compare x y then y :: insert compare x rest else x :: sorted
  end.

Definition sort {A} (compare : A -> A -> float) (items : list A) : list A :=
  fold_right (insert compare) [] items.

End ArraySort.

Module RedisVectorStore.
Import Cosine.
Local Open Scope float_scope.

Record SearchResult : Type := {
  id : jsstring;
  documentId : jsstring;
  content : jsstring;
  score : float;
  metadata : JSON
}.

(** What HGETALL on a chunk key ends in. [embedding] is what
    [JSON.parse(chunkData.embedding)] gives: [None] when it throws or gives
    [null], whose [length] cannot be read; [metadata] is what
    [JSON.parse(chunkData.metadata || "{}")] gives, [None] when it throws. *)
Inductive ChunkData : Type :=
| CommandFails
| NoEmbeddingField
| Hash (id documentId content : jsstring)
       (embedding : option vector) (metadata : option JSON).

(** The store seen from the search: whether PING succeeds and the error
    it throws when it does not ("Redis command failed: <status>", or what
    [fetch] or the body parser throws), what KEYS "doc:*:chunk:*" answers
    ([None] when the command fails), and the hash under each key. *)
Record World : Type := {
  ping : bool;
  ping_error : jsstring;
  keys : option (list jsstring);
  hgetall : jsstring -> ChunkData
}.

(** One turn of [for (const key of documentKeys)], with its [try] and
    [catch]. *)
Definition collect (w : World) (queryEmbedding : vector) (threshold : float)
    (results : list SearchResult) (key : jsstring) : list SearchResult :=
  match hgetall w key with
  | Hash id documentId content (Some embedding) metadata =>
      let similarity := RedisVectorStoreScore.cosineSimilarity queryEmbedding embedding in
      if threshold <=? similarity then
        match metadata with
        | Some parsed =>
            results ++ [{| id := id; documentId := documentId; content := content;
                           score := similarity; metadata := parsed |}]
        | None => results
        end
      else results
  | _ => results
  end.

(** [(a, b) => b.score - a.score] *)
Definition by_score (a b : SearchResult) : float := score b - score a.

(** [searchSimilar(queryEmbedding, limit = 5, threshold = 0.7)] on a store
    that is not connected yet: [connect] throws when PING fails. *)
Definition searchSimilar (w : World) (queryEmbedding : vector) (limit : Z)
    (threshold : float) : Outcome (list SearchResult) :=
  if negb (ping w) then Thrown (ping_error w)
  else
    match keys w with
    | None => Returned []
    | Some documentKeys =>
        let results := fold_left (collect w queryEmbedding threshold) documentKeys [] in
        Returned (slice_to limit (ArraySort.sort by_score results))
    end.

End RedisVectorStore.

Module RAGSearch.
Import Cosine RAGSystem.
Local Open Scope float_scope.

(** What the search needs from outside: the embedding of the query
    ([null] when the call fails), the keys "chunk:*", and under each key
    the stored fields with the embedding and the metadata parsed, or the
    error [JSON.parse] throws on them. The client the repository builds
    answers no key at all. *)
Record StoredChunk : Type := {
  stored_documentId : jsstring;
  stored_content : jsstring;
  stored_chunkIndex : nat;
  stored_embedding : option (Outcome vector);
  stored_metadata : Outcome ChunkMetadata
}.

Record World : Type := {
  queryEmbedding : jsstring -> option vector;
  chunkKeys : list jsstring;
  hgetall : jsstring -> StoredChunk
}.

Record Scored : Type := {
  chunk : DocumentChunk;
  similarity : float
}.

(** [key.replace("chunk:", "")]: the first occurrence is removed. *)
Fixpoint remove_first (pattern s : jsstring) : jsstring :=
  match s with
  | [] => []
  | c :: s' =>
      match RAGIngestion.strip_prefix pattern s with
      | Some rest => rest
      | None => c :: remove_first pattern s'
      end
  end.

(** One turn of [for (const key of chunkKeys)]; nothing catches what
    [JSON.parse] throws here. *)
Definition collect (config : RAGConfig) (w : World) (query : vector)
    (found : Outcome (list Scored)) (key : jsstring) : Outcome (list Scored) :=
  match found with
  | Thrown e => Thrown e
  | Returned similarChunks =>
      let chunkData := hgetall w key in
      match stored_embedding chunkData with
      | None => Returned similarChunks
      | Some (Thrown e) => Thrown e
      | Some (Returned chunkEmbedding) =>
          let similarity := RAGSystemScore.cosineSimilarity query chunkEmbedding in
          if similarityThreshold config <=? similarity then
            match stored_metadata chunkData with
            | Thrown e => Thrown e
            | Returned parsed =>
                Returned
                  (similarChunks
                   ++ [{| chunk :=
                            {| id := remove_first (lit "chunk:") key;
                               documentId := stored_documentId chunkData;
                               content := stored_content chunkData;
                               chunkIndex := stored_chunkIndex chunkData;
                               embedding := chunkEmbedding;
                               metadata := parsed |};
                          similarity := similarity |}])
            end
          else Returned similarChunks
      end
  end.

(** [(a, b) => b.similarity - a.similarity] *)
Definition by_similarity (a b : Scored) : float := similarity b - similarity a.

(** The chunks [searchSimilarChunks] keeps, with the similarity each was
    ranked by. *)
Definition ranked (config : RAGConfig) (w : World) (query : jsstring) (limit : Z)
  : Outcome (list Scored) :=
  match queryEmbedding w query with
  | None => Returned []
  | Some embedded =>
      match fold_left (collect config w embedded) (chunkKeys w) (Returned []) with
      | Thrown e => Thrown e
      | Returned similarChunks =>
          Returned (slice_to limit (ArraySort.sort by_similarity similarChunks))
      end
  end.

(** [searchSimilarChunks(query, limit = 5)]: [.map((item) => item.chunk)]
    on the ranked chunks. *)
Definition searchSimilarChunks (config : RAGConfig) (w : World) (query : jsstring)
    (limit : Z) : Outcome (list DocumentChunk) :=
  match ranked config w query limit with
  | Thrown e => Thrown e
  | Returned kept => Returned (map chunk kept)
  end.

End RAGSearch.

(** ** The client of the vector store: [RedisVectorStore.connect],
    [storeChunks], [deleteDocument] and [listDocuments] *)

Module VectorStoreClient.
Import RAGIngestion.

(** [interface VectorChunk] *)
Record VectorChunk : Type := {
  id : jsstring;
  documentId : jsstring;
  content : jsstring;
  embedding : list float;
  metadata : JSON
}.

(** An argument of a command is a string; the two that [JSON.stringify]
    prints stand for their texts. *)
Inductive Argument : Type :=
| Text (s : jsstring)
| EmbeddingText (v : list float)
| MetadataText (m : JSON).

(** The commands [executeRedisCommand] is called with. *)
Inductive Command : Type :=
| PING
| HSET (key : jsstring) (fields : list (jsstring * Argument))
| SADD (key member : jsstring)
| SMEMBERS (key : jsstring)
| DEL (key : jsstring)
| KEYS (pattern : jsstring).

(** The object: the server it talks to, its [connected] field, and the
    commands it has sent. *)
Record Session (S : Type) : Type := {
  server : S;
  connected : bool;
  sent : list Command
}.
Arguments server {S} s.
Arguments connected {S} s.
Arguments sent {S} s.

Definition chunk_key (chunk : VectorChunk) : jsstring :=
  lit "doc:" ++ documentId chunk ++ lit ":chunk:" ++ id chunk.

Definition chunk_key_of (documentId chunkId : jsstring) : jsstring :=
  lit "doc:" ++ documentId ++ lit ":chunk:" ++ chunkId.

Definition chunk_set_key (documentId : jsstring) : jsstring :=
  lit "doc:" ++ documentId ++ lit ":chunks".

Definition chunk_fields (chunk : VectorChunk) (timestamp : jsstring)
  : list (jsstring * Argument) :=
  [(lit "id", Text (id chunk));
   (lit "documentId", Text (documentId chunk));
   (lit "content", Text (content chunk));
   (lit "embedding", EmbeddingText (embedding chunk));
   (lit "metadata", MetadataText (metadata chunk));
   (lit "timestamp", Text timestamp)].

Definition is_colon (c : N) : bool := (c =? 58)%N.

(** [key.match(/doc:([^:]+):chunks/)], the captured group: the pattern is
    tried at each place in turn; the group takes every code unit up to the
    next colon, and giving some back cannot help, since ":chunks" starts
    with a colon. *)
Fixpoint match_document (s : jsstring) : option jsstring :=
  match s with
  | [] => None
  | _ :: s' =>
      match strip_prefix (lit "doc:") s with
      | Some rest =>
          match take_while (fun c => negb (is_colon c)) rest with
          | [] => match_document s'
          | found =>
              match strip_prefix (lit ":chunks") (skipn (List.length found) rest) with
              | Some _ => Some found
              | None => match_document s'
              end
          end
      | None => match_document s'
      end
  end.

(** [[...new Set(items)]]: the first occurrence of each item, in order. *)
Definition add_new (seen : list jsstring) (item : jsstring) : list jsstring :=
  if bool_decide (item ∈ seen) then seen else seen ++ [item].

Definition distinct (items : list jsstring) : list jsstring :=
  fold_left add_new items [].

Section WithServer.

(** The server: what it answers to a command (for SMEMBERS and KEYS the
    array of strings in the body; an error when the request fails, the
    status is not a success or the body is no JSON) and what it becomes;
    and the time it shows. *)
Context {S : Type}.
Variable exec : S -> Command -> Outcome (list jsstring) * S.
Variable clock : S -> jsstring.

Definition V (A : Type) : Type := Session S -> Outcome A * Session S.

Definition done {A} (a : A) : V A := fun s => (Returned a, s).

Definition andThen {A B} (m : V A) (k : A -> V B) : V B :=
  fun s =>
    match m s with
    | (Returned a, s') => k a s'
    | (Thrown e, s') => (Thrown e, s')
    end.

(** [executeRedisCommand]: its [catch] logs and throws the error again. *)
Definition executeRedisCommand (c : Command) : V (list jsstring) :=
  fun s =>
    let (reply, after) := exec (server s) c in
    (reply, {| server := after; connected := connected s; sent := sent s ++ [c] |}).

(** [connect] *)
Definition connect : V unit :=
  fun s =>
    if connected s then (Returned tt, s)
    else
      match executeRedisCommand PING s with
      | (Returned _, s') =>
          (Returned tt, {| server := server s'; connected := true; sent := sent s' |})
      | (Thrown e, s') => (Thrown e, s')
      end.

(** One turn of [for (const chunk of chunks)]: [Date.now()] is read
    before the HSET is sent. *)
Definition store_chunk (chunk : VectorChunk) : V unit :=
  fun s =>
    andThen (executeRedisCommand (HSET (chunk_key chunk)
                                    (chunk_fields chunk (clock (server s)))))
      (fun _ =>
         andThen (executeRedisCommand (SADD (chunk_set_key (documentId chunk)) (id chunk)))
           (fun _ => done tt)) s.

Fixpoint store_each (chunks : list VectorChunk) : V unit :=
  match chunks with
  | [] => done tt
  | chunk :: rest => andThen (store_chunk chunk) (fun _ => store_each rest)
  end.

(** [storeChunks(chunks)] *)
Definition storeChunks (chunks : list VectorChunk) : V unit :=
  andThen connect (fun _ => store_each chunks).

Fixpoint delete_each (documentId : jsstring) (chunkIds : list jsstring) : V unit :=
  match chunkIds with
  | [] => done tt
  | chunkId :: rest =>
      andThen (executeRedisCommand (DEL (chunk_key_of documentId chunkId)))
        (fun _ => delete_each documentId rest)
  end.

(** [deleteDocument(documentId)] *)
Definition deleteDocument (documentId : jsstring) : V unit :=
  andThen connect (fun _ =>
  andThen (executeRedisCommand (SMEMBERS (chunk_set_key documentId))) (fun chunkIds =>
  andThen (delete_each documentId chunkIds) (fun _ =>
  andThen (executeRedisCommand (DEL (chunk_set_key documentId))) (fun _ =>
  done tt)))).

(** [listDocuments()]: [connect] is outside the [try], so its error is
    thrown; a failing KEYS gives the empty list. *)
Definition listDocuments : V (list jsstring) :=
  andThen connect (fun _ =>
    fun s =>
      match executeRedisCommand (KEYS (lit "doc:*:chunks")) s with
      | (Returned keys, s') => (Returned (distinct (omap match_document keys)), s')
      | (Thrown _, s') => (Returned [], s')
      end).

End WithServer.

End VectorStoreClient.

(** ** The chat route, await by await *)

Module ChatRouteAsync.
Import ChatRoute.

(** The promise of an async function, from where the function stands: it
    has settled (returned or thrown), or it has called [fetch] and awaits
    the response, or it awaits the body of a response. *)
Inductive Promise (A : Type) : Type :=
| Settled (o : Outcome A)
| AwaitFetch (call : Event) (k : FetchResult -> Promise A)
| AwaitBody (call : Event) (body : Outcome JSON) (k : Outcome JSON -> Promise A).
Arguments Settled {A} o.
Arguments AwaitFetch {A} call k.
Arguments AwaitBody {A} call body k.

(** What happens, in order: a [fetch] is called, so that its request is in
    flight; the [await] of a [fetch] resumes with the response; the
    [await] of a body resumes. *)
Inductive Step : Type :=
| Issued (call : Event)
| Answered (call : Event)
| Read (call : Event).

Definition request_of (call : Event) : Request :=
  match call with
  | SearchCall r | GenerationCall r | StoreCall r => r
  end.

(** Calling an async function runs it up to its first [await]. *)
Definition start {A} (t : Promise A) : list Step :=
  match t with
  | AwaitFetch call _ => [Issued call]
  | _ => []
  end.

Definition searchLangCache (query : jsstring) (config : Config) : Promise CacheResult :=
  if missing (langcacheUrl config) || missing (cacheId config)
     || missing (serviceKey config)
  then Settled (Returned Miss)
  else
    let request := searchRequest query config in
    AwaitFetch (SearchCall request) (fun response =>
      match response with
      | NetworkError _ => Settled (Returned Miss)
      | Response ok _ json =>
          if negb ok then Settled (Returned Miss)
          else
            AwaitBody (SearchCall request) json (fun body =>
              match body with
              | Thrown _ => Settled (Returned Miss)
              | Returned result =>
                  let entry := opt_first (opt_member (lit "data") (Some result)) in
                  match opt_member (lit "response") entry with
                  | Some response =>
                      if truthy (Some response) then
                        Settled
                          (Returned
                             (Hit response
                                (or_else (opt_member (lit "similarity") entry) (JNum 0))
                                (or_else (opt_member (lit "prompt") entry) (JStr query))))
                      else Settled (Returned Miss)
                  | None => Settled (Returned Miss)
                  end
              end)
      end).

Definition storeInLangCache (query : jsstring) (response : JSON) (config : Config)
  : Promise bool :=
  if missing (langcacheUrl config) || missing (cacheId config)
     || missing (serviceKey config)
  then Settled (Returned false)
  else
    match response with
    | JStr text =>
        AwaitFetch (StoreCall (storeRequest query text config)) (fun storeResponse =>
          match storeResponse with
          | NetworkError _ => Settled (Returned false)
          | Response ok _ _ => Settled (Returned ok)
          end)
    | _ => Settled (Returned false)
    end.

Section WithWorld.

Variable w : World.

Definition callOpenAI (query : jsstring) (config : Config) : Promise Generation :=
  let request := generationRequest query config in
  AwaitFetch (GenerationCall request) (fun response =>
    match response with
    | NetworkError e => Settled (Thrown e)
    | Response ok code json =>
        let latency := elapsed w request in
        if negb ok then Settled (Thrown (lit "OpenAI API error: " ++ JsString.of_Z code))
        else
          AwaitBody (GenerationCall request) json (fun body =>
            match body with
            | Thrown e => Settled (Thrown e)
            | Returned JNull => Settled (Thrown (type_error "null" "choices"))
            | Returned data =>
                match member (lit "choices") data with
                | None => Settled (Thrown (type_error "undefined" "0"))
                | Some JNull => Settled (Thrown (type_error "null" "0"))
                | Some choices =>
                    Settled
                      (Returned
                         {| content :=
                              or_else (opt_member (lit "content")
                                         (opt_member (lit "message") (first choices)))
                                      (JStr (lit "No response generated"));
                            latency := latency;
                            tokensUsed :=
                              or_else (opt_member (lit "total_tokens")
                                         (member (lit "usage") data))
                                      (JNum 0) |})
                end
            end)
    end).

(** [await promise]: the caller waits until the promise has settled. *)
Fixpoint await {A} (t : Promise A) : Outcome A * list Step :=
  match t with
  | Settled o => (o, [])
  | AwaitFetch call k =>
      let t' := k (fetch w (request_of call)) in
      (fst (await t'), Answered call :: start t' ++ snd (await t'))
  | AwaitBody call body k =>
      let t' := k body in
      (fst (await t'), Read call :: start t' ++ snd (await t'))
  end.

(** [await Promise.all([a, b])] on two calls already made. Whenever both
    wait, the head of [schedule] says which one resumes first ([true] for
    the first); the promise is rejected as soon as one of them has
    thrown, and fulfilled when both have returned. *)
Fixpoint all {A B} (a : Promise A) {struct a}
  : Promise B -> list bool -> Outcome (A * B) * list Step :=
  fix all_b (b : Promise B) {struct b} : list bool -> Outcome (A * B) * list Step :=
    fun schedule =>
      match a with
      | Settled (Thrown e) => (Thrown e, [])
      | Settled (Returned x) =>
          match b with
          | Settled (Thrown e) => (Thrown e, [])
          | Settled (Returned y) => (Returned (x, y), [])
          | AwaitFetch call k =>
              let b' := k (fetch w (request_of call)) in
              (fst (all_b b' schedule), Answered call :: start b' ++ snd (all_b b' schedule))
          | AwaitBody call body k =>
              let b' := k body in
              (fst (all_b b' schedule), Read call :: start b' ++ snd (all_b b' schedule))
          end
      | AwaitFetch call k =>
          let a' := k (fetch w (request_of call)) in
          let first (rest : list bool) :=
            (fst (all a' b rest), Answered call :: start a' ++ snd (all a' b rest)) in
          match b with
          | Settled (Thrown e) => (Thrown e, [])
          | Settled (Returned _) => first schedule
          | AwaitFetch call' k' =>
              match schedule with
              | false :: rest =>
                  let b' := k' (fetch w (request_of call')) in
                  (fst (all_b b' rest), Answered call' :: start b' ++ snd (all_b b' rest))
              | _ :: rest => first rest
              | [] => first []
              end
          | AwaitBody call' body' k' =>
              match schedule with
              | false :: rest =>
                  let b' := k' body' in
                  (fst (all_b b' rest), Read call' :: start b' ++ snd (all_b b' rest))
              | _ :: rest => first rest
              | [] => first []
              end
          end
      | AwaitBody call body k =>
          let a' := k body in
          let first (rest : list bool) :=
            (fst (all a' b rest), Read call :: start a' ++ snd (all a' b rest)) in
          match b with
          | Settled (Thrown e) => (Thrown e, [])
          | Settled (Returned _) => first schedule
          | AwaitFetch call' k' =>
              match schedule with
              | false :: rest =>
                  let b' := k' (fetch w (request_of call')) in
                  (fst (all_b b' rest), Answered call' :: start b' ++ snd (all_b b' rest))
              | _ :: rest => first rest
              | [] => first []
              end
          | AwaitBody call' body' k' =>
              match schedule with
              | false :: rest =>
                  let b' := k' body' in
                  (fst (all_b b' rest), Read call' :: start b' ++ snd (all_b b' rest))
              | _ :: rest => first rest
              | [] => first []
              end
          end
      end.

(** [POST], with what happened up to its response. A call that is made
    and not awaited ([storeInLangCache(...).catch(console.error)]) is
    started and left. *)
Definition POST (request : Outcome ChatRequest) (schedule : list bool)
  : HttpResponse * list Step :=
  let failed (e : jsstring) := respond 500 [("error", Some (JStr e))]%string in
  match request with
  | Thrown e => (failed e, [])
  | Returned parsed =>
      match message parsed, config parsed with
      | Some ((_ :: _) as message), Some config =>
          if shadowMode config then
            let search := searchLangCache message config in
            let generation := callOpenAI message config in
            let called := start search ++ start generation in
            match all search generation schedule with
            | (Returned (cacheResult, openaiResult), steps) =>
                (shadowResponse message cacheResult openaiResult,
                 called ++ steps
                 ++ (if negb (hit cacheResult)
                     then start (storeInLangCache message (content openaiResult) config)
                     else []))
            | (Thrown e, steps) => (failed e, called ++ steps)
            end
          else
            let search := searchLangCache message config in
            match await search with
            | (Returned (Hit response similarity cachedQuery), steps) =>
                (hitResponse message response similarity cachedQuery
                   (cacheLatency w message config),
                 start search ++ steps)
            | (Returned Miss, steps) =>
                let generation := callOpenAI message config in
                match await generation with
                | (Returned openaiResult, steps') =>
                    (missResponse message openaiResult,
                     start search ++ steps ++ start generation ++ steps'
                     ++ start (storeInLangCache message (content openaiResult) config))
                | (Thrown e, steps') =>
                    (failed e, start search ++ steps ++ start generation ++ steps')
                end
            | (Thrown e, steps) => (failed e, start search ++ steps)
            end
      | _, _ =>
          (respond 400 [("error", Some (JStr (lit "Missing message or config")))]%string,
           [])
      end
  end.

End WithWorld.

End ChatRouteAsync.

(** * Vocabulary of the statements, and the scenarios they are run on *)

(** ** The chat route *)

Module ChatRouteSpec.
Import ChatRoute.

(** Whether the three fields of the cache configuration are there. *)
Definition configured (c : Config) : bool :=
  negb (missing (langcacheUrl c) || missing (cacheId c) || missing (serviceKey c)).

(** [result?.data?.[0]?.response] *)
Definition entry_response (result : JSON) : value :=
  opt_member (lit "response") (opt_first (opt_member (lit "data") (Some result))).

(** What the search resolves to, read off the backend's answer. *)
Definition searchOutcome (w : World) (query : jsstring) (c : Config) : CacheResult :=
  if configured c then
    match fetch w (searchRequest query c) with
    | Response true _ (Returned result) =>
        let entry := opt_first (opt_member (lit "data") (Some result)) in
        match opt_member (lit "response") entry with
        | Some response =>
            if truthy (Some response) then
              Hit response
                (or_else (opt_member (lit "similarity") entry) (JNum 0))
                (or_else (opt_member (lit "prompt") entry) (JStr query))
            else Miss
        | None => Miss
        end
    | _ => Miss
    end
  else Miss.

(** The fields of the shadow-mode response that record the cache outcome. *)
Definition cache_field (name : jsstring) : bool :=
  bool_decide (name ∈ [lit "cacheHit"; lit "similarity"; lit "cachedQuery"; lit "tokensSaved"]).

Definition without_cache_fields (r : HttpResponse) : list (jsstring * value) :=
  List.filter (fun kv => negb (cache_field (fst kv))) (payload r).

(** *** A concrete world: the scenarios of the specification *)

Definition demo_config (shadow : bool) : Config :=
  {| openaiKey := Some (lit "sk-demo");
     langcacheUrl := Some (lit "https://cache.example");
     cacheId := Some (lit "c1");
     serviceKey := Some (lit "svc");
     shadowMode := shadow |}.

(** The cache holds response "R" for prompt "Q?" at similarity 0.9375; the
    generation service answers "G2" and reports 10 tokens. *)
Definition demo_world : World :=
  {| fetch r :=
       if bool_decide (url r = openai_url) then
         Response true 200
           (Returned
              (JObj [(lit "choices",
                      JArr [JObj [(lit "message",
                                   JObj [(lit "content", JStr (lit "G2"))])]]);
                     (lit "usage", JObj [(lit "total_tokens", JNum 10)])]))
       else
         Response true 200
           (Returned
              (JObj [(lit "data",
                      JArr [JObj [(lit "response", JStr (lit "R"));
                                  (lit "similarity", JNum 0.9375);
                                  (lit "prompt", JStr (lit "Q?"))]])]));
     elapsed r := 7 |}.

Definition demo_generation : Generation :=
  {| content := JStr (lit "G2"); latency := 7; tokensUsed := JNum 10 |}.

Definition demo_hit : CacheResult :=
  Hit (JStr (lit "R")) (JNum 0.9375) (JStr (lit "Q?")).

End ChatRouteSpec.

(** ** Cosine similarity *)

Module CosineSpec.
Local Open Scope float_scope.

(** A component that is zero: [+0] or [-0]. *)
Definition is_zero (x : float) : Prop := x = 0 \/ x = -0.

End CosineSpec.

(** ** The chunkers *)

Module ChunkerSpec.

Definition tiny : RAGSystem.RAGConfig :=
  {| RAGSystem.openaiKey := []; RAGSystem.redisUrl := []; RAGSystem.redisPassword := [];
     RAGSystem.chunkSize := 1; RAGSystem.chunkOverlap := 4;
     RAGSystem.similarityThreshold := 0.5%float |}.

(** The configuration every route of the repository builds. *)
Definition standard : RAGSystem.RAGConfig :=
  {| RAGSystem.openaiKey := []; RAGSystem.redisUrl := []; RAGSystem.redisPassword := [];
     RAGSystem.chunkSize := 800; RAGSystem.chunkOverlap := 100;
     RAGSystem.similarityThreshold := 0.7%float |}.

(** [pushed index start l n s]: the chunks [l] carry the indices
    [0 .. n-1] in order, their start offsets never decrease, and none is
    beyond [s]. *)
Definition pushed {A : Type} (index : A -> nat) (start : A -> Z)
    (l : list A) (n : nat) (s : Z) : Prop :=
  map index l = seq 0 n
  /\ (forall i j c1 c2, (i <= j)%nat -> l !! i = Some c1 -> l !! j = Some c2 ->
      start c1 <= start c2)
  /\ Forall (fun c => start c <= s) l.

Definition rag_start (c : RAGSystem.DocumentChunk) : Z :=
  RAGSystem.startChar (RAGSystem.metadata c).
Definition route_start (c : ProcessRoute.DocumentChunk) : Z :=
  ProcessRoute.startChar (ProcessRoute.metadata c).


Definition rag_pushed (st : RAGSystem.Chunking) : Prop :=
  pushed RAGSystem.chunkIndex rag_start
    (RAGSystem.chunks st) (RAGSystem.nextIndex st) (RAGSystem.nextStart st).

Definition route_pushed (st : ProcessRoute.Chunking) : Prop :=
  pushed ProcessRoute.chunkIndex route_start
    (ProcessRoute.chunks st) (ProcessRoute.nextIndex st) (ProcessRoute.nextStart st).

(** The sentences the loop does not skip, trimmed. *)
Fixpoint kept (sentences : list jsstring) : list jsstring :=
  match sentences with
  | [] => []
  | s :: rest =>
      match trim s with
      | [] => kept rest
      | t => t :: kept rest
      end
  end.

(** The text the loop builds when it never closes a chunk: the kept
    sentences joined by single spaces. *)
Definition joined (sentences : list jsstring) : jsstring := join space (kept sentences).

Definition rag_state (text : jsstring) : RAGSystem.Chunking :=
  {| RAGSystem.chunks := []; RAGSystem.currentChunk := text;
     RAGSystem.nextIndex := 0; RAGSystem.nextStart := 0 |}.

Definition route_state (text : jsstring) : ProcessRoute.Chunking :=
  {| ProcessRoute.chunks := []; ProcessRoute.currentChunk := text;
     ProcessRoute.nextIndex := 0; ProcessRoute.nextStart := 0 |}.

Definition no_terminal (content : jsstring) : Prop :=
  forallb (fun c => negb (is_terminal c)) content = true.

End ChunkerSpec.

(** ** Storing a document *)

Module StoreSpec.
Import RAGSystem Redis RAGIngestion.

(** A chunk whose embedding is not empty. *)
Definition embedded (chunk : DocumentChunk) : bool :=
  match embedding chunk with
  | [] => false
  | _ :: _ => true
  end.

(** The two calls that persist one chunk: its record under
    "chunk:<id>", and its id in the set "doc:<document id>:chunks". *)
Definition persist (d : RAGDocument) (chunk : DocumentChunk) : list Command :=
  [HSET (lit "chunk:" ++ id chunk)
     [(lit "documentId", FText (documentId chunk));
      (lit "content", FText (content chunk));
      (lit "chunkIndex", FNumber (Z.of_nat (chunkIndex chunk)));
      (lit "embedding", FEmbedding (embedding chunk));
      (lit "metadata", FMetadata (metadata chunk))];
   SADD (lit "doc:" ++ doc_id d ++ lit ":chunks") (id chunk)].

Definition document_record (d : RAGDocument) : list (jsstring * Field) :=
  [(lit "name", FText (name d));
   (lit "url", FText (url d));
   (lit "wordCount", FNumber (Z.of_nat (wordCount (doc_metadata d))));
   (lit "chunkCount", FNumber (Z.of_nat (chunkCount (doc_metadata d))));
   (lit "processedAt", FText (processedAt (doc_metadata d)))].

(** The number of chunk records among the calls made on the store. *)
Definition persisted (calls : list Command) : nat :=
  List.length (List.filter (fun c => match c with SADD _ _ => true | _ => false end) calls).

(** An embedding service that answers every batch in full or not at all. *)
Definition answers_in_full (service : list jsstring -> BatchResult) : Prop :=
  forall texts,
    match service texts with
    | BatchFails => True
    | BatchData embeddings => (List.length texts <= List.length embeddings)%nat
    end.

(** A document of one sentence and an embedding service that is down. *)
Definition outage : RAGIngestion.World :=
  {| fetchGoogleDoc _ := Returned (lit "Hello world.");
     embeddings _ := BatchFails;
     now := lit "2024-01-01T00:00:00.000Z" |}.

Definition outage_request : RAGIngestion.ProcessRequest :=
  {| RAGIngestion.req_url := Some (lit "https://docs.google.com/document/d/abc/edit");
     RAGIngestion.req_openaiKey := Some (lit "sk-demo");
     RAGIngestion.req_redisUrl := Some (lit "redis://h:6379");
     RAGIngestion.req_redisPassword := None |}.

(** The processing endpoint with a document of one sentence and an
    embedding service that is down. *)
Definition endpoint_outage : ProcessEndpoint.World :=
  {| ProcessEndpoint.fetchGoogleDocContent _ := Some (lit "Hello world.");
     ProcessEndpoint.embedding_of _ := None |}.

Definition endpoint_request : ProcessEndpoint.ProcessRequest :=
  {| ProcessEndpoint.req_url := Some (lit "https://docs.google.com/document/d/abc/edit");
     ProcessEndpoint.req_documentId := Some (lit "doc-1");
     ProcessEndpoint.req_openaiKey := Some (lit "sk-demo") |}.

(** A document of two chunks, the first with an embedding, the second
    without. *)
Definition half_embedded : RAGDocument :=
  {| doc_id := lit "d"; name := lit "Document d"; url := lit "u"; doc_content := lit "A. B.";
     doc_chunks :=
       [{| id := lit "d_chunk_0"; documentId := lit "d"; content := lit "A.";
           chunkIndex := 0; embedding := [1%float; 0%float];
           metadata := {| RAGSystem.startChar := 0; RAGSystem.endChar := 2;
                          RAGSystem.wordCount := 1; RAGSystem.sentenceCount := 1 |} |};
        {| id := lit "d_chunk_1"; documentId := lit "d"; content := lit "B.";
           chunkIndex := 1; embedding := [];
           metadata := {| RAGSystem.startChar := 3; RAGSystem.endChar := 5;
                          RAGSystem.wordCount := 1; RAGSystem.sentenceCount := 1 |} |}];
     doc_metadata := {| RAGIngestion.wordCount := 2; chunkCount := 2;
                        processedAt := lit "t"; lastUpdated := lit "t" |} |}.

End StoreSpec.

(** ** Binary64 order *)

Module FloatOrderSpec.

(** The least exponent and the canonical exponent of binary64. *)
Abbreviation emin := (SpecFloat.emin prec emax).
Abbreviation fexp := (SpecFloat.fexp prec emax).

(** What rounding returns carries the sign it was given. *)
Definition signed (s : bool) (x : spec_float) : Prop :=
  match x with
  | S754_zero s' | S754_infinity s' | S754_finite s' _ _ => s' = s
  | S754_nan => True
  end.

Definition strictly_signed (s : bool) (x : spec_float) : Prop :=
  match x with
  | S754_infinity s' | S754_finite s' _ _ => s' = s
  | _ => False
  end.

(** The value of a finite number, as an integer at the exponent [ez]. *)
Definition aligned (s : bool) (m : positive) (e ez : Z) : Z :=
  cond_Zopp s (Zpos (fst (shl_align m e ez))).

Definition is_nan_sf (x : spec_float) : bool :=
  match x with S754_nan => true | _ => false end.

Abbreviation zero_sf := (S754_zero false).

End FloatOrderSpec.

(** ** The vector search *)

Module SearchSpec.
Import Cosine RedisVectorStore.
Local Open Scope float_scope.

(** [(a, b) => rank(b) - rank(a)] *)
Definition descending {A : Type} (rank : A -> float) (a b : A) : float := rank b - rank a.

(** [a] comes before [b] in non-increasing order. *)
Definition not_below {A : Type} (rank : A -> float) (a b : A) : Prop :=
  (rank b <=? rank a) = true.

Definition passes {A : Type} (rank : A -> float) (threshold : float) (a : A) : Prop :=
  (threshold <=? rank a) = true.

(** A store of three chunks, the second and third of which match the
    query [[1; 0]] above 0.5. *)
Definition three_chunks : World :=
  {| ping := true;
     ping_error := [];
     keys := Some [lit "doc:d:chunk:0"; lit "doc:d:chunk:1"; lit "doc:d:chunk:2"];
     hgetall key :=
       if bool_decide (key = lit "doc:d:chunk:0")
       then Hash (lit "0") (lit "d") (lit "zero") (Some [0; 1]) (Some JNull)
       else if bool_decide (key = lit "doc:d:chunk:1")
       then Hash (lit "1") (lit "d") (lit "half") (Some [1; 1]) (Some JNull)
       else Hash (lit "2") (lit "d") (lit "one") (Some [1; 0]) (Some JNull) |}.

(** The ids and scores of what a search returned. *)
Definition scores (found : Outcome (list SearchResult)) : list (jsstring * float) :=
  match found with
  | Returned results => map (fun r => (id r, score r)) results
  | Thrown _ => []
  end.

End SearchSpec.

(** ** More vocabulary: the chat route *)

Module ChatRouteMoreSpec.
Import ChatRoute ChatRouteSpec.

(** What [storeInLangCache] resolves to and the call it issues, read off
    the backend's answer. *)
Definition storeOutcome (w : World) (query : jsstring) (response : JSON) (c : Config)
  : bool * list Event :=
  if configured c then
    match response with
    | JStr text =>
        (match fetch w (storeRequest query text c) with
         | Response ok _ _ => ok
         | NetworkError _ => false
         end,
         [StoreCall (storeRequest query text c)])
    | _ => (false, [])
    end
  else (false, []).

Definition is_null (v : JSON) : bool :=
  match v with JNull => true | _ => false end.

(** What [callOpenAI] makes of a parsed body. *)
Definition generationOf (data : JSON) (elapsed : Z) : Outcome Generation :=
  if is_null data then Thrown (type_error "null" "choices")
  else
    match member (lit "choices") data with
    | None => Thrown (type_error "undefined" "0")
    | Some choices =>
        if is_null choices then Thrown (type_error "null" "0")
        else
          Returned
            {| content :=
                 or_else (opt_member (lit "content")
                            (opt_member (lit "message") (first choices)))
                         (JStr (lit "No response generated"));
               latency := elapsed;
               tokensUsed :=
                 or_else (opt_member (lit "total_tokens") (member (lit "usage") data))
                         (JNum 0) |}
    end.

(** [data.choices[0].message.content] and [data.usage.total_tokens] in a
    reply body, where the body has them ([None] is [undefined]). *)
Definition replyContent (data : JSON) : value :=
  opt_member (lit "content")
    (opt_member (lit "message") (opt_first (opt_member (lit "choices") (Some data)))).

Definition replyTokens (data : JSON) : value :=
  opt_member (lit "total_tokens") (opt_member (lit "usage") (Some data)).

(** A value that [||] replaces by its right operand. *)
Definition falsy (v : value) : Prop := truthy v = false.

(** A reply of the generation service as its API documents it, with the
    text of one choice and the token counts. *)
Definition completion (text : jsstring) (tokens : float) : JSON :=
  JObj [(lit "id", JStr (lit "chatcmpl-1"));
        (lit "object", JStr (lit "chat.completion"));
        (lit "model", JStr (lit "gpt-3.5-turbo"));
        (lit "choices",
         JArr [JObj [(lit "index", JNum 0);
                     (lit "message",
                      JObj [(lit "role", JStr (lit "assistant"));
                            (lit "content", JStr text)]);
                     (lit "finish_reason", JStr (lit "stop"))]]);
        (lit "usage",
         JObj [(lit "prompt_tokens", JNum 9);
               (lit "completion_tokens", JNum 12);
               (lit "total_tokens", JNum tokens)])].

(** The calls of the cache search. *)
Definition searchCalls (query : jsstring) (c : Config) : list Event :=
  if configured c then [SearchCall (searchRequest query c)] else [].

Definition is_search (e : Event) : bool :=
  match e with SearchCall _ => true | _ => false end.
Definition is_store (e : Event) : bool :=
  match e with StoreCall _ => true | _ => false end.

Definition count (f : Event -> bool) (calls : list Event) : nat :=
  List.length (List.filter f calls).

(** The response of [POST] to a message that is not empty under a
    configuration, and the calls it issues, read off the three services'
    outcomes. *)
Definition postOutcome (w : World) (msg : jsstring) (c : Config)
  : HttpResponse * list Event :=
  let cacheResult := searchOutcome w msg c in
  let generation := [GenerationCall (generationRequest msg c)] in
  let failed e := respond 500 [("error", Some (JStr e))]%string in
  if shadowMode c then
    match fst (callOpenAI w msg c []) with
    | Returned gen =>
        (shadowResponse msg cacheResult gen,
         searchCalls msg c ++ generation
         ++ (if hit cacheResult then [] else snd (storeOutcome w msg (content gen) c)))
    | Thrown e => (failed e, searchCalls msg c ++ generation)
    end
  else
    match cacheResult with
    | Hit response similarity cachedQuery =>
        (hitResponse msg response similarity cachedQuery (cacheLatency w msg c),
         searchCalls msg c)
    | Miss =>
        match fst (callOpenAI w msg c []) with
        | Returned gen =>
            (missResponse msg gen,
             searchCalls msg c ++ generation ++ snd (storeOutcome w msg (content gen) c))
        | Thrown e => (failed e, searchCalls msg c ++ generation)
        end
    end.

Definition chatRequest (msg : jsstring) (c : Config) : Outcome ChatRequest :=
  Returned {| message := Some msg; config := Some c |}.

(** The cached response of a search result. *)
Definition response_of (r : CacheResult) : value :=
  match r with Hit response _ _ => Some response | Miss => undefined end.

(** A request [POST] does not serve: no message, an empty one, or no
    configuration. *)
Definition invalid (r : ChatRequest) : Prop :=
  message r = None \/ message r = Some [] \/ config r = None.

(** What [POST] answers, whatever it throws being none of this model. *)
Definition answer (run : Outcome HttpResponse * list Event) : option HttpResponse :=
  match fst run with Returned response => Some response | Thrown _ => None end.

(** A world whose cache is empty (404) and whose generation service is
    down (503). *)
Definition generation_down : World :=
  {| fetch r :=
       if bool_decide (url r = openai_url) then Response false 503 (Thrown [])
       else Response false 404 (Thrown []);
     elapsed r := 3 |}.

(** A world whose cache is empty (404) and whose generation service
    answers "G" with 42 tokens; the store is acknowledged. *)
Definition cache_empty : World :=
  {| fetch r :=
       if bool_decide (url r = openai_url) then
         Response true 200
           (Returned
              (JObj [(lit "choices",
                      JArr [JObj [(lit "message",
                                   JObj [(lit "content", JStr (lit "G"))])]]);
                     (lit "usage", JObj [(lit "total_tokens", JNum 42)])]))
       else if bool_decide (url r = lit "https://cache.example/v1/caches/c1/entries")
       then Response true 201 (Returned JNull)
       else Response false 404 (Thrown []);
     elapsed r := 9 |}.

Definition generation_G : Generation :=
  {| content := JStr (lit "G"); latency := 9; tokensUsed := JNum 42 |}.

End ChatRouteMoreSpec.

(** ** More vocabulary: cosine similarity *)

Module CosineMoreSpec.
Import Cosine.

(** The accumulators of the loop run on the two vectors exchanged. *)
Definition exchanged (s : Sums) : Sums :=
  {| dotProduct := dotProduct s; normA := normB s; normB := normA s |}.

End CosineMoreSpec.

(** ** More vocabulary: the order of binary64 numbers *)

Module FloatOrderMoreSpec.

(** A number's place in the order of the numbers that are not NaN: its
    class (negative infinity, negative, zero, positive, positive
    infinity), then its exponent and its mantissa, both counted downwards
    for a negative number. *)
Definition place (x : spec_float) : Z * Z * Z :=
  match x with
  | S754_nan => (0, 0, 0)
  | S754_zero _ => (0, 0, 0)
  | S754_infinity true => (-2, 0, 0)
  | S754_infinity false => (2, 0, 0)
  | S754_finite true m e => (-1, - e, - Z.pos m)
  | S754_finite false m e => (1, e, Z.pos m)
  end.

Definition lexle (p q : Z * Z * Z) : Prop :=
  let '(a1, b1, c1) := p in
  let '(a2, b2, c2) := q in
  a1 < a2 \/ (a1 = a2 /\ (b1 < b2 \/ (b1 = b2 /\ c1 <= c2))).

End FloatOrderMoreSpec.

(** ** More vocabulary: the vector search *)

Module SearchMoreSpec.
Import Cosine RedisVectorStore SearchSpec.
Local Open Scope float_scope.

(** The same store with other keys under "doc:*:chunk:*". *)
Definition with_keys (w : World) (documentKeys : list jsstring) : World :=
  {| ping := ping w; ping_error := ping_error w; keys := Some documentKeys;
     hgetall := hgetall w |}.

(** The result a key stands for: its hash must be read, and its embedding
    and its metadata must parse. *)
Definition candidate (w : World) (query : vector) (key : jsstring) : option SearchResult :=
  match hgetall w key with
  | Hash id documentId content (Some embedding) (Some parsed) =>
      Some {| id := id; documentId := documentId; content := content;
              score := RedisVectorStoreScore.cosineSimilarity query embedding;
              metadata := parsed |}
  | _ => None
  end.

(** A key no query can find. *)
Definition unreadable (w : World) (key : jsstring) : Prop :=
  forall query, candidate w query key = None.

(** [r] is the result of [key], at or above the threshold. *)
Definition matches (w : World) (query : vector) (threshold : float)
    (key : jsstring) (r : SearchResult) : Prop :=
  candidate w query key = Some r /\ (threshold <=? score r) = true.

(** What one turn of the loop adds: the candidate of the key, when it has
    one at or above the threshold. *)
Definition found (w : World) (query : vector) (threshold : float) (key : jsstring)
  : list SearchResult :=
  match candidate w query key with
  | Some r => if threshold <=? score r then [r] else []
  | None => []
  end.

(** [three_chunks] with one more key, whose HGETALL fails. *)
Definition damaged : World :=
  {| ping := true;
     ping_error := [];
     keys := Some [lit "doc:d:chunk:0"; lit "doc:d:chunk:bad"; lit "doc:d:chunk:1";
                   lit "doc:d:chunk:2"];
     hgetall key :=
       if bool_decide (key = lit "doc:d:chunk:bad") then CommandFails
       else hgetall three_chunks key |}.

(** The results [three_chunks] holds for the query [[1; 0]]. *)
Definition full_match : SearchResult :=
  {| id := lit "2"; documentId := lit "d"; content := lit "one";
     score := 1; metadata := JNull |}.

Definition half_match : SearchResult :=
  {| id := lit "1"; documentId := lit "d"; content := lit "half";
     score := RedisVectorStoreScore.cosineSimilarity [1; 0] [1; 1]; metadata := JNull |}.

(** The client [getRedisClient] builds: KEYS answers no key, so HGETALL,
    which would answer a hash with no embedding, is never asked. *)
Definition repository_client (embed : jsstring -> option vector) : RAGSearch.World :=
  {| RAGSearch.queryEmbedding := embed;
     RAGSearch.chunkKeys := [];
     RAGSearch.hgetall _ :=
       {| RAGSearch.stored_documentId := [];
          RAGSearch.stored_content := [];
          RAGSearch.stored_chunkIndex := 0%nat;
          RAGSearch.stored_embedding := None;
          RAGSearch.stored_metadata := Thrown (lit "SyntaxError") |} |}.

End SearchMoreSpec.

(** ** More vocabulary: the chunkers *)

Module ChunkerMoreSpec.
Import ChunkerSpec.

(** [`${documentId}_chunk_${chunkIndex}`] *)
Definition chunk_id (documentId : jsstring) (index : nat) : jsstring :=
  documentId ++ lit "_chunk_" ++ JsString.of_nat index.

(** A text that is not empty and has no white space at either end. *)
Definition trimmed (s : jsstring) : Prop := s <> [] /\ trim s = s.

Definition rag_shaped (documentId : jsstring) (c : RAGSystem.DocumentChunk) : Prop :=
  RAGSystem.documentId c = documentId
  /\ RAGSystem.id c = chunk_id documentId (RAGSystem.chunkIndex c)
  /\ trimmed (RAGSystem.content c)
  /\ RAGSystem.embedding c = [].

Definition route_shaped (documentId : jsstring) (c : ProcessRoute.DocumentChunk) : Prop :=
  ProcessRoute.documentId c = documentId
  /\ ProcessRoute.id c = chunk_id documentId (ProcessRoute.chunkIndex c)
  /\ trimmed (ProcessRoute.content c)
  /\ ProcessRoute.embedding c = ProcessRoute.NoEmbedding
  /\ ProcessRoute.error c = None.

(** The text being built is empty or has something to keep. *)
Definition open_text (s : jsstring) : Prop := s = [] \/ trim s <> [].

Definition rag_shaped_state (documentId : jsstring) (st : RAGSystem.Chunking) : Prop :=
  Forall (rag_shaped documentId) (RAGSystem.chunks st)
  /\ open_text (RAGSystem.currentChunk st).

Definition route_shaped_state (documentId : jsstring) (st : ProcessRoute.Chunking) : Prop :=
  Forall (route_shaped documentId) (ProcessRoute.chunks st)
  /\ open_text (ProcessRoute.currentChunk st).

(** The endpoint's loop never holds a sentence terminator. *)
Definition route_plain_state (st : ProcessRoute.Chunking) : Prop :=
  Forall (fun c => no_terminal (ProcessRoute.content c)) (ProcessRoute.chunks st)
  /\ no_terminal (ProcessRoute.currentChunk st).

End ChunkerMoreSpec.

(** ** More vocabulary: embedding and storing *)

Module IngestionMoreSpec.
Import RAGSystem Redis RAGIngestion StoreSpec ChunkerSpec.

(** A chunk as the chunker made it, with no embedding. *)
Definition bare (chunk : DocumentChunk) : DocumentChunk := with_embedding chunk [].

(** The chunks paired with the embeddings that came, as far as they go. *)
Definition paired (chunks : list DocumentChunk) (embeddings : list (list float))
  : list DocumentChunk :=
  map (fun p => with_embedding (fst p) (snd p)) (combine chunks embeddings).

(** Two embedding services that answer alike whenever they are asked for
    one to ten texts. *)
Definition agree_on_batches (s1 s2 : list jsstring -> BatchResult) : Prop :=
  forall texts,
    (1 <= List.length texts <= batchSize)%nat -> s1 texts = s2 texts.

(** A service that fails every call, and one that embeds the first text
    of a batch only. *)
Definition down (texts : list jsstring) : BatchResult := BatchFails.
Definition first_only (texts : list jsstring) : BatchResult := BatchData [[1%float]].

(** A service that embeds every text, and one that does so for at most
    ten. *)
Definition constant (texts : list jsstring) : BatchResult :=
  BatchData (map (fun _ => [1%float]) texts).
Definition constant_up_to_ten (texts : list jsstring) : BatchResult :=
  if (List.length texts <=? batchSize)%nat then constant texts else BatchFails.

Definition three_sentences : list DocumentChunk :=
  chunkDocument tiny (lit "A. B. C.") (lit "d").

(** A request whose fields are all there. *)
Definition complete (r : ProcessRequest) : Prop :=
  (present (req_url r) && present (req_openaiKey r) && present (req_redisUrl r)) = true.

(** The address under which Google Docs shows the document [docId]. *)
Definition google_url (docId rest : jsstring) : jsstring :=
  lit "https://docs.google.com/document/d/" ++ docId ++ rest.

(** [rest] cannot lengthen an id: it is empty or starts with a code unit
    that no id has. *)
Definition ends_id (rest : jsstring) : Prop :=
  match rest with
  | [] => True
  | c :: _ => is_id_unit c = false
  end.

End IngestionMoreSpec.

(** ** More vocabulary: the search of the RAG system *)

Module RAGSearchMoreSpec.
Import Cosine RAGSystem RAGSearch.

(** A store of one chunk whose embedding is no JSON. *)
Definition one_damaged_chunk : World :=
  {| queryEmbedding _ := Some [1%float];
     chunkKeys := [lit "chunk:d_chunk_0"];
     hgetall _ :=
       {| stored_documentId := lit "d";
          stored_content := lit "text";
          stored_chunkIndex := 0%nat;
          stored_embedding := Some (Thrown (lit "Unexpected token"));
          stored_metadata := Thrown (lit "Unexpected token") |} |}.

End RAGSearchMoreSpec.

(** ** More vocabulary: the client of the vector store *)

Module VectorStoreSpec.
Import VectorStoreClient.

(** A client that has not connected yet. *)
Definition fresh {S : Type} (sv : S) : Session S :=
  {| server := sv; connected := false; sent := [] |}.

(** The keys of the hashes written and the entries added to the index
    sets, in the order of the commands. *)
Definition records (commands : list Command) : list jsstring :=
  omap (fun c => match c with HSET key _ => Some key | _ => None end) commands.

Definition entries (commands : list Command) : list (jsstring * jsstring) :=
  omap (fun c => match c with SADD key member => Some (key, member) | _ => None end)
    commands.

Definition entry (chunk : VectorChunk) : jsstring * jsstring :=
  (chunk_set_key (documentId chunk), id chunk).

Definition no_colon (s : jsstring) : Prop :=
  forallb (fun c => negb (is_colon c)) s = true.

(** What a Redis server holds, as far as the client's commands go: hashes
    and sets by key. *)
Record Store : Type := {
  hashes : gmap jsstring (list (jsstring * Argument));
  sets : gmap jsstring (gset jsstring)
}.

Definition members (key : jsstring) (st : Store) : gset jsstring :=
  default ∅ (sets st !! key).

(** HSET sets the fields it names and keeps the others. *)
Definition overwrite (new old : list (jsstring * Argument)) : list (jsstring * Argument) :=
  new ++ List.filter (fun kv => negb (bool_decide (fst kv ∈ map fst new))) old.

(** What a command does to the store. *)
Definition effect (c : Command) (st : Store) : Store :=
  match c with
  | HSET key fields =>
      {| hashes := <[key := overwrite fields (default [] (hashes st !! key))]> (hashes st);
         sets := sets st |}
  | SADD key member =>
      {| hashes := hashes st;
         sets := <[key := {[member]} ∪ members key st]> (sets st) |}
  | DEL key =>
      {| hashes := delete key (hashes st); sets := delete key (sets st) |}
  | PING | SMEMBERS _ | KEYS _ => st
  end.

(** A server that answers every command and does what it says: [view] is
    the store it holds, and SMEMBERS answers the members of the set. *)
Definition ideal {S : Type} (exec : S -> Command -> Outcome (list jsstring) * S)
    (view : S -> Store) : Prop :=
  forall s c,
    match exec s c with
    | (Returned reply, s') =>
        view s' = effect c (view s)
        /\ match c with
           | SMEMBERS key => forall m, In m reply <-> m ∈ members key (view s)
           | _ => True
           end
    | (Thrown _, _) => False
    end.

(** A key pattern in which "*" stands for any run of code units. *)
Fixpoint glob (pattern : jsstring) : jsstring -> bool :=
  match pattern with
  | [] => fun s => match s with [] => true | _ => false end
  | p :: pattern' =>
      if (p =? 42)%N then
        fix star (s : jsstring) : bool :=
          glob pattern' s || match s with [] => false | _ :: s' => star s' end
      else
        fun s =>
          match s with
          | c :: s' => (p =? c)%N && glob pattern' s'
          | [] => false
          end
  end.

(** Such a server, in memory. *)
Definition memory (st : Store) (c : Command) : Outcome (list jsstring) * Store :=
  (Returned
     match c with
     | SMEMBERS key => elements (members key st)
     | KEYS pattern =>
         List.filter (glob pattern) (elements (dom (hashes st) ∪ dom (sets st)))
     | _ => []
     end,
   effect c st).

Definition no_clock (st : Store) : jsstring := lit "0".

Definition two_chunks : list VectorChunk :=
  [{| id := lit "c0"; documentId := lit "d"; content := lit "zero";
      embedding := [1%float]; metadata := JNull |};
   {| id := lit "c1"; documentId := lit "d"; content := lit "one";
      embedding := []; metadata := JNull |}].

End VectorStoreSpec.

(** ** More vocabulary: the chat route, await by await *)

Module ChatAsyncSpec.
Import ChatRoute ChatRouteSpec ChatRouteMoreSpec ChatRouteAsync.

(** The calls a run issued, in order. *)
Definition issued (trace : list Step) : list Event :=
  omap (fun s => match s with Issued call => Some call | _ => None end) trace.

(** A step that puts the cache search or the generation call in flight. *)
Definition dispatches (s : Step) : bool :=
  match s with
  | Issued (SearchCall _) | Issued (GenerationCall _) => true
  | _ => false
  end.

(** A step in which an [await] resumes. *)
Definition resumes (s : Step) : bool :=
  match s with
  | Answered _ | Read _ => true
  | Issued _ => false
  end.

(** What shadow mode puts in flight before it awaits anything: the cache
    search, when the cache is configured, and the generation call. *)
Definition dispatched (msg : jsstring) (c : Config) : list Step :=
  map Issued (searchCalls msg c) ++ [Issued (GenerationCall (generationRequest msg c))].

(** A promise whose function calls [fetch] no more. *)
Inductive Quiet {A : Type} : Promise A -> Prop :=
| quiet_settled (o : Outcome A) : Quiet (Settled o)
| quiet_body (call : Event) (body : Outcome JSON) (k : Outcome JSON -> Promise A) :
    (forall b, Quiet (k b)) -> Quiet (AwaitBody call body k).

(** A promise whose function calls [fetch] at most once, and has done so
    if it does. *)
Definition Once {A : Type} (t : Promise A) : Prop :=
  match t with
  | AwaitFetch _ k => forall r, Quiet (k r)
  | _ => Quiet t
  end.

(** A world whose cache answers later than its generation service does
    makes no difference to what follows; the schedule says who is heard
    first. *)
Definition generation_first : list bool := [false; false; true; true].
Definition search_first : list bool := [true; true; false; false].

End ChatAsyncSpec.

(** * Properties *)

(** ** The chat route *)

Module ChatRouteFacts.
Import ChatRoute ChatRouteSpec.

(** [Math.ceil(n / 4)] is the least integer [k] with [n <= 4 k]. *)
Lemma ceil_div4_spec (n : nat) :
  (n <= 4 * ceil_div4 n)%nat /\ (forall k : nat, n <= 4 * k -> ceil_div4 n <= k)%nat.
Proof.
  unfold ceil_div4. split.
  - pose proof (Nat.div_mod_eq (n + 3) 4) as E.
    pose proof (Nat.mod_upper_bound (n + 3) 4 ltac:(lia)). lia.
  - intros k Hk. enough ((n + 3) / 4 < S k)%nat by lia.
    apply Nat.Div0.div_lt_upper_bound. lia.
Qed.

(** The search as a function of the world: what [searchLangCache] resolves to. *)
Lemma searchLangCache_outcome (w : World) (query : jsstring) (c : Config) (t : list Event) :
  searchLangCache w query c t
  = (Returned (searchOutcome w query c),
     if configured c then t ++ [SearchCall (searchRequest query c)] else t).
Proof.
  unfold searchLangCache, searchOutcome, configured, try_catch, bind, emit, ret, throw, lift.
  destruct (missing (langcacheUrl c) || missing (cacheId c) || missing (serviceKey c));
    cbv beta iota delta [negb]; [reflexivity |].
  destruct (fetch w (searchRequest query c)) as [e | ok code json]; [reflexivity |].
  destruct ok; cbv beta iota delta [negb]; [| reflexivity].
  destruct json as [result | e]; [| reflexivity].
  destruct (opt_member _ _) as [response |]; [| reflexivity].
  destruct (truthy (Some response)); reflexivity.
Qed.

Lemma searchOutcome_hit (w : World) (query : jsstring) (c : Config) :
  hit (searchOutcome w query c) = true <->
  configured c = true /\
  exists code result response,
    fetch w (searchRequest query c) = Response true code (Returned result)
    /\ entry_response result = Some response
    /\ truthy (Some response) = true.
Proof.
  unfold searchOutcome, entry_response. split.
  - destruct (configured c); [| discriminate].
    destruct (fetch w (searchRequest query c)) as [e | [|] code [result | e]];
      try discriminate.
    destruct (opt_member (lit "response") _) as [response |] eqn:E; [| discriminate].
    destruct (truthy (Some response)) eqn:T; [| discriminate].
    intros _. split; [reflexivity |]. exists code, result, response. auto.
  - intros [-> (code & result & response & -> & -> & ->)]. reflexivity.
Qed.

(** The four ways the backend has no answer all end in a miss. *)
Lemma search_miss_unconfigured (w : World) (query : jsstring) (c : Config) (t : list Event) :
  configured c = false -> searchLangCache w query c t = (Returned Miss, t).
Proof.
  intros H. rewrite searchLangCache_outcome. unfold searchOutcome. now rewrite H.
Qed.

Lemma search_miss_no_connection (w : World) (query : jsstring) (c : Config)
    (t : list Event) (e : jsstring) :
  fetch w (searchRequest query c) = NetworkError e ->
  fst (searchLangCache w query c t) = Returned Miss.
Proof.
  intros H. rewrite searchLangCache_outcome. unfold searchOutcome. rewrite H.
  now destruct (configured c).
Qed.

Lemma search_miss_not_ok (w : World) (query : jsstring) (c : Config)
    (t : list Event) (code : Z) (json : Outcome JSON) :
  fetch w (searchRequest query c) = Response false code json ->
  fst (searchLangCache w query c t) = Returned Miss.
Proof.
  intros H. rewrite searchLangCache_outcome. unfold searchOutcome. rewrite H.
  now destruct (configured c).
Qed.

Lemma search_miss_no_entry (w : World) (query : jsstring) (c : Config)
    (t : list Event) (code : Z) (result : JSON) :
  fetch w (searchRequest query c) = Response true code (Returned result) ->
  truthy (entry_response result) = false ->
  fst (searchLangCache w query c t) = Returned Miss.
Proof.
  intros H E. rewrite searchLangCache_outcome. unfold searchOutcome, entry_response in *.
  rewrite H. destruct (configured c); [| reflexivity]. cbv zeta.
  destruct (opt_member (lit "response") _) as [response |]; [| reflexivity].
  now rewrite E.
Qed.

(** C3. The semantic-cache search never raises an error to its caller: for
    every world, query, configuration and trace it resolves to a result,
    and that result is a hit exactly when the configuration is complete,
    the backend answered with a success status and a parsable body, and
    that body holds a cached entry ([data[0].response] is there and
    truthy). Every other case (missing configuration fields, a connection
    failure, a non-success status, a body that is no JSON, no matching
    entry) is the miss [{ hit: false }]. *)
Theorem searchLangCache_fails_open
    (w : World) (query : jsstring) (c : Config) (t : list Event) :
  exists r t',
    searchLangCache w query c t = (Returned r, t')
    /\ (hit r = true <->
        configured c = true /\
        exists code result response,
          fetch w (searchRequest query c) = Response true code (Returned result)
          /\ entry_response result = Some response
          /\ truthy (Some response) = true)
    /\ (hit r = false <-> r = Miss).
Proof.
  eexists _, _. split; [apply searchLangCache_outcome |]. split.
  - apply searchOutcome_hit.
  - destruct (searchOutcome w query c); split; congruence || reflexivity || discriminate.
Qed.

Lemma callOpenAI_trace (w : World) (query : jsstring) (c : Config) (t : list Event) :
  callOpenAI w query c t
  = (fst (callOpenAI w query c []), t ++ [GenerationCall (generationRequest query c)]).
Proof.
  unfold callOpenAI, bind, emit, ret, throw, lift.
  destruct (fetch w (generationRequest query c)) as [e | ok code json]; [reflexivity |].
  destruct ok; cbv beta iota delta [negb]; [| reflexivity].
  destruct json as [data | e]; [| reflexivity].
  destruct data; try reflexivity;
    destruct (member (lit "choices") _) as [[] |]; reflexivity.
Qed.

Lemma storeInLangCache_never_throws
    (w : World) (query : jsstring) (response : JSON) (c : Config) (t : list Event) :
  exists stored t', storeInLangCache w query response c t = (Returned stored, t')
    /\ forallb (fun e => negb (is_generation e)) t' = forallb (fun e => negb (is_generation e)) t.
Proof.
  unfold storeInLangCache, try_catch, bind, emit, ret, throw, lift.
  destruct (missing (langcacheUrl c) || missing (cacheId c) || missing (serviceKey c));
    [eexists _, _; split; reflexivity |].
  destruct response; try (eexists _, _; split; reflexivity).
  destruct (fetch w (storeRequest query s c)); eexists _, _; (split; [reflexivity |]);
    rewrite forallb_app; cbn; now rewrite !andb_true_r.
Qed.

Lemma shadowResponse_fields (msg : jsstring) (cacheResult : CacheResult) (gen : Generation) :
  let r := shadowResponse msg cacheResult gen in
  status r = 200
  /\ field "content" r = Some (Some (content gen))
  /\ field "cached" r = Some (Some (JBool false))
  /\ field "cacheHit" r = Some (Some (JBool (hit cacheResult)))
  /\ field "similarity" r = Some (similarity cacheResult)
  /\ field "cachedQuery" r = Some (cachedQuery cacheResult)
  /\ field "tokensSaved" r
     = Some (Some (if hit cacheResult then tokensUsed gen else JNum 0))
  /\ without_cache_fields r = without_cache_fields (shadowResponse msg Miss gen).
Proof.
  destruct cacheResult; repeat split; vm_compute; reflexivity.
Qed.

(** C1. Shadow mode: whenever the generation call succeeds, the route
    answers 200 with the generation service's output as [content] and
    [cached = false]; the cache outcome is recorded in [cacheHit],
    [similarity] and [cachedQuery] only (every other field but
    [tokensSaved] is what it would be on a miss), and [tokensSaved] is the
    generation call's [tokensUsed] on a cache hit and 0 otherwise. *)
Theorem shadow_mode_serves_generation
    (w : World) (msg : jsstring) (c : Config) (t : list Event) (gen : Generation) :
  msg <> [] ->
  shadowMode c = true ->
  fst (callOpenAI w msg c []) = Returned gen ->
  exists cacheResult t',
    fst (searchLangCache w msg c t) = Returned cacheResult
    /\ POST w (Returned {| message := Some msg; config := Some c |}) t
       = (Returned (shadowResponse msg cacheResult gen), t')
    /\ let r := shadowResponse msg cacheResult gen in
       status r = 200
       /\ field "content" r = Some (Some (content gen))
       /\ field "cached" r = Some (Some (JBool false))
       /\ field "cacheHit" r = Some (Some (JBool (hit cacheResult)))
       /\ field "similarity" r = Some (similarity cacheResult)
       /\ field "cachedQuery" r = Some (cachedQuery cacheResult)
       /\ field "tokensSaved" r
          = Some (Some (if hit cacheResult then tokensUsed gen else JNum 0))
       /\ without_cache_fields r = without_cache_fields (shadowResponse msg Miss gen).
Proof.
  intros Hmsg Hshadow Hgen.
  exists (searchOutcome w msg c).
  assert (exists t', POST w (Returned {| message := Some msg; config := Some c |}) t
                     = (Returned (shadowResponse msg (searchOutcome w msg c) gen), t'))
    as [t' Hpost].
  { destruct msg as [| ch msg']; [congruence |].
    unfold POST, try_catch, bind, lift. cbv beta iota. cbn [message config].
    rewrite Hshadow, searchLangCache_outcome, callOpenAI_trace, Hgen. cbn [fst].
    set (t1 := _ ++ [GenerationCall _]).
    destruct (hit (searchOutcome w (ch :: msg') c)); cbv beta iota delta [negb].
    - eexists. reflexivity.
    - unfold detached, try_catch, bind.
      destruct (storeInLangCache_never_throws w (ch :: msg') (content gen) c t1)
        as (stored & t2 & -> & _).
      eexists. reflexivity. }
  exists t'. split; [now rewrite searchLangCache_outcome |]. split; [exact Hpost |].
  apply shadowResponse_fields.
Qed.

(** [Math.ceil] and the token estimate on values that are not text. *)
Example Math_ceil_values :
  map Math_ceil [0.25; 2.5; 3; -0.25; -2.5; 0; infinity; nan]%float
  = [1; 3; 3; -0; -2; 0; infinity; nan]%float.
Proof. vm_compute. reflexivity. Qed.

Example estimatedTokens_values :
  map estimatedTokens
    [JStr (lit "hello"); JArr [JNull; JNull]; JObj [(lit "length", JNum 10)];
     JObj [(lit "text", JStr (lit "hello"))]; JNum 8]
  = [2; 1; 3; nan; nan]%float.
Proof. vm_compute. reflexivity. Qed.

Lemma hitResponse_fields (msg response : jsstring) (sim cq : JSON) (ms : Z) :
  let r := hitResponse msg (JStr response) sim cq ms in
  status r = 200
  /\ field "content" r = Some (Some (JStr response))
  /\ field "cached" r = Some (Some (JBool true))
  /\ field "similarity" r = Some (Some sim)
  /\ field "cachedQuery" r = Some (Some cq)
  /\ field "tokensSaved" r
     = Some (Some (JNum (num_of_nat (ceil_div4 (List.length msg))
                         + num_of_nat (ceil_div4 (List.length response)))%float)).
Proof. repeat split. Qed.

(** C2. Normal mode: when the cache search hits with a cached response
    text, the route answers 200 with that text as [content],
    [cached = true], the match's similarity and cached prompt, and
    [tokensSaved] the sum of [ceil(len(query)/4)] and
    [ceil(len(response)/4)]; the only call issued is the cache search, so
    the generation service is not invoked. *)
Theorem normal_mode_hit_serves_cache
    (w : World) (msg : jsstring) (c : Config) (t : list Event)
    (response : jsstring) (sim cq : JSON) :
  msg <> [] ->
  shadowMode c = false ->
  fst (searchLangCache w msg c t) = Returned (Hit (JStr response) sim cq) ->
  let r := hitResponse msg (JStr response) sim cq (cacheLatency w msg c) in
  exists calls,
    POST w (Returned {| message := Some msg; config := Some c |}) t
    = (Returned r, t ++ calls)
    /\ calls = [SearchCall (searchRequest msg c)]
    /\ forallb (fun e => negb (is_generation e)) calls = true
    /\ status r = 200
    /\ field "content" r = Some (Some (JStr response))
    /\ field "cached" r = Some (Some (JBool true))
    /\ field "similarity" r = Some (Some sim)
    /\ field "cachedQuery" r = Some (Some cq)
    /\ field "tokensSaved" r
       = Some (Some (JNum (num_of_nat (ceil_div4 (List.length msg))
                           + num_of_nat (ceil_div4 (List.length response)))%float)).
Proof.
  intros Hmsg Hnormal Hsearch r.
  rewrite searchLangCache_outcome in Hsearch. cbn [fst] in Hsearch.
  injection Hsearch as Hsearch.
  assert (configured c = true) as Hconf.
  { apply (searchOutcome_hit w msg c). now rewrite Hsearch. }
  exists [SearchCall (searchRequest msg c)].
  split; [| split; [reflexivity | split; [reflexivity | apply hitResponse_fields]]].
  destruct msg as [| ch msg']; [congruence |].
  unfold POST, try_catch, bind, lift. cbv beta iota. cbn [message config].
  rewrite Hnormal, searchLangCache_outcome, Hsearch, Hconf. reflexivity.
Qed.

Lemma shadow_mode_serves_generation_witness :
  exists t',
    POST demo_world (Returned {| message := Some (lit "Q"); config := Some (demo_config true) |}) []
    = (Returned (shadowResponse (lit "Q") demo_hit demo_generation), t')
    /\ field "content" (shadowResponse (lit "Q") demo_hit demo_generation)
       = Some (Some (JStr (lit "G2")))
    /\ field "tokensSaved" (shadowResponse (lit "Q") demo_hit demo_generation)
       = Some (Some (JNum 10)).
Proof.
  destruct (shadow_mode_serves_generation demo_world (lit "Q") (demo_config true) []
              demo_generation)
    as (cacheResult & t' & Hsearch & Hpost & _).
  - discriminate.
  - reflexivity.
  - vm_compute. reflexivity.
  - vm_compute in Hsearch. injection Hsearch as <-.
    exists t'. split; [exact Hpost |]. split; vm_compute; reflexivity.
Defined.

Lemma normal_mode_hit_serves_cache_witness :
  exists calls,
    POST demo_world (Returned {| message := Some (lit "Q"); config := Some (demo_config false) |}) []
    = (Returned (hitResponse (lit "Q") (JStr (lit "R")) (JNum 0.9375) (JStr (lit "Q?")) 7),
       [] ++ calls)
    /\ forallb (fun e => negb (is_generation e)) calls = true
    /\ field "tokensSaved"
         (hitResponse (lit "Q") (JStr (lit "R")) (JNum 0.9375) (JStr (lit "Q?")) 7)
       = Some (Some (JNum 2)).
Proof.
  destruct (normal_mode_hit_serves_cache demo_world (lit "Q") (demo_config false) []
              (lit "R") (JNum 0.9375) (JStr (lit "Q?")))
    as (calls & Hpost & _ & Hgen & _).
  - discriminate.
  - reflexivity.
  - vm_compute. reflexivity.
  - exists calls. split; [exact Hpost |]. split; [exact Hgen |]. vm_compute. reflexivity.
Defined.

End ChatRouteFacts.

(** ** Cosine similarity *)

Module CosineFacts.
Import Cosine CosineSpec.
Local Open Scope float_scope.

(** A number is [=== 0] exactly when it is [+0] or [-0]. *)
Lemma eqb_zero (x : float) : (x =? 0) = true <-> is_zero x.
Proof.
  split.
  - rewrite eqb_spec. intros H.
    rewrite <- (SF2Prim_Prim2SF x).
    destruct (Prim2SF x) as [[] | [] | | [] m e]; try discriminate H.
    + now right.
    + now left.
  - intros [-> | ->]; reflexivity.
Qed.

Lemma accumulate_zero_a (a b : vector) (acc : Sums) :
  Forall is_zero a -> normA acc = 0 -> normA (accumulate a b acc) = 0.
Proof.
  intros Ha. revert b acc.
  induction Ha as [| x a Hx _ IH]; intros b acc Hacc; [exact Hacc |].
  destruct b as [| y b]; [exact Hacc |].
  cbn [accumulate]. apply IH. cbn [normA]. rewrite Hacc.
  destruct Hx as [-> | ->]; reflexivity.
Qed.

Lemma accumulate_zero_b (a b : vector) (acc : Sums) :
  Forall is_zero b -> normB acc = 0 -> normB (accumulate a b acc) = 0.
Proof.
  intros Hb. revert a acc.
  induction Hb as [| y b Hy _ IH]; intros a acc Hacc; [now destruct a |].
  destruct a as [| x a]; [exact Hacc |].
  cbn [accumulate]. apply IH. cbn [normB]. rewrite Hacc.
  destruct Hy as [-> | ->]; reflexivity.
Qed.

(** The scorer of the vector store returns 0 on a vector of zeros,
    whatever the other vector holds (infinities and NaN included). *)
Lemma redis_cosineSimilarity_zero_norm (a b : vector) :
  List.length a = List.length b ->
  Forall is_zero a \/ Forall is_zero b ->
  RedisVectorStoreScore.cosineSimilarity a b = 0.
Proof.
  intros Hlen Hzero. unfold RedisVectorStoreScore.cosineSimilarity.
  rewrite Hlen, Nat.eqb_refl. cbn [negb]. cbv zeta.
  destruct Hzero as [Ha | Hb].
  - rewrite (accumulate_zero_a a b no_sums Ha eq_refl). reflexivity.
  - rewrite (accumulate_zero_b a b no_sums Hb eq_refl).
    now rewrite orb_true_r.
Qed.

(** C5. [RAGSystem.cosineSimilarity] on the zero vector [[0]] and [[1]]
    (equal lengths, [a] has zero norm) divides 0 by 0: the result is NaN,
    not 0. [RedisVectorStore.cosineSimilarity] returns 0 on the same
    input. *)
Theorem rag_cosineSimilarity_zero_norm_is_nan :
  List.length [0] = List.length [1]
  /\ Forall is_zero [0]
  /\ PrimFloat.is_nan (RAGSystemScore.cosineSimilarity [0] [1]) = true
  /\ RAGSystemScore.cosineSimilarity [0] [1] <> 0
  /\ RedisVectorStoreScore.cosineSimilarity [0] [1] = 0.
Proof.
  split; [reflexivity |]. split; [repeat constructor |].
  split; [reflexivity |]. split; [| reflexivity].
  intros H. vm_compute in H. discriminate.
Qed.

(** C6. On vectors of different lengths both scorers return 0. They are
    total functions: no input makes them fail. *)
Theorem cosineSimilarity_length_mismatch (a b : vector) :
  List.length a <> List.length b ->
  RedisVectorStoreScore.cosineSimilarity a b = 0
  /\ RAGSystemScore.cosineSimilarity a b = 0.
Proof.
  intros H. apply Nat.eqb_neq in H.
  unfold RedisVectorStoreScore.cosineSimilarity, RAGSystemScore.cosineSimilarity.
  now rewrite H.
Qed.

Lemma cosineSimilarity_length_mismatch_witness :
  RedisVectorStoreScore.cosineSimilarity [1] [1; 2] = 0
  /\ RAGSystemScore.cosineSimilarity [1] [1; 2] = 0.
Proof.
  apply (cosineSimilarity_length_mismatch [1] [1; 2]). cbn. lia.
Defined.

End CosineFacts.

(** ** The chunkers *)

Module ChunkerFacts.
Import ChunkerSpec.

(** *** The chunkers on small documents *)

Example sentences_abc :
  RAGSystem.sentences (lit "A. B. C.") = [lit "A."; lit " B."; lit " C."].
Proof. reflexivity. Qed.

Example sentences_tail_dropped :
  RAGSystem.sentences (lit "..Hello.. World") = [lit "Hello.."].
Proof. reflexivity. Qed.

Example route_split :
  split is_terminal (lit "a.b...") = [lit "a"; lit "b"; []]
  /\ split is_terminal (lit "...") = [[]; []]
  /\ split is_terminal [] = [[]].
Proof. repeat split. Qed.

(** The scenario of the specification: "A. B. C." with a chunk size of one
    token gives several chunks whose tails overlap. *)
Example chunks_abc :
  map (fun c => (RAGSystem.content c, RAGSystem.chunkIndex c,
                  RAGSystem.startChar (RAGSystem.metadata c)))
      (RAGSystem.chunkDocument tiny (lit "A. B. C.") (lit "d"))
  = [(lit "A.", 0%nat, 0); (lit "A. B.", 1%nat, 3); (lit "B. C.", 2%nat, 6)].
Proof. vm_compute. reflexivity. Qed.

Lemma fold_left_invariant {S X : Type} (P : S -> Prop) (f : S -> X -> S) (xs : list X) :
  (forall st x, P st -> P (f st x)) -> forall st, P st -> P (fold_left f xs st).
Proof.
  intros Hstep. induction xs as [| x xs IH]; intros st Hst; cbn; auto.
Qed.

(** *** Chunks in the order they are pushed *)

Section Pushed.

Context {A : Type}.
Variable index : A -> nat.
Variable start : A -> Z.

Lemma pushed_nil : pushed index start [] 0 0.
Proof.
  split; [reflexivity |]. split; [| constructor].
  intros i j c1 c2 _ H. discriminate.
Qed.

Lemma pushed_push (l : list A) (n : nat) (s s' : Z) (c : A) :
  pushed index start l n s -> index c = n -> start c = s -> s <= s' ->
  pushed index start (l ++ [c]) (S n) s'.
Proof.
  intros (Hidx & Hord & Hbound) Hc Hs Hle.
  assert (List.length l = n) as Hlen.
  { rewrite <- (length_map index l), Hidx. apply length_seq. }
  split; [| split].
  - rewrite map_app, Hidx, seq_S. cbn. now rewrite Hc.
  - intros i j c1 c2 Hij H1 H2.
    destruct (decide (j < List.length l)%nat) as [Hj | Hj].
    + rewrite lookup_app_l in H1 by lia. rewrite lookup_app_l in H2 by lia. eauto.
    + rewrite lookup_app_r in H2 by lia.
      destruct (j - List.length l)%nat eqn:E; [| now destruct n0].
      cbn in H2. injection H2 as <-.
      destruct (decide (i < List.length l)%nat) as [Hi | Hi].
      * rewrite lookup_app_l in H1 by lia.
        rewrite Forall_forall in Hbound. rewrite Hs. apply Hbound.
        apply list_elem_of_In. eapply list_elem_of_lookup_2; eauto.
      * rewrite lookup_app_r in H1 by lia.
        replace (i - List.length l)%nat with 0%nat in H1 by lia.
        cbn in H1. injection H1 as <-. lia.
  - apply Forall_app. split.
    + eapply Forall_impl; [| exact Hbound]. cbn. intros; lia.
    + constructor; [lia | constructor].
Qed.

Lemma pushed_weaken (l : list A) (n : nat) (s s' : Z) :
  pushed index start l n s -> s <= s' -> pushed index start l n s'.
Proof.
  intros (Hidx & Hord & Hbound) Hle. repeat split; auto.
  eapply Forall_impl; [| exact Hbound]. cbn. intros; lia.
Qed.

Lemma pushed_index (l : list A) (n : nat) (s : Z) (i : nat) (c : A) :
  pushed index start l n s -> l !! i = Some c -> index c = i /\ (i < n)%nat /\ List.length l = n.
Proof.
  intros (Hidx & _ & _) Hi.
  assert (List.length l = n) as Hlen.
  { rewrite <- (length_map index l), Hidx. apply length_seq. }
  assert (i < n)%nat as Hlt by (rewrite <- Hlen; eapply lookup_lt_Some; eauto).
  split; [| auto].
  assert (map index l !! i = Some (index c)) as Hm by (rewrite list_lookup_fmap, Hi; reflexivity).
  rewrite Hidx in Hm. apply lookup_seq in Hm. lia.
Qed.

End Pushed.

Lemma rag_step_pushed (config : RAGSystem.RAGConfig) (documentId : jsstring)
    (st : RAGSystem.Chunking) (raw : jsstring) :
  rag_pushed st -> rag_pushed (RAGSystem.chunk_step config documentId st raw).
Proof.
  intros H. unfold RAGSystem.chunk_step.
  destruct (trim raw) as [| ch sentence]; [exact H |]. cbv zeta.
  destruct (exceeds _ _ && _); [| exact H].
  unfold rag_pushed. cbn [RAGSystem.chunks RAGSystem.nextIndex RAGSystem.nextStart].
  eapply pushed_push; [exact H | reflexivity | reflexivity |].
  rewrite !length_app. cbn. lia.
Qed.

Lemma route_step_pushed (documentId : jsstring)
    (st : ProcessRoute.Chunking) (sentence : jsstring) :
  route_pushed st -> route_pushed (ProcessRoute.chunk_step documentId st sentence).
Proof.
  intros H. unfold ProcessRoute.chunk_step.
  destruct (trim sentence) as [| ch trimmed]; [exact H |]. cbv zeta.
  destruct (exceeds _ _ && _); [| exact H].
  unfold route_pushed.
  cbn [ProcessRoute.chunks ProcessRoute.nextIndex ProcessRoute.nextStart].
  eapply pushed_push; [exact H | reflexivity | reflexivity |].
  rewrite !length_app. cbn. lia.
Qed.

Lemma rag_chunkDocument_pushed (config : RAGSystem.RAGConfig) (content documentId : jsstring) :
  exists s, pushed RAGSystem.chunkIndex rag_start
              (RAGSystem.chunkDocument config content documentId)
              (List.length (RAGSystem.chunkDocument config content documentId)) s.
Proof.
  unfold RAGSystem.chunkDocument.
  set (st := fold_left _ _ _).
  assert (rag_pushed st) as Hst.
  { apply fold_left_invariant; [intros; now apply rag_step_pushed | apply pushed_nil]. }
  assert (List.length (RAGSystem.chunks st) = RAGSystem.nextIndex st) as Hlen.
  { destruct Hst as (Hidx & _). rewrite <- (length_map RAGSystem.chunkIndex), Hidx.
    apply length_seq. }
  cbv zeta. destruct (trim (RAGSystem.currentChunk st)).
  - exists (RAGSystem.nextStart st). now rewrite Hlen.
  - exists (RAGSystem.nextStart st). rewrite length_app, Hlen, Nat.add_1_r.
    eapply pushed_push; [exact Hst | reflexivity | reflexivity | lia].
Qed.

Lemma route_chunkDocument_pushed (content documentId : jsstring) :
  exists s, pushed ProcessRoute.chunkIndex route_start
              (ProcessRoute.chunkDocument content documentId)
              (List.length (ProcessRoute.chunkDocument content documentId)) s.
Proof.
  unfold ProcessRoute.chunkDocument.
  set (st := fold_left _ _ _).
  assert (route_pushed st) as Hst.
  { apply fold_left_invariant; [intros; now apply route_step_pushed | apply pushed_nil]. }
  assert (List.length (ProcessRoute.chunks st) = ProcessRoute.nextIndex st) as Hlen.
  { destruct Hst as (Hidx & _). rewrite <- (length_map ProcessRoute.chunkIndex), Hidx.
    apply length_seq. }
  cbv zeta. destruct (trim (ProcessRoute.currentChunk st)).
  - exists (ProcessRoute.nextStart st). now rewrite Hlen.
  - exists (ProcessRoute.nextStart st). rewrite length_app, Hlen, Nat.add_1_r.
    eapply pushed_push; [exact Hst | reflexivity | reflexivity | lia].
Qed.

(** C8. For every text (and every configuration of the RAG chunker), the
    chunks of either chunker carry, in output order, the indices
    [0, 1, ..., n-1], and [metadata.startChar] never decreases from a
    chunk to the next. *)
Theorem chunk_indices_gapless_and_offsets_monotone
    (config : RAGSystem.RAGConfig) (content documentId : jsstring) :
  let rag := RAGSystem.chunkDocument config content documentId in
  let route := ProcessRoute.chunkDocument content documentId in
  map RAGSystem.chunkIndex rag = seq 0 (List.length rag)
  /\ (forall i c1 c2, rag !! i = Some c1 -> rag !! S i = Some c2 ->
      rag_start c1 <= rag_start c2)
  /\ map ProcessRoute.chunkIndex route = seq 0 (List.length route)
  /\ (forall i c1 c2, route !! i = Some c1 -> route !! S i = Some c2 ->
      route_start c1 <= route_start c2).
Proof.
  intros rag route.
  destruct (rag_chunkDocument_pushed config content documentId) as (s1 & I1 & O1 & _).
  destruct (route_chunkDocument_pushed content documentId) as (s2 & I2 & O2 & _).
  repeat split; auto.
  - intros i c1 c2. apply O1. lia.
  - intros i c1 c2. apply O2. lia.
Qed.

(** *** Trimming and joining *)

Lemma trimStart_nil (s : jsstring) :
  trimStart s = [] <-> forallb is_space s = true.
Proof.
  induction s as [| c s IH]; cbn; [tauto |].
  destruct (is_space c); cbn; [exact IH |]. split; discriminate.
Qed.

Lemma trimStart_head (s : jsstring) (c : N) (r : jsstring) :
  trimStart s = c :: r -> is_space c = false.
Proof.
  induction s as [| a s IH]; cbn; [discriminate |].
  destruct (is_space a) eqn:E; [exact IH |]. intros [= <- _]. exact E.
Qed.

Lemma forallb_rev {X} (f : X -> bool) (l : list X) : forallb f (rev l) = forallb f l.
Proof.
  induction l as [| x l IH]; [reflexivity |].
  cbn. rewrite forallb_app, IH. cbn. rewrite andb_true_r. apply andb_comm.
Qed.

Lemma trim_nil (s : jsstring) : trim s = [] <-> forallb is_space s = true.
Proof.
  unfold trim, trimEnd. split.
  - intros H. apply (f_equal (@rev N)) in H. rewrite rev_involutive in H. cbn in H.
    apply trimStart_nil in H. rewrite forallb_rev in H.
    destruct (trimStart s) as [| c r] eqn:E; [now apply trimStart_nil |].
    apply trimStart_head in E. cbn in H. rewrite E in H. discriminate.
  - intros H. apply trimStart_nil in H. rewrite H. reflexivity.
Qed.

(** A trimmed text that is not empty holds a code unit that is no space. *)
Lemma trim_not_blank (s : jsstring) :
  trim s <> [] -> forallb is_space (trim s) = false.
Proof.
  unfold trim, trimEnd. intros H.
  destruct (trimStart (rev (trimStart s))) as [| c r] eqn:E; [now destruct H |].
  apply trimStart_head in E. rewrite forallb_rev. cbn. now rewrite E.
Qed.

Lemma join_cons (sep p : jsstring) (ps : list jsstring) :
  ps <> [] -> join sep (p :: ps) = p ++ sep ++ join sep ps.
Proof. destruct ps; [congruence | reflexivity]. Qed.

Lemma join_snoc (sep : jsstring) (pre : list jsstring) (t : jsstring) :
  join sep (pre ++ [t])
  = join sep pre ++ (match pre with [] => [] | _ => sep end) ++ t.
Proof.
  induction pre as [| p pre IH]; [reflexivity |].
  destruct pre as [| q pre]; [reflexivity |].
  change ((p :: q :: pre) ++ [t]) with (p :: ((q :: pre) ++ [t])).
  rewrite join_cons by discriminate. rewrite IH.
  rewrite (join_cons sep p (q :: pre)) by discriminate.
  now rewrite <- !app_assoc.
Qed.

Lemma join_prefix_length (sep : jsstring) (a b : list jsstring) :
  (List.length (join sep a) <= List.length (join sep (a ++ b)))%nat.
Proof.
  induction a as [| x a IH]; [cbn; lia |].
  destruct a as [| y a].
  - destruct b; cbn; [lia |]. rewrite !length_app. lia.
  - change ((x :: y :: a) ++ b) with (x :: ((y :: a) ++ b)).
    rewrite (join_cons sep x (y :: a)), (join_cons sep x ((y :: a) ++ b)) by discriminate.
    rewrite !length_app. lia.
Qed.

Lemma join_nil_head (sep p : jsstring) (ps : list jsstring) :
  p <> [] -> join sep (p :: ps) <> [].
Proof.
  intros Hp H. destruct ps; [now cbn in H |].
  rewrite join_cons in H by discriminate. apply app_eq_nil in H. tauto.
Qed.

Lemma kept_not_blank (sentences : list jsstring) :
  Forall (fun t => forallb is_space t = false) (kept sentences).
Proof.
  induction sentences as [| s rest IH]; cbn; [constructor |].
  destruct (trim s) as [| c r] eqn:E; [exact IH |].
  constructor; [| exact IH]. rewrite <- E. apply trim_not_blank. congruence.
Qed.

Lemma joined_not_blank (sentences : list jsstring) :
  kept sentences <> [] -> trim (joined sentences) <> [].
Proof.
  intros Hk Ht. apply trim_nil in Ht. unfold joined in Ht.
  pose proof (kept_not_blank sentences) as Hf.
  destruct (kept sentences) as [| t ts]; [congruence |].
  inversion Hf as [| ? ? Hhead _]; subst.
  destruct ts as [| u ts]; cbn in Ht; [congruence |].
  rewrite forallb_app in Ht. rewrite Hhead in Ht. discriminate.
Qed.

Lemma kept_not_empty (sentences : list jsstring) :
  Forall (fun t => t <> []) (kept sentences).
Proof.
  eapply Forall_impl; [| apply kept_not_blank]. cbn. intros t H ->. discriminate.
Qed.

Lemma separator_of_join (pre : list jsstring) :
  Forall (fun t => t <> []) pre ->
  match join space pre with [] => [] | _ => space end
  = match pre with [] => [] | _ => space end.
Proof.
  intros H. destruct pre as [| p ps]; [reflexivity |].
  inversion H as [| ? ? Hp _]; subst.
  pose proof (join_nil_head space p ps Hp). now destruct (join space (p :: ps)).
Qed.

(** *** A document that fits one chunk *)

Lemma rag_fold_joined (config : RAGSystem.RAGConfig) (documentId : jsstring)
    (sentences pre : list jsstring) :
  Forall (fun t => t <> []) pre ->
  Z.of_nat (List.length (join space (pre ++ kept sentences)))
    <= 4 * RAGSystem.chunkSize config ->
  fold_left (RAGSystem.chunk_step config documentId) sentences (rag_state (join space pre))
  = rag_state (join space (pre ++ kept sentences)).
Proof.
  revert pre. induction sentences as [| s rest IH]; intros pre Hpre Hfit.
  - cbn. now rewrite app_nil_r.
  - cbn [fold_left kept] in *. unfold RAGSystem.chunk_step at 2.
    destruct (trim s) as [| c t] eqn:E; [now apply IH |].
    cbv zeta. cbn [RAGSystem.currentChunk rag_state].
    rewrite (separator_of_join pre Hpre), <- join_snoc.
    assert (exceeds (join space (pre ++ [c :: t])) (RAGSystem.chunkSize config)
            = false) as ->.
    { unfold exceeds. apply Z.ltb_ge.
      pose proof (join_prefix_length space (pre ++ [c :: t]) (kept rest)) as Hle.
      rewrite <- app_assoc in Hle. cbn [app] in Hle. lia. }
    cbn [andb].
    replace (pre ++ (c :: t) :: kept rest) with ((pre ++ [c :: t]) ++ kept rest)
      by now rewrite <- app_assoc.
    apply IH.
    + apply Forall_app. split; [exact Hpre |]. constructor; [discriminate | constructor].
    + now rewrite <- app_assoc.
Qed.

Lemma route_fold_joined (documentId : jsstring) (sentences pre : list jsstring) :
  Forall (fun t => t <> []) pre ->
  Z.of_nat (List.length (join space (pre ++ kept sentences)))
    <= 4 * ProcessRoute.maxChunkSize ->
  fold_left (ProcessRoute.chunk_step documentId) sentences (route_state (join space pre))
  = route_state (join space (pre ++ kept sentences)).
Proof.
  revert pre. induction sentences as [| s rest IH]; intros pre Hpre Hfit.
  - cbn. now rewrite app_nil_r.
  - cbn [fold_left kept] in *. unfold ProcessRoute.chunk_step at 2.
    destruct (trim s) as [| c t] eqn:E; [now apply IH |].
    cbv zeta. cbn [ProcessRoute.currentChunk route_state].
    assert (exceeds (join space pre ++ c :: t) ProcessRoute.maxChunkSize
            = false) as ->.
    { unfold exceeds. apply Z.ltb_ge.
      pose proof (join_prefix_length space (pre ++ [c :: t]) (kept rest)) as Hle.
      rewrite <- app_assoc in Hle. cbn [app] in Hle.
      rewrite join_snoc, !length_app in Hle. rewrite length_app. lia. }
    cbn [andb].
    rewrite (separator_of_join pre Hpre), <- join_snoc.
    replace (pre ++ (c :: t) :: kept rest) with ((pre ++ [c :: t]) ++ kept rest)
      by now rewrite <- app_assoc.
    apply IH.
    + apply Forall_app. split; [exact Hpre |]. constructor; [discriminate | constructor].
    + now rewrite <- app_assoc.
Qed.

Lemma rag_one_chunk (config : RAGSystem.RAGConfig) (content documentId : jsstring) :
  kept (RAGSystem.sentences content) <> [] ->
  Z.of_nat (List.length (joined (RAGSystem.sentences content)))
    <= 4 * RAGSystem.chunkSize config ->
  RAGSystem.chunkDocument config content documentId
  = [RAGSystem.make_chunk documentId (rag_state (joined (RAGSystem.sentences content)))].
Proof.
  intros Hk Hfit. unfold RAGSystem.chunkDocument.
  pose proof (rag_fold_joined config documentId (RAGSystem.sentences content) []
                (Forall_nil _) Hfit) as Hfold.
  cbn [join app] in Hfold. fold (rag_state []). rewrite Hfold. cbv zeta.
  cbn [RAGSystem.currentChunk RAGSystem.chunks rag_state].
  pose proof (joined_not_blank _ Hk) as Hnb. unfold joined in Hnb.
  destruct (trim (join space (kept (RAGSystem.sentences content)))); [congruence |].
  reflexivity.
Qed.

Lemma route_one_chunk (content documentId : jsstring) :
  kept (ProcessRoute.sentences content) <> [] ->
  Z.of_nat (List.length (joined (ProcessRoute.sentences content)))
    <= 4 * ProcessRoute.maxChunkSize ->
  ProcessRoute.chunkDocument content documentId
  = [ProcessRoute.make_chunk documentId
       (route_state (joined (ProcessRoute.sentences content)))].
Proof.
  intros Hk Hfit. unfold ProcessRoute.chunkDocument.
  pose proof (route_fold_joined documentId (ProcessRoute.sentences content) []
                (Forall_nil _) Hfit) as Hfold.
  cbn [join app] in Hfold. fold (route_state []). rewrite Hfold. cbv zeta.
  cbn [ProcessRoute.currentChunk ProcessRoute.chunks route_state].
  pose proof (joined_not_blank _ Hk) as Hnb. unfold joined in Hnb.
  destruct (trim (join space (kept (ProcessRoute.sentences content)))); [congruence |].
  reflexivity.
Qed.

(** *** A text without sentence-terminal punctuation *)

Lemma sentence_scan_no_terminal (s body : jsstring) :
  no_terminal s -> sentence_scan s body [] = [].
Proof.
  unfold no_terminal. revert body.
  induction s as [| c s IH]; intros body H; [reflexivity |].
  cbn in *. apply andb_prop in H as [Hc Hs].
  destruct (is_terminal c); [discriminate |]. now apply IH.
Qed.

Lemma split_scan_no_terminal (s piece : jsstring) :
  no_terminal s -> split_scan is_terminal s piece false = [piece ++ s].
Proof.
  unfold no_terminal. revert piece.
  induction s as [| c s IH]; intros piece H; [cbn; now rewrite app_nil_r |].
  cbn in *. apply andb_prop in H as [Hc Hs].
  destruct (is_terminal c); [discriminate |].
  rewrite IH by assumption. now rewrite <- app_assoc.
Qed.

Lemma rag_sentences_no_terminal (content : jsstring) :
  no_terminal content -> RAGSystem.sentences content = [content].
Proof.
  intros H. unfold RAGSystem.sentences, match_sentences.
  now rewrite sentence_scan_no_terminal.
Qed.

Lemma split_no_terminal (content : jsstring) :
  no_terminal content -> split is_terminal content = [content].
Proof. intros H. unfold split. now rewrite split_scan_no_terminal. Qed.

Lemma trim_trim_not_nil (s : jsstring) : trim s <> [] -> trim (trim s) <> [].
Proof.
  intros H E. apply trim_nil in E. rewrite trim_not_blank in E by assumption.
  discriminate.
Qed.

Lemma rag_single_sentence (config : RAGSystem.RAGConfig) (content documentId : jsstring) :
  trim content <> [] ->
  fold_left (RAGSystem.chunk_step config documentId) [content] (rag_state [])
  = rag_state (trim content).
Proof.
  intros H. cbn [fold_left]. unfold RAGSystem.chunk_step.
  destruct (trim content) as [| c t]; [congruence |].
  cbv zeta. cbn [RAGSystem.currentChunk rag_state List.length Nat.ltb Nat.leb].
  now rewrite andb_false_r.
Qed.

Lemma rag_no_terminal_one_chunk
    (config : RAGSystem.RAGConfig) (content documentId : jsstring) :
  no_terminal content -> trim content <> [] ->
  RAGSystem.chunkDocument config content documentId
  = [RAGSystem.make_chunk documentId (rag_state (trim content))].
Proof.
  intros Hn Hb. unfold RAGSystem.chunkDocument.
  rewrite rag_sentences_no_terminal by assumption.
  fold (rag_state []). rewrite rag_single_sentence by assumption. cbv zeta.
  cbn [RAGSystem.currentChunk RAGSystem.chunks rag_state].
  pose proof (trim_trim_not_nil content Hb).
  now destruct (trim (trim content)).
Qed.

Lemma route_no_terminal_one_chunk (content documentId : jsstring) :
  no_terminal content -> trim content <> [] ->
  ProcessRoute.chunkDocument content documentId
  = [ProcessRoute.make_chunk documentId (route_state (trim content))].
Proof.
  intros Hn Hb. unfold ProcessRoute.chunkDocument, ProcessRoute.sentences.
  rewrite split_no_terminal by assumption.
  cbn [List.filter]. unfold ProcessRoute.is_blank.
  destruct (trim content) as [| c t] eqn:E; [congruence |]. cbn [negb fold_left].
  unfold ProcessRoute.chunk_step. rewrite E. cbv zeta.
  cbn [ProcessRoute.currentChunk List.length Nat.ltb Nat.leb].
  rewrite andb_false_r. cbn [ProcessRoute.currentChunk ProcessRoute.chunks app].
  rewrite <- E in *. pose proof (trim_trim_not_nil content Hb).
  now destruct (trim (trim content)).
Qed.

(** *** The endpoint's sentences never outgrow the document *)

Lemma length_trimStart (s : jsstring) : (List.length (trimStart s) <= List.length s)%nat.
Proof.
  induction s as [| c s IH]; cbn; [lia |]. destruct (is_space c); cbn; lia.
Qed.

Lemma length_trim (s : jsstring) : (List.length (trim s) <= List.length s)%nat.
Proof.
  unfold trim, trimEnd. rewrite length_rev.
  etransitivity; [apply length_trimStart |]. rewrite length_rev. apply length_trimStart.
Qed.

Lemma length_join_cons (p : jsstring) (ps : list jsstring) :
  List.length (join space (p :: ps))
  = (List.length p
     + match ps with [] => 0 | _ => 1 + List.length (join space ps) end)%nat.
Proof.
  destruct ps; [cbn; lia |]. rewrite join_cons by discriminate.
  rewrite !length_app. reflexivity.
Qed.

Lemma length_join_kept (l : list jsstring) :
  (List.length (join space (kept l)) <= List.length (join space l))%nat.
Proof.
  induction l as [| s rest IH]; [cbn; lia |].
  cbn [kept]. pose proof (length_trim s) as Hs.
  rewrite (length_join_cons s rest).
  destruct (trim s) as [| c t] eqn:E.
  - destruct rest; [cbn in *; lia | lia].
  - rewrite length_join_cons.
    destruct (kept rest) eqn:K; [lia |].
    destruct rest; [discriminate |]. lia.
Qed.

Lemma kept_filter (l : list jsstring) :
  kept (List.filter (fun s => negb (ProcessRoute.is_blank s)) l) = kept l.
Proof.
  induction l as [| s rest IH]; [reflexivity |].
  cbn [List.filter kept]. unfold ProcessRoute.is_blank at 1.
  destruct (trim s) eqn:E; cbn [negb]; [exact IH |].
  cbn [kept]. now rewrite E, IH.
Qed.

Lemma length_split_scan (sep : N -> bool) (s piece : jsstring) (b : bool) :
  (List.length (join space (split_scan sep s piece b))
   <= List.length piece + List.length s)%nat.
Proof.
  revert piece b. induction s as [| c s IH]; intros piece b; [cbn; lia |].
  cbn [split_scan]. destruct (sep c).
  - destruct b.
    + specialize (IH [] true). cbn in *. lia.
    + rewrite length_join_cons. specialize (IH [] true).
      destruct (split_scan sep s [] true); cbn in *; lia.
  - specialize (IH (piece ++ [c]) false). rewrite length_app in IH. cbn in *. lia.
Qed.

Lemma route_joined_length (content : jsstring) :
  (List.length (joined (ProcessRoute.sentences content)) <= List.length content)%nat.
Proof.
  unfold joined, ProcessRoute.sentences. rewrite kept_filter.
  etransitivity; [apply length_join_kept |].
  apply (length_split_scan is_terminal content [] false).
Qed.

(** C7, as the code has it. A text without sentence-terminal punctuation
    is one sentence for both chunkers, and when it is not blank it gives
    exactly one chunk whatever its size. A document with a sentence that
    is not blank, whose sentences trimmed and joined by single spaces have
    an estimated token count (length/4) within the chunk size, gives
    exactly one chunk; for the chunker of the processing endpoint the
    document's own length/4 within its 800 tokens is enough. *)
Theorem one_sentence_and_one_chunk
    (config : RAGSystem.RAGConfig) (content documentId : jsstring) :
  (no_terminal content ->
     RAGSystem.sentences content = [content]
     /\ split is_terminal content = [content]
     /\ (trim content <> [] ->
         List.length (RAGSystem.chunkDocument config content documentId) = 1%nat
         /\ List.length (ProcessRoute.chunkDocument content documentId) = 1%nat))
  /\ (kept (RAGSystem.sentences content) <> [] ->
      Z.of_nat (List.length (joined (RAGSystem.sentences content)))
        <= 4 * RAGSystem.chunkSize config ->
      List.length (RAGSystem.chunkDocument config content documentId) = 1%nat)
  /\ (kept (ProcessRoute.sentences content) <> [] ->
      Z.of_nat (List.length content) <= 4 * ProcessRoute.maxChunkSize ->
      List.length (ProcessRoute.chunkDocument content documentId) = 1%nat).
Proof.
  split; [| split].
  - intros Hn. split; [now apply rag_sentences_no_terminal |].
    split; [now apply split_no_terminal |]. intros Hb.
    rewrite rag_no_terminal_one_chunk, route_no_terminal_one_chunk by assumption.
    split; reflexivity.
  - intros Hk Hfit. now rewrite rag_one_chunk.
  - intros Hk Hfit. rewrite route_one_chunk; [reflexivity | assumption |].
    pose proof (route_joined_length content). lia.
Qed.

Lemma one_sentence_and_one_chunk_witness :
  List.length (RAGSystem.chunkDocument standard
                 (lit "Hello world. Bye.") (lit "d")) = 1%nat
  /\ List.length (ProcessRoute.chunkDocument (lit "Hello world. Bye.") (lit "d")) = 1%nat
  /\ RAGSystem.sentences (lit "no stop here") = [lit "no stop here"].
Proof.
  destruct (one_sentence_and_one_chunk standard
              (lit "Hello world. Bye.") (lit "d")) as (_ & Hrag & Hroute).
  destruct (one_sentence_and_one_chunk standard
              (lit "no stop here") (lit "d")) as (Hone & _ & _).
  split; [| split].
  - apply Hrag; [vm_compute; discriminate | vm_compute; discriminate].
  - apply Hroute; [vm_compute; discriminate | vm_compute; discriminate].
  - apply Hone. reflexivity.
Defined.

(** What the two chunkers do on the documents the claim gets wrong. *)
Example empty_document_no_chunk :
  RAGSystem.chunkDocument standard [] (lit "d") = []
  /\ ProcessRoute.chunkDocument (lit "...") (lit "d") = [].
Proof. split; reflexivity. Qed.

Example adjacent_sentences_two_chunks :
  map RAGSystem.content
    (RAGSystem.chunkDocument tiny (lit "A.B.") (lit "d"))
  = [lit "A."; lit "A. B."].
Proof. vm_compute. reflexivity. Qed.

(** C7, as the claim states it, fails: "exactly one chunk for every
    document whose length/4 is within the chunk size" is false of the
    empty document (no chunk) and of "A.B." at a chunk size of one token
    (two chunks: the joined sentences "A. B." are longer than the
    document), and false of "..." for the endpoint's chunker. *)
Lemma one_chunk_counterexample :
  ~ (forall (config : RAGSystem.RAGConfig) (content documentId : jsstring),
       Z.of_nat (List.length content) <= 4 * RAGSystem.chunkSize config ->
       List.length (RAGSystem.chunkDocument config content documentId) = 1%nat)
  /\ (Z.of_nat (List.length (lit "A.B.")) <= 4 * RAGSystem.chunkSize tiny
      /\ List.length (RAGSystem.chunkDocument tiny (lit "A.B.") (lit "d"))
         = 2%nat)
  /\ ~ (forall content documentId : jsstring,
          Z.of_nat (List.length content) <= 4 * ProcessRoute.maxChunkSize ->
          List.length (ProcessRoute.chunkDocument content documentId) = 1%nat).
Proof.
  split; [| split; [split |]].
  - intros H. specialize (H standard [] (lit "d")).
    cbn in H. discriminate H. lia.
  - vm_compute. discriminate.
  - vm_compute. reflexivity.
  - intros H. specialize (H (lit "...") (lit "d")).
    vm_compute in H. discriminate H. discriminate.
Qed.

End ChunkerFacts.

(** ** Storing a document *)

Module StoreFacts.
Import RAGSystem Redis RAGIngestion StoreSpec.

Lemma store_chunks_filter (d : RAGDocument) (chunks : list DocumentChunk) :
  flat_map (store_chunk d) chunks
  = flat_map (persist d) (List.filter has_embedding chunks).
Proof.
  induction chunks as [| c chunks IH]; [reflexivity |].
  cbn [flat_map List.filter]. unfold store_chunk at 1.
  destruct (has_embedding c); cbn [flat_map app]; now rewrite IH.
Qed.

Lemma storeDocument_calls (d : RAGDocument) :
  storeDocument d
  = HSET (document_key d) (document_record d)
    :: flat_map (persist d) (List.filter has_embedding (doc_chunks d)).
Proof. unfold storeDocument. now rewrite store_chunks_filter. Qed.

Lemma run_app (a b : list Command) (s : Store) : run (a ++ b) s = run b (run a s).
Proof. apply fold_left_app. Qed.

Lemma members_persist (d : RAGDocument) (stored : list DocumentChunk) (s : Store) :
  members (chunk_set_key d) (run (flat_map (persist d) stored) s)
  = list_to_set (map id stored) ∪ members (chunk_set_key d) s.
Proof.
  revert s. induction stored as [| c stored IH]; intros s.
  - cbn. set_solver.
  - cbn [flat_map persist app]. change (run (?x :: ?y :: ?l) s) with (run l (execute (execute s x) y)).
    rewrite IH. unfold members. cbn [execute sets].
    rewrite lookup_insert_eq. cbn [default map list_to_set]. set_solver.
Qed.

Lemma hashes_persist_other (d : RAGDocument) (stored : list DocumentChunk) (s : Store)
    (key : jsstring) :
  (forall c, In c stored -> chunk_key c <> key) ->
  hashes (run (flat_map (persist d) stored) s) !! key = hashes s !! key.
Proof.
  revert s. induction stored as [| c stored IH]; intros s Hkey; [reflexivity |].
  cbn [flat_map persist app]. change (run (?x :: ?y :: ?l) s) with (run l (execute (execute s x) y)).
  rewrite IH by (intros; apply Hkey; now right).
  cbn [execute hashes]. apply lookup_insert_ne. apply Hkey. now left.
Qed.

Lemma execute_keeps (s : Store) (c : Command) (key : jsstring) :
  is_Some (hashes s !! key) -> is_Some (hashes (execute s c) !! key).
Proof.
  intros H. destruct c as [k fields | k m]; cbn [execute hashes]; [| exact H].
  destruct (decide (k = key)) as [-> | Hne].
  - rewrite lookup_insert_eq. eauto.
  - now rewrite lookup_insert_ne.
Qed.

Lemma run_keeps (commands : list Command) (s : Store) (key : jsstring) :
  is_Some (hashes s !! key) -> is_Some (hashes (run commands s) !! key).
Proof.
  revert s. induction commands as [| c commands IH]; intros s H; [exact H |].
  cbn. apply IH. now apply execute_keeps.
Qed.

Lemma hashes_persist_stored (d : RAGDocument) (stored : list DocumentChunk) (s : Store)
    (c : DocumentChunk) :
  In c stored -> is_Some (hashes (run (flat_map (persist d) stored) s) !! chunk_key c).
Proof.
  revert s. induction stored as [| c' stored IH]; intros s Hin; [destruct Hin |].
  cbn [flat_map persist app]. change (run (?x :: ?y :: ?l) s) with (run l (execute (execute s x) y)).
  destruct Hin as [-> | Hin]; [| now apply IH].
  apply run_keeps. cbn [execute hashes]. rewrite lookup_insert_eq. eauto.
Qed.

Lemma document_key_not_chunk_key (d : RAGDocument) (c : DocumentChunk) :
  chunk_key c <> document_key d.
Proof. unfold chunk_key, document_key. vm_compute. discriminate. Qed.

(** *** The counts the two processing routes report *)

Lemma length_attach (batch : list DocumentChunk) (vs : list (list float)) :
  (if snd (attach batch vs)
   then List.length (fst (attach batch vs)) = List.length batch
   else True).
Proof.
  revert vs. induction batch as [| c batch IH]; intros vs; [reflexivity |].
  destruct vs as [| v vs]; [exact I |].
  cbn [attach]. specialize (IH vs). destruct (attach batch vs) as [pushed complete].
  cbn in *. destruct complete; [now f_equal | exact I].
Qed.

Lemma length_embed_batch (answer : BatchResult) (batch : list DocumentChunk) :
  (List.length batch <= List.length (embed_batch answer batch))%nat.
Proof.
  unfold embed_batch. destruct answer as [| vs]; [now rewrite length_map |].
  pose proof (length_attach batch vs) as H.
  destruct (attach batch vs) as [pushed complete]. cbn in H.
  destruct complete; [lia |]. rewrite length_app, length_map. lia.
Qed.

Lemma length_embed_batches (service : list jsstring -> BatchResult) (turns : nat)
    (chunks : list DocumentChunk) :
  (List.length chunks <= turns)%nat ->
  (List.length chunks <= List.length (embed_batches service turns chunks))%nat.
Proof.
  revert chunks. induction turns as [| turns IH]; intros chunks Hle.
  - destruct chunks; cbn in *; lia.
  - destruct chunks as [| c chunks]; [cbn; lia |].
    cbn [embed_batches]. rewrite length_app.
    pose proof (length_embed_batch
                  (service (map content (firstn batchSize (c :: chunks))))
                  (firstn batchSize (c :: chunks))) as Hb.
    assert (List.length (skipn batchSize (c :: chunks)) <= turns)%nat as Hs.
    { rewrite length_skipn. cbn in *. unfold batchSize. lia. }
    specialize (IH _ Hs).
    rewrite <- (firstn_skipn batchSize (c :: chunks)) at 1. rewrite length_app. lia.
Qed.

(** The chunks [generateEmbeddings] returns are never fewer than those it
    was given. *)
Lemma length_generateEmbeddings (service : list jsstring -> BatchResult)
    (chunks : list DocumentChunk) :
  (List.length chunks <= List.length (generateEmbeddings service chunks))%nat.
Proof. apply length_embed_batches. lia. Qed.

Lemma attach_in_full (batch : list DocumentChunk) (vs : list (list float)) :
  (List.length batch <= List.length vs)%nat ->
  snd (attach batch vs) = true
  /\ List.length (fst (attach batch vs)) = List.length batch.
Proof.
  revert vs. induction batch as [| c batch IH]; intros vs H; [split; reflexivity |].
  destruct vs as [| v vs]; [cbn in H; lia |].
  cbn [attach]. destruct (IH vs) as [Hc Hl]; [cbn in H; lia |].
  destruct (attach batch vs) as [pushed complete]. cbn in *. split; [exact Hc | now f_equal].
Qed.

Lemma length_embed_batch_in_full (service : list jsstring -> BatchResult)
    (batch : list DocumentChunk) :
  answers_in_full service ->
  List.length (embed_batch (service (map content batch)) batch) = List.length batch.
Proof.
  intros H. specialize (H (map content batch)). unfold embed_batch.
  destruct (service (map content batch)) as [| vs]; [now rewrite length_map |].
  rewrite length_map in H. destruct (attach_in_full batch vs H) as [Hc Hl].
  destruct (attach batch vs) as [pushed complete]. cbn in *. now rewrite Hc.
Qed.

Lemma length_embed_batches_in_full (service : list jsstring -> BatchResult) (turns : nat)
    (chunks : list DocumentChunk) :
  answers_in_full service ->
  (List.length chunks <= turns)%nat ->
  List.length (embed_batches service turns chunks) = List.length chunks.
Proof.
  intros Hfull. revert chunks. induction turns as [| turns IH]; intros chunks Hle.
  - destruct chunks; cbn in *; [reflexivity | lia].
  - destruct chunks as [| c chunks]; [reflexivity |].
    cbn [embed_batches]. rewrite length_app, length_embed_batch_in_full by assumption.
    rewrite IH by (rewrite length_skipn; cbn in *; unfold batchSize; lia).
    rewrite <- (firstn_skipn batchSize (c :: chunks)) at 3. now rewrite length_app.
Qed.

(** With such a service [generateEmbeddings] returns as many chunks as it
    was given. *)
Lemma length_generateEmbeddings_in_full (service : list jsstring -> BatchResult)
    (chunks : list DocumentChunk) :
  answers_in_full service ->
  List.length (generateEmbeddings service chunks) = List.length chunks.
Proof. intros H. apply length_embed_batches_in_full; [exact H | lia]. Qed.

Lemma length_filter_le {X} (f : X -> bool) (l : list X) :
  (List.length (List.filter f l) <= List.length l)%nat.
Proof. induction l as [| x l IH]; cbn; [lia |]. destruct (f x); cbn; lia. Qed.

Lemma persisted_storeDocument (d : RAGDocument) :
  persisted (storeDocument d) = List.length (List.filter has_embedding (doc_chunks d)).
Proof.
  rewrite storeDocument_calls. unfold persisted. cbn [List.filter].
  induction (List.filter has_embedding (doc_chunks d)) as [| c l IH]; [reflexivity |].
  cbn. now rewrite IH.
Qed.

Example outage_run :
  exists calls,
    RAGIngestion.POST outage outage_request = (RAGIngestion.Processed (lit "abc") 1 2, calls)
    /\ persisted calls = 0%nat
    /\ members (lit "doc:abc:chunks") (run calls Redis.empty) = ∅.
Proof. eexists. split; [vm_compute; reflexivity |]. split; reflexivity. Qed.

Lemma has_embedding_embedded (c : DocumentChunk) : has_embedding c = embedded c.
Proof. unfold has_embedding, embedded. now destruct (embedding c). Qed.

Lemma filter_embedded (chunks : list DocumentChunk) :
  List.filter has_embedding chunks = List.filter embedded chunks.
Proof. apply filter_ext. intros c. apply has_embedding_embedded. Qed.

Lemma embedded_nil (c : DocumentChunk) : embedded c = false <-> embedding c = [].
Proof. unfold embedded. destruct (embedding c); split; congruence. Qed.

Example half_embedded_stored :
  storeDocument half_embedded
  = [HSET (lit "doc:d")
       [(lit "name", FText (lit "Document d")); (lit "url", FText (lit "u"));
        (lit "wordCount", FNumber 2); (lit "chunkCount", FNumber 2);
        (lit "processedAt", FText (lit "t"))];
     HSET (lit "chunk:d_chunk_0")
       [(lit "documentId", FText (lit "d")); (lit "content", FText (lit "A."));
        (lit "chunkIndex", FNumber 0); (lit "embedding", FEmbedding [1%float; 0%float]);
        (lit "metadata",
         FMetadata {| startChar := 0; endChar := 2; RAGSystem.wordCount := 1;
                      sentenceCount := 1 |})];
     SADD (lit "doc:d:chunks") (lit "d_chunk_0")]
  /\ persisted (storeDocument half_embedded) = 1%nat
  /\ hashes (run (storeDocument half_embedded) Redis.empty) !! lit "chunk:d_chunk_1" = None.
Proof. split; [reflexivity |]. split; reflexivity. Qed.

Example endpoint_outage_run :
  exists chunk,
    ProcessEndpoint.POST endpoint_outage endpoint_request
    = ProcessEndpoint.Processed (lit "doc-1") 1 [chunk]
    /\ ProcessRoute.embedding chunk = ProcessRoute.NullEmbedding
    /\ ProcessRoute.content chunk = lit "Hello world".
Proof. eexists. split; [vm_compute; reflexivity |]. split; reflexivity. Qed.

(** C10. [storeDocument] writes a chunk record and a chunk-set entry for
    exactly the chunks whose embedding is not empty: the calls are the
    document record followed, for each such chunk in order, by the HSET of
    its record under "chunk:<id>" and the SADD of its id to
    "doc:<document id>:chunks"; on the store the set gains exactly their
    ids, each of them has its record, and the key of a chunk with an
    empty embedding is left as it was. The RAG route, on every request it
    completes, reports the number of chunks it handed to [storeDocument],
    embedded or not, which is at least the number the chunker made, while
    the number it persisted is that of the chunks with an embedding. The
    processing endpoint, on every request it completes, reports the
    number of chunks the chunker made, whatever became of their
    embeddings. So fewer chunks can be persisted than reported: with the
    embedding service down a document completes on either route with a
    reported count of 1, no chunk persisted and no chunk embedded. *)
Theorem storeDocument_persists_embedded_chunks_only :
  (forall (d : RAGDocument) (store : Store),
      let stored := List.filter embedded (doc_chunks d) in
      let index := lit "doc:" ++ doc_id d ++ lit ":chunks" in
      let after := run (storeDocument d) store in
      storeDocument d
      = HSET (lit "doc:" ++ doc_id d) (document_record d) :: flat_map (persist d) stored
      /\ members index after = list_to_set (map id stored) ∪ members index store
      /\ (forall c, In c stored -> is_Some (hashes after !! (lit "chunk:" ++ id c)))
      /\ (forall c, embedding c = [] ->
                    (forall c', In c' stored -> id c' <> id c) ->
                    hashes after !! (lit "chunk:" ++ id c)
                    = hashes store !! (lit "chunk:" ++ id c))
      /\ persisted (storeDocument d) = List.length stored
      /\ (List.length stored <= List.length (doc_chunks d))%nat)
  /\ (forall w r docId text,
        IngestionMoreSpec.complete r ->
        match_doc_id (default [] (req_url r)) = Some docId ->
        fetchGoogleDoc w docId = Returned text ->
        let made := chunkDocument (routeConfig r) text docId in
        let handed := generateEmbeddings (embeddings w) made in
        exists words document,
          RAGIngestion.POST w r
          = (RAGIngestion.Processed docId (List.length handed) words, storeDocument document)
          /\ doc_id document = docId
          /\ doc_chunks document = handed
          /\ persisted (storeDocument document) = List.length (List.filter embedded handed)
          /\ (List.length made <= List.length handed)%nat
          /\ (answers_in_full (embeddings w) -> List.length handed = List.length made))
  /\ (forall w r docId n words calls,
        RAGIngestion.POST w r = (RAGIngestion.Processed docId n words, calls) ->
        IngestionMoreSpec.complete r
        /\ match_doc_id (default [] (req_url r)) = Some docId
        /\ exists text, fetchGoogleDoc w docId = Returned text)
  /\ (forall w r url documentId key docId text,
        ProcessEndpoint.req_url r = Some url -> url <> [] ->
        ProcessEndpoint.req_documentId r = Some documentId -> documentId <> [] ->
        ProcessEndpoint.req_openaiKey r = Some key -> key <> [] ->
        match_doc_id url = Some docId ->
        ProcessEndpoint.fetchGoogleDocContent w docId = Some text -> text <> [] ->
        let made := ProcessRoute.chunkDocument text documentId in
        ProcessEndpoint.POST w r
        = ProcessEndpoint.Processed documentId (List.length made)
            (ProcessEndpoint.generateEmbeddings (ProcessEndpoint.embedding_of w) made))
  /\ (forall w r documentId n chunks,
        ProcessEndpoint.POST w r = ProcessEndpoint.Processed documentId n chunks ->
        exists url docId text,
          ProcessEndpoint.req_url r = Some url
          /\ ProcessEndpoint.req_documentId r = Some documentId
          /\ match_doc_id url = Some docId
          /\ ProcessEndpoint.fetchGoogleDocContent w docId = Some text
          /\ n = List.length (ProcessRoute.chunkDocument text documentId)
          /\ chunks
             = ProcessEndpoint.generateEmbeddings (ProcessEndpoint.embedding_of w)
                 (ProcessRoute.chunkDocument text documentId)
          /\ List.length chunks = n)
  /\ (exists w r docId n words calls,
        RAGIngestion.POST w r = (RAGIngestion.Processed docId n words, calls)
        /\ (persisted calls < n)%nat)
  /\ (exists w r documentId n chunks,
        ProcessEndpoint.POST w r = ProcessEndpoint.Processed documentId n chunks
        /\ (0 < n)%nat
        /\ Forall (fun c => ProcessRoute.embedding c = ProcessRoute.NullEmbedding) chunks).
Proof.
  split; [| split; [| split; [| split; [| split; [| split]]]]].
  - intros d store stored index after. subst stored index after.
    rewrite <- filter_embedded.
    change (lit "doc:" ++ doc_id d ++ lit ":chunks") with (chunk_set_key d).
    change (lit "doc:" ++ doc_id d) with (document_key d).
    split; [apply storeDocument_calls |]. split; [| split; [| split; [| split]]].
    + rewrite storeDocument_calls.
      change (run (?x :: ?l) store) with (run l (execute store x)).
      rewrite members_persist. reflexivity.
    + intros c Hc. rewrite storeDocument_calls.
      change (run (?x :: ?l) store) with (run l (execute store x)).
      now apply (hashes_persist_stored d).
    + intros c _ Hother. rewrite storeDocument_calls.
      change (run (?x :: ?l) store) with (run l (execute store x)).
      change (lit "chunk:" ++ id c) with (chunk_key c).
      rewrite hashes_persist_other.
      * cbn [execute hashes]. apply lookup_insert_ne.
        intros E. symmetry in E. revert E. apply document_key_not_chunk_key.
      * intros c' Hc' E. apply (Hother c' Hc'). unfold chunk_key in E.
        now apply app_inv_head in E.
    + apply persisted_storeDocument.
    + apply length_filter_le.
  - intros w r docId text Hcomplete Hid Hfetch made handed. subst made handed.
    unfold RAGIngestion.POST. unfold IngestionMoreSpec.complete in Hcomplete.
    rewrite Hcomplete, Hid, Hfetch. cbn [negb]. cbv zeta.
    eexists _, _. split; [reflexivity |]. cbn [doc_id doc_chunks].
    split; [reflexivity |]. split; [reflexivity |].
    split; [rewrite persisted_storeDocument; cbn [doc_chunks]; now rewrite filter_embedded |].
    split; [apply length_generateEmbeddings |].
    intros Hfull. now apply length_generateEmbeddings_in_full.
  - intros w r docId n words calls H. unfold RAGIngestion.POST in H.
    unfold IngestionMoreSpec.complete.
    destruct (present (req_url r) && present (req_openaiKey r) && present (req_redisUrl r));
      [| discriminate]. cbn [negb] in H.
    destruct (match_doc_id _) as [docId' |]; [| discriminate].
    destruct (fetchGoogleDoc w docId') as [text | e] eqn:F; [| discriminate].
    cbv zeta in H. injection H as <- _ _ _.
    split; [reflexivity |]. split; [reflexivity |]. eauto.
  - intros w r url documentId key docId text Hurl Hu Hdoc Hd Hkey Hk Hid Hfetch Ht made.
    subst made. unfold ProcessEndpoint.POST. rewrite Hurl, Hdoc, Hkey.
    destruct url as [| ? url]; [congruence |].
    destruct documentId as [| ? documentId]; [congruence |].
    destruct key as [| ? key]; [congruence |].
    rewrite Hid, Hfetch. destruct text as [| ? text]; [congruence |]. reflexivity.
  - intros w r documentId n chunks H. unfold ProcessEndpoint.POST in H.
    destruct (ProcessEndpoint.req_url r) as [[| ? url] |]; try discriminate.
    destruct (ProcessEndpoint.req_documentId r) as [[| ? doc] |]; try discriminate.
    destruct (ProcessEndpoint.req_openaiKey r) as [[| ? key] |]; try discriminate.
    destruct (match_doc_id _) as [docId |] eqn:Hid; [| discriminate].
    destruct (ProcessEndpoint.fetchGoogleDocContent w docId) as [[| ? text] |] eqn:Hfetch;
      try discriminate.
    cbv zeta in H. injection H as <- <- <-.
    eexists _, docId, _. split; [reflexivity |]. split; [reflexivity |].
    split; [exact Hid |]. split; [exact Hfetch |]. split; [reflexivity |].
    split; [reflexivity |].
    unfold ProcessEndpoint.generateEmbeddings. now rewrite length_map.
  - exists outage, outage_request, (lit "abc"), 1%nat, 2%nat.
    eexists. split; [vm_compute; reflexivity |]. vm_compute. lia.
  - exists endpoint_outage, endpoint_request, (lit "doc-1"), 1%nat.
    eexists. split; [vm_compute; reflexivity |]. split; [lia |].
    repeat constructor.
Qed.

End StoreFacts.

(** ** Binary64 order: the sign of a difference *)

Module FloatOrder.
Import FloatOrderSpec.

Lemma digits2_pos_bounds (m : positive) :
  2 ^ (Zpos (digits2_pos m) - 1) <= Zpos m < 2 ^ Zpos (digits2_pos m).
Proof.
  induction m as [m IH | m IH |]; cbn [digits2_pos].
  - rewrite Pos2Z.inj_succ. replace (Z.succ (Zpos (digits2_pos m)) - 1) with (Zpos (digits2_pos m)) by lia.
    rewrite Z.pow_succ_r by lia.
    replace (Zpos (digits2_pos m)) with (Z.succ (Zpos (digits2_pos m) - 1)) at 1 by lia.
    rewrite Z.pow_succ_r by lia. lia.
  - rewrite Pos2Z.inj_succ. replace (Z.succ (Zpos (digits2_pos m)) - 1) with (Zpos (digits2_pos m)) by lia.
    rewrite Z.pow_succ_r by lia.
    replace (Zpos (digits2_pos m)) with (Z.succ (Zpos (digits2_pos m) - 1)) at 1 by lia.
    rewrite Z.pow_succ_r by lia. lia.
  - cbn. lia.
Qed.

Lemma iter_xO (m d : positive) : Zpos (Pos.iter xO m d) = Zpos m * 2 ^ Zpos d.
Proof.
  induction d as [| d IH] using Pos.peano_ind.
  - cbn. lia.
  - rewrite Pos.iter_succ, Pos2Z.inj_succ, Z.pow_succ_r by lia.
    rewrite Pos2Z.inj_xO, IH. lia.
Qed.

Lemma shl_align_value (m : positive) (e e' : Z) :
  e' <= e -> Zpos (fst (shl_align m e e')) = Zpos m * 2 ^ (e - e').
Proof.
  intros H. unfold shl_align.
  destruct (e' - e) as [| d | d] eqn:E.
  - replace (e - e') with 0 by lia. cbn [fst]. lia.
  - lia.
  - cbn [fst]. rewrite iter_xO. f_equal. f_equal. lia.
Qed.

Lemma bounded_canonical (m : positive) (e : Z) :
  bounded prec emax m e = true ->
  Zpos (digits2_pos m) <= prec /\ emin <= e
  /\ (emin < e -> Zpos (digits2_pos m) = prec).
Proof.
  unfold bounded, canonical_mantissa, SpecFloat.fexp. intros H.
  apply andb_prop in H as [H _]. apply Z.eqb_eq in H. lia.
Qed.

Lemma shr_1_m (r : shr_record) :
  0 <= shr_m r -> shr_m (shr_1 r) = shr_m r / 2.
Proof.
  destruct r as [m r s]. cbn [shr_m]. intros H.
  destruct m as [| [p | p |] | p]; cbn [shr_1 shr_m]; try lia;
    try reflexivity;
    first [apply Z.div_unique with 1; lia | apply Z.div_unique with 0; lia].
Qed.

Lemma iter_shr_1_m (p : positive) (r : shr_record) :
  0 <= shr_m r -> shr_m (iter_pos shr_1 p r) = shr_m r / 2 ^ Zpos p.
Proof.
  revert r. induction p as [p IH | p IH |]; intros r H; cbn [iter_pos].
  - assert (0 <= shr_m (shr_1 r)) as H1 by (rewrite shr_1_m by lia; apply Z.div_pos; lia).
    assert (0 <= shr_m (iter_pos shr_1 p (shr_1 r))) as H2
      by (rewrite IH by lia; apply Z.div_pos; lia).
    rewrite IH, IH, shr_1_m by assumption.
    rewrite !Z.div_div by lia. f_equal.
    replace (Zpos p~1) with (1 + Zpos p + Zpos p) by lia.
    rewrite !Z.pow_add_r by lia. lia.
  - assert (0 <= shr_m (iter_pos shr_1 p r)) as H2
      by (rewrite IH by lia; apply Z.div_pos; lia).
    rewrite IH, IH by assumption.
    rewrite !Z.div_div by lia. f_equal.
    replace (Zpos p~0) with (Zpos p + Zpos p) by lia.
    rewrite !Z.pow_add_r by lia. lia.
  - rewrite shr_1_m by assumption. reflexivity.
Qed.

Lemma shr_record_of_loc_m (m : Z) (l : location) : shr_m (shr_record_of_loc m l) = m.
Proof. destruct l as [| []]; reflexivity. Qed.

(** Shifting a positive mantissa to its canonical exponent leaves a
    positive mantissa. *)
Lemma shr_fexp_pos (m e : Z) (l : location) :
  0 < m -> emin <= e ->
  0 < shr_m (fst (shr_fexp prec emax m e l)) /\ emin <= snd (shr_fexp prec emax m e l).
Proof.
  intros Hm He. unfold shr_fexp, shr.
  destruct m as [| p | p]; try lia. cbn [Zdigits2].
  set (d := Zpos (digits2_pos p)).
  assert (fexp (d + e) - e <= d - prec \/ fexp (d + e) - e <= 0) as Hn
    by (unfold SpecFloat.fexp; lia).
  assert (emin <= fexp (d + e)) as Hf by (unfold SpecFloat.fexp; lia).
  destruct (fexp (d + e) - e) as [| q | q] eqn:E; cbn [fst snd];
    rewrite ?shr_record_of_loc_m; try (split; lia).
  rewrite iter_shr_1_m by (rewrite shr_record_of_loc_m; lia).
  rewrite shr_record_of_loc_m. split; [| lia].
  apply Z.div_str_pos. split; [lia |].
  pose proof (digits2_pos_bounds p) as [Hlow _]. fold d in Hlow.
  assert (Zpos q <= d - 1) as Hq by (unfold prec in *; lia).
  etransitivity; [| exact Hlow]. apply Z.pow_le_mono_r; lia.
Qed.

Lemma round_nearest_even_pos (m : Z) (l : location) :
  0 < m -> 0 < round_nearest_even m l.
Proof.
  intros H. unfold round_nearest_even.
  destruct l as [| []]; try lia. destruct (Z.even m); lia.
Qed.

Lemma binary_round_aux_signed (s : bool) (m e : Z) (l : location) :
  signed s (binary_round_aux prec emax s m e l).
Proof.
  unfold binary_round_aux.
  destruct (shr_fexp prec emax m e l) as [mrs' e'].
  destruct (shr_fexp prec emax _ e' loc_Exact) as [mrs'' e''].
  destruct (shr_m mrs''); cbn; auto. destruct (e'' <=? emax - prec); cbn; auto.
Qed.

Lemma binary_round_aux_pos (s : bool) (m e : Z) (l : location) :
  0 < m -> emin <= e -> strictly_signed s (binary_round_aux prec emax s m e l).
Proof.
  intros Hm He. unfold binary_round_aux.
  pose proof (shr_fexp_pos m e l Hm He) as [H1 H1'].
  destruct (shr_fexp prec emax m e l) as [mrs' e']. cbn [fst snd] in *.
  pose proof (shr_fexp_pos _ e' loc_Exact
                (round_nearest_even_pos _ (loc_of_shr_record mrs') H1) H1') as [H2 _].
  destruct (shr_fexp prec emax _ e' loc_Exact) as [mrs'' e'']. cbn [fst] in *.
  destruct (shr_m mrs''); try lia. destruct (e'' <=? emax - prec); cbn; auto.
Qed.

Lemma binary_round_pos (s : bool) (p : positive) (e : Z) :
  emin <= e -> strictly_signed s (binary_round prec emax s p e).
Proof.
  intros He. unfold binary_round.
  destruct (shl_align p e _) as [mz ez] eqn:E.
  apply binary_round_aux_pos; [lia |].
  unfold shl_align in E.
  destruct (fexp (Zpos (digits2_pos p) + e) - e) eqn:F; injection E as <- <-; try lia.
  unfold SpecFloat.fexp. lia.
Qed.

Lemma binary_round_signed (s : bool) (p : positive) (e : Z) :
  signed s (binary_round prec emax s p e).
Proof.
  unfold binary_round. destruct (shl_align p e _). apply binary_round_aux_signed.
Qed.

Lemma compare_magnitudes (m1 m2 : positive) (e1 e2 : Z) :
  bounded prec emax m1 e1 = true -> bounded prec emax m2 e2 = true ->
  match e1 ?= e2 with
  | Lt => Lt
  | Gt => Gt
  | Eq => Pos.compare_cont Eq m1 m2
  end
  = (Zpos (fst (shl_align m1 e1 (Z.min e1 e2))) ?= Zpos (fst (shl_align m2 e2 (Z.min e1 e2)))).
Proof.
  intros B1 B2.
  apply bounded_canonical in B1 as (D1 & E1 & N1).
  apply bounded_canonical in B2 as (D2 & E2 & N2).
  pose proof (digits2_pos_bounds m1) as [L1 U1].
  pose proof (digits2_pos_bounds m2) as [L2 U2].
  rewrite !shl_align_value by lia.
  assert (forall d, d <= prec -> 2 ^ d <= 2 ^ prec) as Hmono
    by (intros; apply Z.pow_le_mono_r; lia).
  destruct (Z.compare_spec e1 e2) as [-> | Hlt | Hgt].
  - rewrite Z.min_id, Z.sub_diag, !Z.mul_1_r. reflexivity.
  - symmetry. apply Z.compare_lt_iff.
    rewrite Z.min_l, Z.sub_diag, Z.mul_1_r by lia.
    rewrite N2 in L2 by lia.
    assert (2 <= 2 ^ (e2 - e1)) as Hp
      by (change 2 with (2 ^ 1) at 1; apply Z.pow_le_mono_r; lia).
    specialize (Hmono _ D1).
    assert (2 ^ prec = 2 * 2 ^ (prec - 1)) as Hpp by reflexivity.
    nia.
  - symmetry. apply Z.compare_gt_iff.
    rewrite Z.min_r, Z.sub_diag, Z.mul_1_r by lia.
    rewrite N1 in L1 by lia.
    assert (2 <= 2 ^ (e1 - e2)) as Hp
      by (change 2 with (2 ^ 1) at 1; apply Z.pow_le_mono_r; lia).
    specialize (Hmono _ D2).
    assert (2 ^ prec = 2 * 2 ^ (prec - 1)) as Hpp by reflexivity.
    nia.
Qed.

Lemma SFcompare_finite (s1 s2 : bool) (m1 m2 : positive) (e1 e2 : Z) :
  bounded prec emax m1 e1 = true -> bounded prec emax m2 e2 = true ->
  SFcompare (S754_finite s1 m1 e1) (S754_finite s2 m2 e2)
  = Some (aligned s1 m1 e1 (Z.min e1 e2) - aligned s2 m2 e2 (Z.min e1 e2) ?= 0).
Proof.
  intros B1 B2. rewrite <- Z.compare_sub. unfold aligned. cbn [SFcompare].
  pose proof (compare_magnitudes m1 m2 e1 e2 B1 B2) as H.
  destruct s1, s2; cbn [cond_Zopp].
  - f_equal. rewrite Z.compare_opp.
    rewrite (Z.compare_antisym (Zpos (fst (shl_align m1 e1 (Z.min e1 e2))))), <- H.
    destruct (e1 ?= e2); reflexivity.
  - reflexivity.
  - reflexivity.
  - f_equal. exact H.
Qed.

Lemma SFltb_zero_strictly_positive (x : spec_float) :
  strictly_signed false x -> SFltb zero_sf x = true.
Proof. destruct x as [| [] | | [] ]; cbn; intros H; congruence || tauto. Qed.

Lemma SFltb_zero_negative (x : spec_float) :
  signed true x -> SFltb zero_sf x = false.
Proof. destruct x as [[] | [] | | [] ]; cbn; intros H; congruence || tauto. Qed.

(** The sign of a difference orders its operands. *)
Lemma SFsub_order (x y : spec_float) :
  valid_binary x = true -> valid_binary y = true ->
  is_nan_sf x = false -> is_nan_sf y = false ->
  if SFltb zero_sf (SF64sub x y) then SFleb y x = true else SFleb x y = true.
Proof.
  intros Vx Vy Nx Ny.
  destruct x as [sx | sx | | sx mx ex]; try discriminate;
    destruct y as [sy | sy | | sy my ey]; try discriminate;
    try (destruct sx, sy; reflexivity);
    try (destruct sx; reflexivity);
    try (destruct sy; reflexivity).
  cbn [valid_binary] in Vx, Vy.
  unfold SF64sub, SFsub.
  pose proof (SFcompare_finite sx sy mx my ex ey Vx Vy) as Hxy.
  pose proof (SFcompare_finite sy sx my mx ey ex Vy Vx) as Hyx.
  rewrite (Z.min_comm ey ex) in Hyx. unfold aligned in *.
  set (ez := Z.min ex ey) in *.
  assert (emin <= ez) as Hez.
  { apply bounded_canonical in Vx. apply bounded_canonical in Vy. lia. }
  set (vx := cond_Zopp sx _) in *. set (vy := cond_Zopp sy _) in *.
  cbv zeta. unfold SFleb. rewrite Hxy, Hyx.
  destruct (vx - vy) as [| p | p] eqn:D; cbn [binary_normalize].
  - reflexivity.
  - rewrite SFltb_zero_strictly_positive by (now apply binary_round_pos).
    replace (vy - vx) with (Zneg p) by lia. reflexivity.
  - rewrite SFltb_zero_negative by apply binary_round_signed. reflexivity.
Qed.

Lemma leb_not_nan (t a : float) :
  (t <=? a)%float = true -> is_nan_sf (Prim2SF a) = false.
Proof.
  rewrite leb_spec. unfold SFleb.
  destruct (Prim2SF a); try reflexivity.
  destruct (Prim2SF t); discriminate.
Qed.

(** Two numbers above a common threshold (neither is NaN): if [b - a] is
    positive then [a <= b], and if it is not then [b <= a]. *)
Lemma sub_order (t a b : float) :
  (t <=? a)%float = true -> (t <=? b)%float = true ->
  if (0 <? b - a)%float then (a <=? b)%float = true else (b <=? a)%float = true.
Proof.
  intros Ha Hb. rewrite ltb_spec, sub_spec, !leb_spec.
  change (Prim2SF 0) with zero_sf.
  apply SFsub_order;
    [apply Prim2SF_valid | apply Prim2SF_valid
     | eapply leb_not_nan; eauto | eapply leb_not_nan; eauto].
Qed.

End FloatOrder.

(** ** The vector search *)

Module SearchFacts.
Import Cosine SearchSpec.
Local Open Scope float_scope.

Section Ranking.

Context {A : Type}.
Variable rank : A -> float.
Variable threshold : float.

Lemma insert_passes (x : A) (l : list A) :
  (passes rank threshold) x -> Forall (passes rank threshold) l -> Forall (passes rank threshold) (ArraySort.insert (descending rank) x l).
Proof.
  intros Hx Hl. induction Hl as [| y l Hy Hl IH]; cbn [ArraySort.insert].
  - repeat constructor; assumption.
  - destruct (0 <? (descending rank) x y); repeat constructor; assumption.
Qed.

Lemma insert_head (x : A) (l : list A) (y : A) :
  (passes rank threshold) x -> Forall (passes rank threshold) l ->
  (not_below rank) y x -> HdRel (not_below rank) y l -> HdRel (not_below rank) y (ArraySort.insert (descending rank) x l).
Proof.
  intros Hx Hl Hyx Hhd. destruct l as [| z l]; cbn [ArraySort.insert].
  - constructor. exact Hyx.
  - destruct (0 <? (descending rank) x z); constructor; [| exact Hyx].
    now inversion Hhd.
Qed.

Lemma insert_sorted (x : A) (l : list A) :
  (passes rank threshold) x -> Forall (passes rank threshold) l -> Sorted (not_below rank) l ->
  Sorted (not_below rank) (ArraySort.insert (descending rank) x l).
Proof.
  intros Hx Hl Hs. induction Hs as [| y l Hs IH Hhd]; cbn [ArraySort.insert].
  - repeat constructor.
  - inversion Hl as [| ? ? Hy Hl']; subst.
    pose proof (FloatOrder.sub_order threshold (rank x) (rank y) Hx Hy) as Hord.
    unfold descending at 1. destruct (0 <? rank y - rank x).
    + constructor; [now apply IH |]. now apply insert_head.
    + constructor; [now constructor |]. constructor. exact Hord.
Qed.

Lemma sort_passes (l : list A) :
  Forall (passes rank threshold) l -> Forall (passes rank threshold) (ArraySort.sort (descending rank) l).
Proof.
  intros H. induction H as [| x l Hx Hl IH]; cbn; [constructor |].
  now apply insert_passes.
Qed.

Lemma sort_sorted (l : list A) :
  Forall (passes rank threshold) l -> Sorted (not_below rank) (ArraySort.sort (descending rank) l).
Proof.
  intros H. induction H as [| x l Hx Hl IH]; cbn; [constructor |].
  apply insert_sorted; [assumption | now apply sort_passes | assumption].
Qed.

Lemma firstn_sorted (n : nat) (l : list A) :
  Sorted (not_below rank) l -> Sorted (not_below rank) (firstn n l).
Proof.
  intros H. revert n. induction H as [| x l Hs IH Hhd]; intros [| n]; cbn;
    try constructor; auto.
  destruct Hhd; destruct n; cbn; constructor; assumption.
Qed.

Lemma slice_to_ranked (limit : Z) (l : list A) :
  Forall (passes rank threshold) l ->
  let kept := slice_to limit (ArraySort.sort (descending rank) l) in
  (0 <= limit -> Z.of_nat (List.length kept) <= limit)%Z
  /\ Sorted (not_below rank) kept
  /\ Forall (passes rank threshold) kept.
Proof.
  intros H kept. subst kept. unfold slice_to. split; [| split].
  - intros Hl. rewrite length_firstn.
    destruct (limit <? 0)%Z eqn:E; [apply Z.ltb_lt in E |]; lia.
  - apply firstn_sorted. now apply sort_sorted.
  - apply Forall_take. now apply sort_passes.
Qed.

End Ranking.

Import RedisVectorStore.

Lemma collect_passes (w : World) (query : vector) (threshold : float)
    (results : list SearchResult) (key : jsstring) :
  Forall (passes score threshold) results ->
  Forall (passes score threshold) (collect w query threshold results key).
Proof.
  intros H. unfold collect.
  destruct (hgetall w key) as [| | i d c [embedding |] [parsed |]]; try exact H.
  - destruct (threshold <=? _) eqn:E; [| exact H].
    apply Forall_app. split; [exact H |]. repeat constructor. exact E.
  - destruct (threshold <=? _); exact H.
Qed.

Lemma collected_pass (w : World) (query : vector) (threshold : float)
    (documentKeys : list jsstring) (results : list SearchResult) :
  Forall (passes score threshold) results ->
  Forall (passes score threshold)
    (fold_left (collect w query threshold) documentKeys results).
Proof.
  revert results. induction documentKeys as [| key documentKeys IH]; intros results H;
    [exact H |].
  cbn. apply IH. now apply collect_passes.
Qed.

Lemma rag_collected_pass (config : RAGSystem.RAGConfig) (w : RAGSearch.World)
    (query : vector) (keys : list jsstring) (found : Outcome (list RAGSearch.Scored))
    (kept : list RAGSearch.Scored) :
  (forall l, found = Returned l ->
             Forall (passes RAGSearch.similarity (RAGSystem.similarityThreshold config)) l) ->
  fold_left (RAGSearch.collect config w query) keys found = Returned kept ->
  Forall (passes RAGSearch.similarity (RAGSystem.similarityThreshold config)) kept.
Proof.
  revert found. induction keys as [| key keys IH]; intros found Hfound Hfold.
  - cbn in Hfold. auto.
  - cbn in Hfold. eapply IH; [| exact Hfold].
    intros l Hl. unfold RAGSearch.collect in Hl.
    destruct found as [similarChunks | e]; [| discriminate].
    specialize (Hfound _ eq_refl).
    destruct (RAGSearch.stored_embedding _) as [[embedding | e] |];
      [| discriminate | now injection Hl as <-].
    destruct (_ <=? _) eqn:E; [| now injection Hl as <-].
    destruct (RAGSearch.stored_metadata _); [| discriminate].
    injection Hl as <-. apply Forall_app. split; [exact Hfound |].
    repeat constructor. exact E.
Qed.

Example three_chunks_search :
  scores (searchSimilar three_chunks [1; 0] 5 0.5)
  = [(lit "2", 1); (lit "1", 0.70710678118654746)]
  /\ scores (searchSimilar three_chunks [1; 0] 1 0.5) = [(lit "2", 1)]
  /\ scores (searchSimilar three_chunks [1; 0] (-1) 0.5) = [(lit "2", 1)].
Proof. repeat split; vm_compute; reflexivity. Qed.

(** C4. For every stored collection, query vector, threshold and limit,
    [searchSimilar] on a store it can connect to returns a sequence of
    length at most the limit (a number of results, so not negative),
    sorted in non-increasing order of score, in which every score is at
    least the threshold. The chunks [searchSimilarChunks] keeps are ranked
    the same way whenever it returns. *)
Theorem searchSimilar_ranked
    (w : World) (queryEmbedding : vector) (limit : Z) (threshold : float) :
  (ping w = true ->
   exists results,
     searchSimilar w queryEmbedding limit threshold = Returned results
     /\ (0 <= limit -> Z.of_nat (List.length results) <= limit)%Z
     /\ Sorted (fun a b => (score b <=? score a) = true) results
     /\ Forall (fun r => (threshold <=? score r) = true) results)
  /\ (forall config rag query kept,
        RAGSearch.ranked config rag query limit = Returned kept ->
        RAGSearch.searchSimilarChunks config rag query limit
        = Returned (map RAGSearch.chunk kept)
        /\ (0 <= limit -> Z.of_nat (List.length kept) <= limit)%Z
        /\ Sorted (fun a b => (RAGSearch.similarity b <=? RAGSearch.similarity a) = true)
             kept
        /\ Forall (fun r => (RAGSystem.similarityThreshold config
                             <=? RAGSearch.similarity r) = true) kept).
Proof.
  split.
  - intros Hping. unfold searchSimilar. rewrite Hping. cbn [negb].
    destruct (keys w) as [documentKeys |].
    + eexists. split; [reflexivity |].
      apply (slice_to_ranked score threshold limit).
      apply collected_pass. constructor.
    + exists []. split; [reflexivity |]. cbn. repeat split; try constructor. lia.
  - intros config rag query kept H.
    unfold RAGSearch.searchSimilarChunks. rewrite H. split; [reflexivity |].
    unfold RAGSearch.ranked in H.
    destruct (RAGSearch.queryEmbedding rag query) as [embedded |].
    + destruct (fold_left _ _ _) as [similarChunks | e] eqn:F; [| discriminate].
      injection H as <-.
      apply (slice_to_ranked RAGSearch.similarity
               (RAGSystem.similarityThreshold config) limit).
      eapply rag_collected_pass; [| exact F].
      intros l [= <-]. constructor.
    + injection H as <-. cbn. repeat split; try constructor. lia.
Qed.

Lemma searchSimilar_ranked_witness :
  exists results,
    searchSimilar three_chunks [1; 0] 1 0.5 = Returned results
    /\ (Z.of_nat (List.length results) <= 1)%Z
    /\ Sorted (fun a b => (score b <=? score a) = true) results
    /\ Forall (fun r => (0.5 <=? score r) = true) results.
Proof.
  destruct (searchSimilar_ranked three_chunks [1; 0] 1 0.5) as [H _].
  destruct (H eq_refl) as (results & Hrun & Hlen & Hsorted & Hpass).
  exists results. split; [exact Hrun |]. split; [apply Hlen; lia |].
  split; assumption.
Defined.

End SearchFacts.

(** ** Trimming *)

Module JsStringFacts.
Import ChunkerFacts.

Lemma trimStart_fixed (s : jsstring) :
  match s with [] => True | c :: _ => is_space c = false end -> trimStart s = s.
Proof. destruct s as [| c s]; [reflexivity |]. cbn. now intros ->. Qed.

(** [trimStart] removes a run of spaces from the front. *)
Lemma trimStart_split (s : jsstring) :
  exists spaces, s = spaces ++ trimStart s /\ forallb is_space spaces = true.
Proof.
  induction s as [| c s (spaces & E & H)]; [now exists [] |].
  cbn [trimStart]. destruct (is_space c) eqn:C.
  - exists (c :: spaces). cbn. rewrite C, H. split; [now f_equal | reflexivity].
  - now exists [].
Qed.

(** A trimmed text is empty or starts and ends with a code unit that is
    no space. *)
Lemma trim_ends (s : jsstring) :
  trim s = []
  \/ exists first last middle middle',
       trim s = first :: middle /\ trim s = middle' ++ [last]
       /\ is_space first = false /\ is_space last = false.
Proof.
  unfold trim, trimEnd.
  destruct (trimStart s) as [| c u] eqn:U; [now left |].
  pose proof (trimStart_head _ _ _ U) as Hc.
  destruct (trimStart_split (rev (c :: u))) as (spaces & E & Hs).
  destruct (trimStart (rev (c :: u))) as [| d v] eqn:V.
  - exfalso. rewrite app_nil_r in E. rewrite <- E, forallb_rev in Hs.
    cbn in Hs. rewrite Hc in Hs. discriminate.
  - right. pose proof (trimStart_head _ _ _ V) as Hd.
    apply (f_equal (@rev N)) in E. rewrite rev_involutive, rev_app_distr in E.
    cbn [rev] in *.
    destruct (rev v) as [| x rv] eqn:RV.
    + exists d, d, [], []. auto.
    + cbn in E. injection E as Ec _. subst x. exists c, d, (rv ++ [d]), (c :: rv).
      repeat split; auto.
Qed.

(** [trim] is idempotent. *)
Lemma trim_idempotent (s : jsstring) : trim (trim s) = trim s.
Proof.
  destruct (trim_ends s) as [-> | (first & last & middle & middle' & E1 & E2 & Hf & Hl)];
    [reflexivity |].
  unfold trim at 1, trimEnd.
  rewrite (trimStart_fixed (trim s)) by (rewrite E1; exact Hf).
  rewrite (trimStart_fixed (rev (trim s))).
  - apply rev_involutive.
  - rewrite E2, rev_app_distr. cbn. exact Hl.
Qed.

End JsStringFacts.

(** ** The chat route: the other paths *)

Module ChatRouteMore.
Import ChatRoute ChatRouteSpec ChatRouteMoreSpec ChatRouteFacts.

Lemma storeInLangCache_run
    (w : World) (query : jsstring) (response : JSON) (c : Config) (t : list Event) :
  storeInLangCache w query response c t
  = (Returned (fst (storeOutcome w query response c)),
     t ++ snd (storeOutcome w query response c)).
Proof.
  unfold storeInLangCache, storeOutcome, configured, try_catch, bind, emit, ret, throw, lift.
  destruct (missing (langcacheUrl c) || missing (cacheId c) || missing (serviceKey c));
    cbv beta iota delta [negb]; [now rewrite app_nil_r |].
  destruct response; cbn [fst snd]; try now rewrite app_nil_r.
  destruct (fetch w (storeRequest query s c)); reflexivity.
Qed.

Lemma detached_store_run
    (w : World) (query : jsstring) (response : JSON) (c : Config) (t : list Event) :
  detached (storeInLangCache w query response c) t
  = (Returned tt, t ++ snd (storeOutcome w query response c)).
Proof. unfold detached, try_catch, bind, ret. now rewrite storeInLangCache_run. Qed.

Lemma searchLangCache_calls (w : World) (query : jsstring) (c : Config) (t : list Event) :
  searchLangCache w query c t = (Returned (searchOutcome w query c), t ++ searchCalls query c).
Proof.
  rewrite searchLangCache_outcome. unfold searchCalls.
  destruct (configured c); [reflexivity | now rewrite app_nil_r].
Qed.

Lemma callOpenAI_outcome (w : World) (query : jsstring) (c : Config) :
  fst (callOpenAI w query c [])
  = match fetch w (generationRequest query c) with
    | NetworkError e => Thrown e
    | Response false code _ => Thrown (lit "OpenAI API error: " ++ JsString.of_Z code)
    | Response true _ (Thrown e) => Thrown e
    | Response true _ (Returned data) =>
        generationOf data (elapsed w (generationRequest query c))
    end.
Proof.
  unfold callOpenAI, generationOf, bind, emit, ret, throw, lift.
  destruct (fetch w (generationRequest query c)) as [e | [|] code [data | e]];
    try reflexivity.
  cbv beta iota delta [negb].
  destruct data; try reflexivity;
    destruct (member (lit "choices") _) as [[] |]; reflexivity.
Qed.

Lemma or_else_truthy (a : value) (b : JSON) :
  truthy (Some b) = true -> truthy (Some (or_else a b)) = true.
Proof.
  intros Hb. unfold or_else. destruct a as [x |]; [| exact Hb].
  destruct (truthy (Some x)) eqn:E; assumption.
Qed.

Lemma or_else_default (a : value) (b : JSON) :
  truthy (Some (or_else a b)) = true \/ or_else a b = b.
Proof.
  unfold or_else. destruct a as [x |]; [| now right].
  destruct (truthy (Some x)) eqn:E; [now left | now right].
Qed.

Lemma or_else_cases (a : value) (b : JSON) :
  (forall v, a = Some v -> truthy (Some v) = true -> or_else a b = v)
  /\ (falsy a -> or_else a b = b).
Proof.
  unfold or_else, falsy. split.
  - intros v -> H. now rewrite H.
  - intros H. destruct a as [x |]; [now rewrite H | reflexivity].
Qed.

Lemma generationOf_reply (data : JSON) (elapsed : Z) :
  is_null data = false ->
  (exists choices, member (lit "choices") data = Some choices /\ is_null choices = false) ->
  generationOf data elapsed
  = Returned {| content := or_else (replyContent data) (JStr (lit "No response generated"));
                latency := elapsed;
                tokensUsed := or_else (replyTokens data) (JNum 0) |}.
Proof.
  intros Hdata (choices & Hchoices & Hnull). unfold generationOf, replyContent, replyTokens.
  rewrite Hdata, Hchoices, Hnull.
  destruct data; try discriminate; cbn [opt_member]; rewrite Hchoices;
    destruct choices; try discriminate; reflexivity.
Qed.

(** What [callOpenAI] makes of the service's answer. On a success status
    with a body that has [choices], it returns: as content
    [choices[0].message.content] when the body has it and it is truthy, and
    "No response generated" otherwise; as token count [usage.total_tokens]
    when the body has it and it is truthy, and 0 otherwise; as latency the
    time of its own request. It throws "OpenAI API error: <status>" on any
    other status, the error of the connection or of the body parser when
    one of them fails, and a TypeError when the body is [null] or has no
    [choices]. In every case it has issued the one generation call. *)
Theorem callOpenAI_result (w : World) (query : jsstring) (c : Config) (t : list Event) :
  let request := generationRequest query c in
  snd (callOpenAI w query c t) = t ++ [GenerationCall request]
  /\ (forall code data choices,
        fetch w request = Response true code (Returned data) ->
        member (lit "choices") data = Some choices -> choices <> JNull ->
        exists gen,
          fst (callOpenAI w query c t) = Returned gen
          /\ latency gen = elapsed w request
          /\ (forall v, replyContent data = Some v -> truthy (Some v) = true ->
                        content gen = v)
          /\ (falsy (replyContent data) ->
              content gen = JStr (lit "No response generated"))
          /\ (forall v, replyTokens data = Some v -> truthy (Some v) = true ->
                        tokensUsed gen = v)
          /\ (falsy (replyTokens data) -> tokensUsed gen = JNum 0))
  /\ (forall gen,
        fst (callOpenAI w query c t) = Returned gen ->
        exists code data choices,
          fetch w request = Response true code (Returned data)
          /\ member (lit "choices") data = Some choices /\ choices <> JNull)
  /\ (forall code json,
        fetch w request = Response false code json ->
        fst (callOpenAI w query c t)
        = Thrown (lit "OpenAI API error: " ++ JsString.of_Z code))
  /\ (forall e, fetch w request = NetworkError e ->
                fst (callOpenAI w query c t) = Thrown e)
  /\ (forall code e, fetch w request = Response true code (Thrown e) ->
                     fst (callOpenAI w query c t) = Thrown e)
  /\ (forall code data,
        fetch w request = Response true code (Returned data) ->
        (data = JNull ->
         fst (callOpenAI w query c t)
         = Thrown (lit "Cannot read properties of null (reading 'choices')"))
        /\ (data <> JNull -> member (lit "choices") data = None ->
            fst (callOpenAI w query c t)
            = Thrown (lit "Cannot read properties of undefined (reading '0')"))
        /\ (member (lit "choices") data = Some JNull ->
            fst (callOpenAI w query c t)
            = Thrown (lit "Cannot read properties of null (reading '0')"))).
Proof.
  cbv zeta. rewrite callOpenAI_trace. cbn [fst snd]. rewrite callOpenAI_outcome.
  split; [reflexivity |]. split; [| split; [| split; [| split; [| split]]]].
  - intros code data choices -> Hchoices Hnull.
    assert (Hdata : is_null data = false) by (destruct data; [discriminate | ..]; reflexivity).
    assert (Hc : is_null choices = false) by (destruct choices; [congruence | ..]; reflexivity).
    rewrite generationOf_reply by eauto.
    eexists. split; [reflexivity |]. cbn [content latency tokensUsed].
    split; [reflexivity |].
    destruct (or_else_cases (replyContent data) (JStr (lit "No response generated")))
      as [Hc1 Hc2].
    destruct (or_else_cases (replyTokens data) (JNum 0)) as [Ht1 Ht2]. auto.
  - intros gen H.
    destruct (fetch w (generationRequest query c)) as [e | [|] code [data | e]];
      try discriminate.
    unfold generationOf in H. exists code, data.
    destruct (is_null data); [discriminate |].
    destruct (member (lit "choices") data) as [choices |]; [| discriminate].
    exists choices. split; [reflexivity |]. split; [reflexivity |].
    intros ->. discriminate.
  - now intros code json ->.
  - now intros e ->.
  - now intros code e ->.
  - intros code data ->. unfold generationOf. split; [| split].
    + now intros ->.
    + intros Hdata ->. destruct data; [congruence | ..]; reflexivity.
    + intros H. destruct data; try (cbn [member] in H; discriminate H).
      cbn [is_null]. now rewrite H.
Qed.

Example callOpenAI_reads_the_completion (w : World) (query : jsstring) (c : Config) :
  fetch w (generationRequest query c)
  = Response true 200 (Returned (completion (lit "Hi") 21)) ->
  fst (callOpenAI w query c [])
  = Returned {| content := JStr (lit "Hi");
                latency := elapsed w (generationRequest query c);
                tokensUsed := JNum 21 |}.
Proof. intros H. rewrite callOpenAI_outcome, H. reflexivity. Qed.

Lemma POST_run (w : World) (msg : jsstring) (c : Config) (t : list Event) :
  msg <> [] ->
  POST w (chatRequest msg c) t
  = (Returned (fst (postOutcome w msg c)), t ++ snd (postOutcome w msg c)).
Proof.
  intros Hmsg. destruct msg as [| ch msg']; [congruence |].
  unfold POST, chatRequest, postOutcome, try_catch, bind, lift, ret.
  cbv beta iota zeta. cbn [message config].
  destruct (shadowMode c); rewrite searchLangCache_calls.
  - rewrite callOpenAI_trace.
    destruct (fst (callOpenAI w (ch :: msg') c [])) as [gen | e]; cbn [fst snd].
    + destruct (hit (searchOutcome w (ch :: msg') c)); cbv beta iota delta [negb].
      * now rewrite app_nil_r, <- app_assoc.
      * rewrite detached_store_run. now rewrite <- !app_assoc.
    + now rewrite <- app_assoc.
  - destruct (searchOutcome w (ch :: msg') c) as [| response similarity cachedQuery];
      [| reflexivity].
    rewrite callOpenAI_trace.
    destruct (fst (callOpenAI w (ch :: msg') c [])) as [gen | e]; cbn [fst snd].
    + rewrite detached_store_run. now rewrite <- !app_assoc.
    + now rewrite <- app_assoc.
Qed.

Lemma POST_invalid (w : World) (r : ChatRequest) (t : list Event) :
  message r = None \/ message r = Some [] \/ config r = None ->
  POST w (Returned r) t
  = (Returned (respond 400 [("error", Some (JStr (lit "Missing message or config")))]%string),
     t).
Proof.
  intros H. unfold POST, try_catch, bind, lift, ret. cbv beta iota.
  destruct r as [[[| ch m] |] [c |]]; cbn [message config] in *;
    try reflexivity.
  destruct H as [H | [H | H]]; discriminate.
Qed.

Lemma count_app (f : Event -> bool) (a b : list Event) :
  count f (a ++ b) = (count f a + count f b)%nat.
Proof. unfold count. now rewrite filter_app, length_app. Qed.

Lemma count_searchCalls (query : jsstring) (c : Config) :
  (count is_search (searchCalls query c) <= 1)%nat
  /\ count is_generation (searchCalls query c) = 0%nat
  /\ count is_store (searchCalls query c) = 0%nat.
Proof. unfold searchCalls. destruct (configured c); cbn; lia. Qed.

Lemma count_storeOutcome (w : World) (query : jsstring) (response : JSON) (c : Config) :
  count is_search (snd (storeOutcome w query response c)) = 0%nat
  /\ count is_generation (snd (storeOutcome w query response c)) = 0%nat
  /\ (count is_store (snd (storeOutcome w query response c)) <= 1)%nat.
Proof.
  unfold storeOutcome. destruct (configured c); [| cbn; lia].
  destruct response; cbn; lia.
Qed.

(** [POST] always answers: whatever the request and the services do, it
    returns a response with status 200, 400 or 500, after at most one
    cache search, one generation call and one cache store (no call is
    repeated), and it issues a store on a 200 answer only. *)
Theorem POST_always_answers (w : World) (request : Outcome ChatRequest) (t : list Event) :
  exists response calls,
    POST w request t = (Returned response, t ++ calls)
    /\ (status response = 200 \/ status response = 400 \/ status response = 500)
    /\ (count is_search calls <= 1)%nat
    /\ (count is_generation calls <= 1)%nat
    /\ (count is_store calls <= 1)%nat
    /\ (status response <> 200 -> count is_store calls = 0%nat)
    /\ (status response = 400 -> calls = []).
Proof.
  assert (forall (response : HttpResponse) (calls : list Event),
             (status response = 200 \/ status response = 400 \/ status response = 500) ->
             (count is_search calls <= 1)%nat ->
             (count is_generation calls <= 1)%nat ->
             (count is_store calls <= 1)%nat ->
             (status response = 200 \/ count is_store calls = 0%nat) ->
             (status response <> 400 \/ calls = []) ->
             (status response = 200 \/ status response = 400 \/ status response = 500)
             /\ (count is_search calls <= 1)%nat
             /\ (count is_generation calls <= 1)%nat
             /\ (count is_store calls <= 1)%nat
             /\ (status response <> 200 -> count is_store calls = 0%nat)
             /\ (status response = 400 -> calls = [])) as Hpack.
  { intros response calls H1 H2 H3 H4 H5 H6. repeat split; try assumption.
    - intros H. destruct H5; [contradiction | assumption].
    - intros H. destruct H6; [contradiction | assumption]. }
  assert (forall response,
             status response = 400 \/ status response = 500 ->
             POST w request t = (Returned response, t) ->
             exists response calls,
               POST w request t = (Returned response, t ++ calls)
               /\ (status response = 200 \/ status response = 400 \/ status response = 500)
               /\ (count is_search calls <= 1)%nat
               /\ (count is_generation calls <= 1)%nat
               /\ (count is_store calls <= 1)%nat
               /\ (status response <> 200 -> count is_store calls = 0%nat)
               /\ (status response = 400 -> calls = [])) as Hnone.
  { intros response Hs Hp. exists response, []. rewrite app_nil_r. split; [exact Hp |].
    apply Hpack; [tauto | cbn; lia | cbn; lia | cbn; lia | now right | now right]. }
  destruct request as [r | e].
  2:{ eapply Hnone; [| reflexivity]. now right. }
  destruct (message r) as [[| ch msg'] |] eqn:M;
    try (eapply Hnone; [| apply POST_invalid; auto]; now left).
  destruct (config r) as [c |] eqn:C;
    [| eapply Hnone; [| apply POST_invalid; auto]; now left].
  replace (Returned r) with (chatRequest (ch :: msg') c)
    by (destruct r; cbn in *; now subst).
  eexists _, _. split; [now apply POST_run |].
  pose proof (count_searchCalls (ch :: msg') c) as (S1 & S2 & S3).
  unfold postOutcome. cbv zeta.
  destruct (shadowMode c).
  - destruct (fst (callOpenAI w (ch :: msg') c [])) as [gen | e]; cbn [fst snd].
    + pose proof (count_storeOutcome w (ch :: msg') (content gen) c) as (O1 & O2 & O3).
      apply Hpack; rewrite ?count_app; auto;
        destruct (hit (searchOutcome w (ch :: msg') c)); cbn; try lia; auto.
    + apply Hpack; rewrite ?count_app; cbn; auto; try lia.
  - destruct (searchOutcome w (ch :: msg') c).
    + destruct (fst (callOpenAI w (ch :: msg') c [])) as [gen | e]; cbn [fst snd].
      * pose proof (count_storeOutcome w (ch :: msg') (content gen) c) as (O1 & O2 & O3).
        apply Hpack; rewrite ?count_app; cbn; auto; try lia.
      * apply Hpack; rewrite ?count_app; cbn; auto; try lia.
    + apply Hpack; cbn [fst snd]; auto; try lia.
Qed.

(** A failure of the generation service is fatal to the turn: in shadow
    mode, and in normal mode after a cache miss, when [callOpenAI] throws
    the route answers 500 with the error's message, and the calls issued
    are the cache search and the one generation call: nothing is stored
    and the call is not retried. *)
Theorem generation_failure_is_fatal
    (w : World) (msg : jsstring) (c : Config) (t : list Event) (e : jsstring) :
  msg <> [] ->
  shadowMode c = true \/ fst (searchLangCache w msg c t) = Returned Miss ->
  fst (callOpenAI w msg c []) = Thrown e ->
  POST w (chatRequest msg c) t
  = (Returned (respond 500 [("error", Some (JStr e))]%string),
     t ++ searchCalls msg c ++ [GenerationCall (generationRequest msg c)]).
Proof.
  intros Hmsg Hpath Hgen. rewrite POST_run by assumption.
  unfold postOutcome. cbv zeta. rewrite Hgen.
  destruct (shadowMode c); [reflexivity |].
  destruct Hpath as [Hp | Hp]; [discriminate |].
  rewrite searchLangCache_calls in Hp. injection Hp as ->. reflexivity.
Qed.

Lemma generation_failure_is_fatal_witness :
  POST generation_down (chatRequest (lit "Q") (demo_config false)) []
  = (Returned (respond 500 [("error", Some (JStr (lit "OpenAI API error: 503")))]%string),
     [SearchCall (searchRequest (lit "Q") (demo_config false));
      GenerationCall (generationRequest (lit "Q") (demo_config false))]).
Proof.
  apply (generation_failure_is_fatal generation_down (lit "Q") (demo_config false) []).
  - discriminate.
  - right. vm_compute. reflexivity.
  - vm_compute. reflexivity.
Defined.

Lemma missResponse_fields (msg : jsstring) (gen : Generation) :
  let r := missResponse msg gen in
  status r = 200
  /\ field "content" r = Some (Some (content gen))
  /\ field "cached" r = Some (Some (JBool false))
  /\ field "tokensUsed" r = Some (Some (tokensUsed gen))
  /\ field "tokensSaved" r = None
  /\ field "similarity" r = None.
Proof. repeat split. Qed.

(** Normal mode, cache miss, generation succeeds: the route answers 200
    with the generation's content, [cached = false] and its token usage
    (no [tokensSaved], no [similarity]); it issues the cache search, the
    generation call, and then the store, which carries the trimmed query
    and the trimmed content whenever the cache is configured and the
    content is a text. *)
Theorem normal_mode_miss_generates_and_stores
    (w : World) (msg : jsstring) (c : Config) (t : list Event) (gen : Generation) :
  msg <> [] ->
  shadowMode c = false ->
  fst (searchLangCache w msg c t) = Returned Miss ->
  fst (callOpenAI w msg c []) = Returned gen ->
  let r := missResponse msg gen in
  exists stores,
    POST w (chatRequest msg c) t
    = (Returned r,
       t ++ searchCalls msg c ++ [GenerationCall (generationRequest msg c)] ++ stores)
    /\ (forall text, configured c = true -> content gen = JStr text ->
        stores = [StoreCall (storeRequest msg text c)]
        /\ member (lit "prompt") (body (storeRequest msg text c)) = Some (JStr (trim msg))
        /\ member (lit "response") (body (storeRequest msg text c))
           = Some (JStr (trim text)))
    /\ (configured c = false -> stores = [])
    /\ status r = 200
    /\ field "content" r = Some (Some (content gen))
    /\ field "cached" r = Some (Some (JBool false))
    /\ field "tokensUsed" r = Some (Some (tokensUsed gen))
    /\ field "tokensSaved" r = None
    /\ field "similarity" r = None.
Proof.
  intros Hmsg Hnormal Hmiss Hgen r.
  exists (snd (storeOutcome w msg (content gen) c)).
  split; [| split; [| split; [| apply missResponse_fields]]].
  - rewrite POST_run by assumption. unfold postOutcome. cbv zeta.
    rewrite Hnormal, Hgen. rewrite searchLangCache_calls in Hmiss.
    injection Hmiss as ->. reflexivity.
  - intros text Hc Ht. unfold storeOutcome. rewrite Hc, Ht. repeat split.
  - intros Hc. unfold storeOutcome. now rewrite Hc.
Qed.

Lemma normal_mode_miss_generates_and_stores_witness :
  POST cache_empty (chatRequest (lit "Q") (demo_config false)) []
  = (Returned (missResponse (lit "Q") generation_G),
     [SearchCall (searchRequest (lit "Q") (demo_config false));
      GenerationCall (generationRequest (lit "Q") (demo_config false));
      StoreCall (storeRequest (lit "Q") (lit "G") (demo_config false))]).
Proof.
  destruct (normal_mode_miss_generates_and_stores cache_empty (lit "Q") (demo_config false)
              [] generation_G)
    as (stores & Hpost & Hstore & _).
  - discriminate.
  - reflexivity.
  - vm_compute. reflexivity.
  - vm_compute. reflexivity.
  - destruct (Hstore (lit "G") eq_refl eq_refl) as (-> & _). exact Hpost.
Defined.

(** Shadow mode stores on a miss only: when the generation call succeeds,
    exactly one generation call is issued, and a store call is issued
    exactly when the cache search missed, the cache is configured and the
    generated content is a text. *)
Theorem shadow_mode_stores_on_miss_only
    (w : World) (msg : jsstring) (c : Config) (t : list Event) (gen : Generation) :
  msg <> [] ->
  shadowMode c = true ->
  fst (callOpenAI w msg c []) = Returned gen ->
  exists cacheResult calls,
    fst (searchLangCache w msg c t) = Returned cacheResult
    /\ snd (POST w (chatRequest msg c) t) = t ++ calls
    /\ count is_generation calls = 1%nat
    /\ (count is_store calls <= 1)%nat
    /\ (count is_store calls = 1%nat <->
        hit cacheResult = false /\ configured c = true
        /\ exists text, content gen = JStr text).
Proof.
  intros Hmsg Hshadow Hgen.
  exists (searchOutcome w msg c). eexists.
  split; [now rewrite searchLangCache_calls |].
  rewrite POST_run by assumption. cbn [snd]. split; [reflexivity |].
  unfold postOutcome. cbv zeta. rewrite Hshadow, Hgen. cbn [snd].
  pose proof (count_searchCalls msg c) as (S1 & S2 & S3).
  rewrite !count_app, S2, S3.
  destruct (hit (searchOutcome w msg c)).
  - cbn. split; [reflexivity |]. split; [lia |]. split; [discriminate |].
    intros (H & _). discriminate.
  - unfold storeOutcome. destruct (configured c).
    + destruct (content gen) eqn:E; cbn;
        (split; [reflexivity |]); (split; [lia |]);
        (split; [try discriminate; eauto
                | try reflexivity; intros (_ & _ & text & Ht); discriminate]).
    + cbn. split; [reflexivity |]. split; [lia |]. split; [discriminate |].
      intros (_ & H & _). discriminate.
Qed.

Lemma shadow_mode_stores_on_miss_only_witness :
  exists calls,
    snd (POST cache_empty (chatRequest (lit "Q") (demo_config true)) []) = [] ++ calls
    /\ count is_generation calls = 1%nat
    /\ count is_store calls = 1%nat.
Proof.
  destruct (shadow_mode_stores_on_miss_only cache_empty (lit "Q") (demo_config true)
              [] generation_G)
    as (cacheResult & calls & Hsearch & Hpost & Hgen & _ & Hstore).
  - discriminate.
  - reflexivity.
  - vm_compute. reflexivity.
  - exists calls. split; [exact Hpost |]. split; [exact Hgen |].
    apply Hstore. vm_compute in Hsearch. injection Hsearch as <-.
    split; [reflexivity |]. split; [reflexivity |]. now exists (lit "G").
Defined.

(** [POST] answers 400 exactly on a parsed request that has no message, an
    empty message or no configuration, and then contacts no service; a
    body that does not parse is answered 500 with the parser's message. *)
Theorem bad_request_iff (w : World) (t : list Event) :
  (forall r,
      (exists response, answer (POST w (Returned r) t) = Some response
                        /\ status response = 400)
      <-> invalid r)
  /\ (forall r, invalid r ->
        POST w (Returned r) t
        = (Returned (respond 400
                       [("error", Some (JStr (lit "Missing message or config")))]%string),
           t))
  /\ (forall e,
        POST w (Thrown e) t
        = (Returned (respond 500 [("error", Some (JStr e))]%string), t)).
Proof.
  split; [| split; [intros r; apply POST_invalid | reflexivity]].
  intros r. split.
  - intros (response & Ha & Hs). unfold invalid.
    destruct (message r) as [[| ch msg'] |] eqn:M; auto.
    destruct (config r) as [c |] eqn:C; auto. exfalso.
    replace (Returned r) with (chatRequest (ch :: msg') c) in Ha
      by (destruct r; cbn in *; now subst).
    unfold answer in Ha. rewrite POST_run in Ha by discriminate. cbn [fst] in Ha.
    injection Ha as <-. unfold postOutcome in Hs. cbv zeta in Hs.
    destruct (shadowMode c);
      [| destruct (searchOutcome w (ch :: msg') c)];
      try destruct (fst (callOpenAI w (ch :: msg') c [])); cbn in Hs; discriminate.
  - intros H. eexists. unfold answer. rewrite POST_invalid by assumption.
    split; reflexivity.
Qed.

(** [storeInLangCache] is best effort: it never throws, it issues at most
    one call (never a search or a generation), and it resolves to [true]
    exactly when the cache is configured, the response is a text and the
    backend acknowledged the store with a success status. *)
Theorem storeInLangCache_best_effort
    (w : World) (query : jsstring) (response : JSON) (c : Config) (t : list Event) :
  exists stored calls,
    storeInLangCache w query response c t = (Returned stored, t ++ calls)
    /\ (List.length calls <= 1)%nat
    /\ count is_store calls = List.length calls
    /\ (stored = true <->
        configured c = true
        /\ exists text code json,
             response = JStr text
             /\ fetch w (storeRequest query text c) = Response true code json).
Proof.
  eexists _, _. split; [apply storeInLangCache_run |].
  unfold storeOutcome. destruct (configured c).
  2:{ cbn. repeat split; try lia; try discriminate; try (intros (H & _); discriminate). }
  destruct response as [| b | x | text | items | fields]; cbn [fst snd];
    try (cbn; repeat split; try lia; try discriminate;
         intros (_ & text & code & json & H & _); discriminate).
  destruct (fetch w (storeRequest query text c)) as [e | ok code json] eqn:F; cbn.
  - split; [lia |]. split; [reflexivity |]. split; [discriminate |].
    intros (_ & text' & code & json & [= <-] & H). congruence.
  - split; [lia |]. split; [reflexivity |]. split.
    + intros ->. split; [reflexivity |]. eauto.
    + intros (_ & text' & code' & json' & [= <-] & H). congruence.
Qed.

(** The cache lookup ignores white space around the query: the query and
    the trimmed query issue the same request and get the same hit or miss,
    response and similarity. *)
Theorem lookup_ignores_surrounding_whitespace
    (w : World) (query : jsstring) (c : Config) (t : list Event) :
  searchRequest (trim query) c = searchRequest query c
  /\ exists r r' t',
       searchLangCache w query c t = (Returned r, t')
       /\ searchLangCache w (trim query) c t = (Returned r', t')
       /\ hit r' = hit r
       /\ response_of r' = response_of r
       /\ similarity r' = similarity r.
Proof.
  assert (searchRequest (trim query) c = searchRequest query c) as Hreq
    by (unfold searchRequest; now rewrite JsStringFacts.trim_idempotent).
  split; [exact Hreq |].
  eexists _, _, _. split; [apply searchLangCache_outcome |].
  split; [rewrite searchLangCache_outcome, Hreq; reflexivity |].
  unfold searchOutcome. rewrite Hreq.
  destruct (configured c); [| repeat split].
  destruct (fetch w (searchRequest query c)) as [e | [|] code [result | e]];
    cbv zeta;
    try destruct (opt_member (lit "response") _) as [response |];
    try destruct (truthy (Some response));
    repeat split.
Qed.

End ChatRouteMore.

(** ** Cosine similarity: symmetry *)

Module CosineMore.
Import Cosine CosineSpec CosineMoreSpec.
Local Open Scope float_scope.

(** Binary64 multiplication commutes. *)
Lemma mul_comm (x y : float) : x * y = y * x.
Proof.
  apply Prim2SF_inj. rewrite !mul_spec. unfold SF64mul.
  destruct (Prim2SF x) as [sx | sx | | sx mx ex], (Prim2SF y) as [sy | sy | | sy my ey];
    cbn [SFmul]; try reflexivity; try (now rewrite xorb_comm).
  now rewrite xorb_comm, Pos.mul_comm, Z.add_comm.
Qed.

Lemma accumulate_exchanged (a b : vector) (acc : Sums) :
  accumulate b a (exchanged acc) = exchanged (accumulate a b acc).
Proof.
  revert b acc. induction a as [| x a IH]; intros [| y b] acc; try reflexivity.
  cbn [accumulate]. rewrite <- IH. unfold exchanged. cbn [dotProduct normA normB].
  now rewrite (mul_comm y x).
Qed.

(** Both scorers are symmetric, bit for bit: [similarity(a, b)] and
    [similarity(b, a)] are the same number for all vectors, of equal
    length or not, NaN and infinities included. *)
Theorem cosineSimilarity_symmetric (a b : vector) :
  RedisVectorStoreScore.cosineSimilarity a b = RedisVectorStoreScore.cosineSimilarity b a
  /\ RAGSystemScore.cosineSimilarity a b = RAGSystemScore.cosineSimilarity b a.
Proof.
  unfold RedisVectorStoreScore.cosineSimilarity, RAGSystemScore.cosineSimilarity.
  rewrite (Nat.eqb_sym (List.length b) (List.length a)).
  destruct (Nat.eqb (List.length a) (List.length b)); cbn [negb]; [| split; reflexivity].
  assert (E : accumulate b a no_sums = exchanged (accumulate a b no_sums))
    by apply (accumulate_exchanged a b no_sums).
  cbv zeta. rewrite E. unfold exchanged. cbn [dotProduct normA normB].
  rewrite (orb_comm (normB _ =? 0)), (mul_comm (sqrt (normB _))).
  split; reflexivity.
Qed.

Lemma redis_zero_norm_witness :
  RedisVectorStoreScore.cosineSimilarity [0; -0] [1; infinity] = 0.
Proof.
  apply CosineFacts.redis_cosineSimilarity_zero_norm; [reflexivity |].
  left. apply Forall_cons; [now left |]. apply Forall_cons; [now right |]. apply Forall_nil.
Defined.

End CosineMore.

(** ** The order of binary64 numbers is transitive *)

Module FloatOrderMore.
Import FloatOrderSpec FloatOrderMoreSpec.

Lemma SFleb_place (x y : spec_float) :
  SFleb x y = true
  <-> is_nan_sf x = false /\ is_nan_sf y = false /\ lexle (place x) (place y).
Proof.
  unfold SFleb, lexle.
  destruct x as [sx | sx | | sx mx ex], y as [sy | sy | | sy my ey];
    try destruct sx; try destruct sy; cbn [SFcompare place is_nan_sf];
    try (split; [intros Hleb; try discriminate Hleb; repeat split; lia
                | intros (Hx & Hy & Hlex); try discriminate; try reflexivity; lia]).
  - change (Pos.compare_cont Eq mx my) with (Pos.compare mx my).
    destruct (Z.compare_spec ex ey), (Pos.compare_spec mx my); cbn [CompOpp];
      (split; [intros Hleb; try discriminate Hleb; repeat split; lia
              | intros (Hx & Hy & Hlex); try discriminate; try reflexivity; lia]).
  - change (Pos.compare_cont Eq mx my) with (Pos.compare mx my).
    destruct (Z.compare_spec ex ey), (Pos.compare_spec mx my);
      (split; [intros Hleb; try discriminate Hleb; repeat split; lia
              | intros (Hx & Hy & Hlex); try discriminate; try reflexivity; lia]).
Qed.

Lemma lexle_trans (p q r : Z * Z * Z) : lexle p q -> lexle q r -> lexle p r.
Proof.
  destruct p as [[a1 b1] c1], q as [[a2 b2] c2], r as [[a3 b3] c3].
  unfold lexle. lia.
Qed.

Lemma leb_trans (a b c : float) :
  (a <=? b)%float = true -> (b <=? c)%float = true -> (a <=? c)%float = true.
Proof.
  rewrite !leb_spec, !SFleb_place.
  intros (Ha & Hb & Hab) (_ & Hc & Hbc). repeat split; try assumption.
  eapply lexle_trans; eassumption.
Qed.

Lemma positive_not_below (t : float) :
  (0 <? t)%float = true -> (t <=? 0)%float = false.
Proof.
  rewrite ltb_spec, leb_spec. change (Prim2SF 0) with (S754_zero false).
  unfold SFltb, SFleb.
  destruct (Prim2SF t) as [s | [|] | | [|] m e]; cbn; congruence.
Qed.

End FloatOrderMore.

(** ** The vector search: what it returns *)

Module SearchMore.
Import Cosine CosineSpec RedisVectorStore SearchSpec SearchMoreSpec SearchFacts.
Local Open Scope float_scope.

Section Sorting.

Context {A : Type}.
Variable compare : A -> A -> float.

Lemma in_insert (x y : A) (l : list A) :
  In x (ArraySort.insert compare y l) <-> x = y \/ In x l.
Proof.
  induction l as [| z l IH]; cbn [ArraySort.insert].
  - cbn. intuition congruence.
  - destruct (0 <? compare y z); cbn [In]; [rewrite IH |]; intuition congruence.
Qed.

Lemma in_sort (x : A) (l : list A) : In x (ArraySort.sort compare l) <-> In x l.
Proof.
  induction l as [| y l IH]; [cbn; tauto |].
  change (ArraySort.sort compare (y :: l))
    with (ArraySort.insert compare y (ArraySort.sort compare l)).
  rewrite in_insert, IH. cbn. intuition congruence.
Qed.

Lemma length_insert (y : A) (l : list A) :
  List.length (ArraySort.insert compare y l) = S (List.length l).
Proof.
  induction l as [| z l IH]; cbn [ArraySort.insert]; [reflexivity |].
  destruct (0 <? compare y z); cbn [List.length]; congruence.
Qed.

Lemma length_sort (l : list A) : List.length (ArraySort.sort compare l) = List.length l.
Proof.
  induction l as [| y l IH]; [reflexivity |].
  change (ArraySort.sort compare (y :: l))
    with (ArraySort.insert compare y (ArraySort.sort compare l)).
  rewrite length_insert, IH. reflexivity.
Qed.

End Sorting.

Lemma slice_to_prefix {A} (limit : Z) (l : list A) :
  exists dropped, l = slice_to limit l ++ dropped.
Proof. unfold slice_to. eexists. symmetry. apply firstn_skipn. Qed.

Lemma slice_to_all {A} (limit : Z) (l : list A) :
  (Z.of_nat (List.length l) <= limit)%Z -> slice_to limit l = l.
Proof.
  intros H. unfold slice_to.
  destruct (limit <? 0)%Z eqn:E; [apply Z.ltb_lt in E; lia |].
  apply firstn_all2. lia.
Qed.

Lemma sorted_prefix_outranks {A} (rank : A -> float) (kept dropped : list A) :
  Sorted (not_below rank) (kept ++ dropped) ->
  forall x y, In x kept -> In y dropped -> (rank y <=? rank x) = true.
Proof.
  intros Hs. apply Sorted_StronglySorted in Hs.
  - induction kept as [| z kept IH]; intros x y Hx Hy; [destruct Hx |].
    cbn in Hs. inversion Hs as [| ? ? Hs' Hall]; subst.
    destruct Hx as [<- | Hx]; [| now apply IH].
    rewrite List.Forall_forall in Hall. apply Hall. apply in_or_app. now right.
  - intros a b c Hab Hbc. unfold not_below in *.
    eapply FloatOrderMore.leb_trans; eassumption.
Qed.

Lemma collect_found (w : World) (query : vector) (threshold : float)
    (results : list SearchResult) (key : jsstring) :
  collect w query threshold results key = results ++ found w query threshold key.
Proof.
  unfold collect, found, candidate.
  destruct (hgetall w key) as [| | i d c [embedding |] [parsed |]];
    cbn [score]; try (now rewrite app_nil_r).
  - destruct (threshold <=? _); [reflexivity | now rewrite app_nil_r].
  - destruct (threshold <=? _); now rewrite app_nil_r.
Qed.

Lemma fold_collect (w : World) (query : vector) (threshold : float)
    (documentKeys : list jsstring) (results : list SearchResult) :
  fold_left (collect w query threshold) documentKeys results
  = results ++ flat_map (found w query threshold) documentKeys.
Proof.
  revert results. induction documentKeys as [| key documentKeys IH]; intros results; cbn.
  - now rewrite app_nil_r.
  - now rewrite IH, collect_found, <- app_assoc.
Qed.

Lemma in_found (w : World) (query : vector) (threshold : float) (key : jsstring)
    (r : SearchResult) :
  In r (found w query threshold key) <-> matches w query threshold key r.
Proof.
  unfold found, matches. destruct (candidate w query key) as [c |].
  - destruct (threshold <=? score c) eqn:E; cbn.
    + split; [intros [<- | []]; auto | intros [[= ->] _]; auto].
    + split; [tauto | intros [[= ->] H]; congruence].
  - cbn. split; [tauto | intros [[=] _]].
Qed.

Lemma in_collected (w : World) (query : vector) (threshold : float)
    (documentKeys : list jsstring) (r : SearchResult) :
  In r (fold_left (collect w query threshold) documentKeys [])
  <-> exists key, In key documentKeys /\ matches w query threshold key r.
Proof.
  rewrite fold_collect. cbn [app]. rewrite in_flat_map.
  split; intros (key & Hk & H); exists key; (split; [exact Hk |]); now apply in_found.
Qed.

Lemma length_collected (w : World) (query : vector) (threshold : float)
    (documentKeys : list jsstring) :
  (List.length (fold_left (collect w query threshold) documentKeys [])
   <= List.length documentKeys)%nat.
Proof.
  rewrite fold_collect. cbn [app].
  induction documentKeys as [| key documentKeys IH]; cbn; [lia |].
  rewrite length_app. unfold found at 1.
  destruct (candidate w query key) as [c |]; [destruct (threshold <=? score c) |]; cbn; lia.
Qed.

(** A chunk the store cannot deliver costs nothing but itself: a key whose
    HGETALL fails, whose hash has no embedding, or whose embedding or
    metadata does not parse is passed over, and the search returns what it
    returns on the store without that key. *)
Theorem searchSimilar_skips_unreadable
    (w : World) (before after : list jsstring) (bad : jsstring)
    (queryEmbedding : vector) (limit : Z) (threshold : float) :
  unreadable w bad ->
  searchSimilar (with_keys w (before ++ bad :: after)) queryEmbedding limit threshold
  = searchSimilar (with_keys w (before ++ after)) queryEmbedding limit threshold.
Proof.
  intros Hbad. unfold searchSimilar. cbn [ping ping_error keys with_keys].
  destruct (negb (ping w)); [reflexivity |].
  change (collect (with_keys w (before ++ bad :: after))) with (collect w).
  change (collect (with_keys w (before ++ after))) with (collect w).
  rewrite !fold_collect, !flat_map_app. cbn [flat_map].
  unfold found at 2. now rewrite (Hbad queryEmbedding).
Qed.

Lemma searchSimilar_skips_unreadable_witness :
  unreadable damaged (lit "doc:d:chunk:bad")
  /\ searchSimilar damaged [1; 0] 5 0.5
     = searchSimilar
         (with_keys damaged [lit "doc:d:chunk:0"; lit "doc:d:chunk:1"; lit "doc:d:chunk:2"])
         [1; 0] 5 0.5.
Proof.
  assert (H : unreadable damaged (lit "doc:d:chunk:bad")) by (intros query; reflexivity).
  split; [exact H |].
  exact (searchSimilar_skips_unreadable damaged [lit "doc:d:chunk:0"]
           [lit "doc:d:chunk:1"; lit "doc:d:chunk:2"] (lit "doc:d:chunk:bad")
           [1; 0] 5 0.5 H).
Defined.

(** What the search returns is what the store holds: every result is the
    hash of one of the keys, scored against the query and at or above the
    threshold; and when the limit is at least the number of keys, every
    such hash is returned. *)
Theorem searchSimilar_sound_and_complete
    (w : World) (documentKeys : list jsstring)
    (queryEmbedding : vector) (limit : Z) (threshold : float) :
  ping w = true ->
  keys w = Some documentKeys ->
  exists results,
    searchSimilar w queryEmbedding limit threshold = Returned results
    /\ (forall r, In r results ->
                  exists key, In key documentKeys
                              /\ matches w queryEmbedding threshold key r)
    /\ ((Z.of_nat (List.length documentKeys) <= limit)%Z ->
        forall key r, In key documentKeys ->
                      matches w queryEmbedding threshold key r -> In r results).
Proof.
  intros Hping Hkeys. unfold searchSimilar. rewrite Hping, Hkeys. cbn [negb].
  eexists. split; [reflexivity |]. split.
  - intros r Hr. apply in_collected. eapply in_sort.
    destruct (slice_to_prefix limit
                (ArraySort.sort by_score
                   (fold_left (collect w queryEmbedding threshold) documentKeys [])))
      as [dropped E].
    rewrite E. apply in_or_app. left. exact Hr.
  - intros Hlimit key r Hkey Hr. rewrite slice_to_all.
    + apply in_sort. apply in_collected. eauto.
    + rewrite length_sort.
      pose proof (length_collected w queryEmbedding threshold documentKeys). lia.
Qed.

Lemma searchSimilar_sound_and_complete_witness :
  exists results,
    searchSimilar three_chunks [1; 0] 5 0.5 = Returned results
    /\ (forall r, In r results ->
                  exists key,
                    In key [lit "doc:d:chunk:0"; lit "doc:d:chunk:1"; lit "doc:d:chunk:2"]
                    /\ matches three_chunks [1; 0] 0.5 key r)
    /\ forall key r,
         In key [lit "doc:d:chunk:0"; lit "doc:d:chunk:1"; lit "doc:d:chunk:2"] ->
         matches three_chunks [1; 0] 0.5 key r -> In r results.
Proof.
  destruct (searchSimilar_sound_and_complete three_chunks
              [lit "doc:d:chunk:0"; lit "doc:d:chunk:1"; lit "doc:d:chunk:2"]
              [1; 0] 5 0.5 eq_refl eq_refl) as (results & Hrun & Hsound & Hcomplete).
  exists results. split; [exact Hrun |]. split; [exact Hsound |].
  apply Hcomplete. cbn. lia.
Defined.

(** The limit cuts from the bottom: whatever limit is given, a chunk that
    matches the query and is not returned scores no higher than any chunk
    that is returned. *)
Theorem searchSimilar_keeps_the_best
    (w : World) (documentKeys : list jsstring)
    (queryEmbedding : vector) (limit : Z) (threshold : float)
    (results : list SearchResult) :
  keys w = Some documentKeys ->
  searchSimilar w queryEmbedding limit threshold = Returned results ->
  forall key m r,
    In key documentKeys -> matches w queryEmbedding threshold key m ->
    In r results ->
    In m results \/ (score m <=? score r) = true.
Proof.
  intros Hkeys Hrun key m r Hkey Hm Hr. unfold searchSimilar in Hrun.
  destruct (negb (ping w)); [discriminate |]. rewrite Hkeys in Hrun.
  injection Hrun as <-.
  set (all := fold_left (collect w queryEmbedding threshold) documentKeys []) in *.
  assert (Hall : In m (ArraySort.sort by_score all))
    by (apply in_sort, in_collected; eauto).
  destruct (slice_to_prefix limit (ArraySort.sort by_score all)) as [dropped E].
  rewrite E in Hall. apply in_app_or in Hall. destruct Hall as [Hin | Hout]; [now left |].
  right.
  apply (sorted_prefix_outranks score (slice_to limit (ArraySort.sort by_score all)) dropped);
    try assumption.
  rewrite <- E. apply (sort_sorted score threshold).
  apply collected_pass. constructor.
Qed.

Lemma searchSimilar_keeps_the_best_witness :
  In half_match [full_match] \/ (score half_match <=? score full_match) = true.
Proof.
  apply (searchSimilar_keeps_the_best three_chunks
           [lit "doc:d:chunk:0"; lit "doc:d:chunk:1"; lit "doc:d:chunk:2"]
           [1; 0] 1 0.5 [full_match] eq_refl eq_refl (lit "doc:d:chunk:1"));
    [right; now left | split; reflexivity | now left].
Defined.

(** With a positive threshold, as the default 0.7 is, a result always has
    an embedding of the query's dimension, and neither it nor the query is
    a vector of zeros: the score of the others is 0. *)
Theorem positive_threshold_needs_comparable_vectors
    (w : World) (queryEmbedding : vector) (limit : Z) (threshold : float)
    (results : list SearchResult) :
  (0 <? threshold) = true ->
  searchSimilar w queryEmbedding limit threshold = Returned results ->
  forall r, In r results ->
    exists key embedding,
      hgetall w key
      = Hash (id r) (documentId r) (content r) (Some embedding) (Some (metadata r))
      /\ List.length embedding = List.length queryEmbedding
      /\ ~ Forall is_zero embedding
      /\ ~ Forall is_zero queryEmbedding.
Proof.
  intros Hpos Hrun r Hr. unfold searchSimilar in Hrun.
  destruct (negb (ping w)); [discriminate |].
  destruct (keys w) as [documentKeys |]; [| injection Hrun as <-; destruct Hr].
  injection Hrun as <-.
  destruct (slice_to_prefix limit
              (ArraySort.sort by_score
                 (fold_left (collect w queryEmbedding threshold) documentKeys [])))
    as [dropped E].
  assert (Hall : In r (ArraySort.sort by_score
                         (fold_left (collect w queryEmbedding threshold) documentKeys [])))
    by (rewrite E; apply in_or_app; now left).
  apply in_sort, in_collected in Hall. destruct Hall as (key & _ & Hcand & Hscore).
  unfold candidate in Hcand.
  destruct (hgetall w key) as [| | i d c [embedding |] [parsed |]] eqn:Hhash;
    try discriminate.
  injection Hcand as <-. cbn [id documentId content score metadata] in *.
  exists key, embedding. split; [exact Hhash |].
  pose proof (FloatOrderMore.positive_not_below threshold Hpos) as Hzero.
  assert (Hnot : RedisVectorStoreScore.cosineSimilarity queryEmbedding embedding <> 0)
    by (intros E0; rewrite E0 in Hscore; congruence).
  unfold RedisVectorStoreScore.cosineSimilarity in Hnot.
  destruct (Nat.eqb (List.length queryEmbedding) (List.length embedding)) eqn:Hlen;
    cbn [negb] in Hnot; [| congruence].
  apply Nat.eqb_eq in Hlen. split; [now symmetry |]. cbv zeta in Hnot.
  split; intros Hz; apply Hnot.
  - rewrite (CosineFacts.accumulate_zero_b queryEmbedding embedding no_sums Hz eq_refl).
    now rewrite orb_true_r.
  - now rewrite (CosineFacts.accumulate_zero_a queryEmbedding embedding no_sums Hz eq_refl).
Qed.

Lemma positive_threshold_needs_comparable_vectors_witness :
  exists key embedding,
    hgetall three_chunks key
    = Hash (id full_match) (documentId full_match) (content full_match)
        (Some embedding) (Some (metadata full_match))
    /\ List.length embedding = 2%nat
    /\ ~ Forall is_zero embedding
    /\ ~ Forall is_zero [1; 0].
Proof.
  apply (positive_threshold_needs_comparable_vectors three_chunks [1; 0] 1 0.5
           [full_match] eq_refl eq_refl full_match).
  now left.
Defined.

(** *** The search of the RAG system *)

Lemma rag_collect_thrown (config : RAGSystem.RAGConfig) (w : RAGSearch.World)
    (query : vector) (chunkKeys : list jsstring) (e : jsstring) :
  fold_left (RAGSearch.collect config w query) chunkKeys (Thrown e) = Thrown e.
Proof. induction chunkKeys as [| key chunkKeys IH]; [reflexivity | exact IH]. Qed.

Lemma rag_collect_unparsable (config : RAGSystem.RAGConfig) (w : RAGSearch.World)
    (query : vector) (chunkKeys : list jsstring) (key e : jsstring)
    (found : Outcome (list RAGSearch.Scored)) :
  In key chunkKeys ->
  RAGSearch.stored_embedding (RAGSearch.hgetall w key) = Some (Thrown e) ->
  exists e', fold_left (RAGSearch.collect config w query) chunkKeys found = Thrown e'.
Proof.
  intros Hin Hbad. revert found.
  induction chunkKeys as [| k chunkKeys IH]; intros found; [destruct Hin |].
  cbn [fold_left]. destruct Hin as [-> | Hin]; [| now apply IH].
  unfold RAGSearch.collect at 2. destruct found as [similarChunks | e0].
  - rewrite Hbad. rewrite rag_collect_thrown. eauto.
  - rewrite rag_collect_thrown. eauto.
Qed.

(** The search of the RAG system has no guard of its own: once the query
    has its embedding, one stored chunk whose embedding is no JSON makes
    the whole search throw, whatever else is stored. *)
Theorem rag_search_fails_on_one_damaged_chunk
    (config : RAGSystem.RAGConfig) (w : RAGSearch.World) (query : jsstring)
    (limit : Z) (embedded : vector) (key e : jsstring) :
  RAGSearch.queryEmbedding w query = Some embedded ->
  In key (RAGSearch.chunkKeys w) ->
  RAGSearch.stored_embedding (RAGSearch.hgetall w key) = Some (Thrown e) ->
  exists e', RAGSearch.searchSimilarChunks config w query limit = Thrown e'.
Proof.
  intros Hq Hin Hbad. unfold RAGSearch.searchSimilarChunks, RAGSearch.ranked. rewrite Hq.
  destruct (rag_collect_unparsable config w embedded _ key e (Returned []) Hin Hbad)
    as [e' ->].
  eauto.
Qed.

Lemma rag_search_fails_on_one_damaged_chunk_witness :
  exists e',
    RAGSearch.searchSimilarChunks ChunkerSpec.standard RAGSearchMoreSpec.one_damaged_chunk
      (lit "q") 5 = Thrown e'.
Proof.
  apply (rag_search_fails_on_one_damaged_chunk ChunkerSpec.standard
           RAGSearchMoreSpec.one_damaged_chunk (lit "q") 5 [1]
           (lit "chunk:d_chunk_0") (lit "Unexpected token"));
    [reflexivity | now left | reflexivity].
Defined.

(** The client the RAG system builds for itself answers KEYS with no key,
    so its search finds nothing: it returns the empty list for every
    query, limit and configuration, whatever was stored before. *)
Theorem rag_search_without_keys_finds_nothing
    (config : RAGSystem.RAGConfig) (w : RAGSearch.World) (query : jsstring) (limit : Z) :
  RAGSearch.chunkKeys w = [] ->
  RAGSearch.searchSimilarChunks config w query limit = Returned [].
Proof.
  intros Hkeys. unfold RAGSearch.searchSimilarChunks, RAGSearch.ranked. rewrite Hkeys.
  destruct (RAGSearch.queryEmbedding w query); [| reflexivity].
  cbn [fold_left ArraySort.sort fold_right]. unfold slice_to. cbn [List.length].
  now rewrite firstn_nil.
Qed.

Lemma rag_search_without_keys_finds_nothing_witness :
  RAGSearch.searchSimilarChunks ChunkerSpec.standard
    (repository_client (fun _ => Some [1])) (lit "q") 5 = Returned [].
Proof.
  apply rag_search_without_keys_finds_nothing. reflexivity.
Defined.

End SearchMore.

(** ** The chunkers: the shape of every chunk *)

Module ChunkerMore.
Import ChunkerSpec ChunkerMoreSpec ChunkerFacts JsStringFacts.

(** *** Printing numbers *)

Lemma lit_inj (s t : String.string) : lit s = lit t -> s = t.
Proof.
  unfold lit. intros H.
  rewrite <- (String.string_of_list_ascii_of_string s),
          <- (String.string_of_list_ascii_of_string t).
  f_equal. revert H.
  generalize (String.list_ascii_of_string s) (String.list_ascii_of_string t).
  intros l. induction l as [| a l IH]; intros [| b m] H; try discriminate; [reflexivity |].
  cbn in H. injection H as Hab Hlm. f_equal; [| now apply IH].
  rewrite <- (Ascii.ascii_N_embedding a), <- (Ascii.ascii_N_embedding b). now f_equal.
Qed.

Lemma to_int_not_nil (z : Z) :
  Z.to_int z <> Decimal.Pos Decimal.Nil /\ Z.to_int z <> Decimal.Neg Decimal.Nil.
Proof.
  destruct z as [| p | p]; cbn; split; try discriminate;
    intros [= H]; now apply DecimalPos.Unsigned.to_uint_nonnil in H.
Qed.

Lemma of_Z_inj (a b : Z) : JsString.of_Z a = JsString.of_Z b -> a = b.
Proof.
  unfold JsString.of_Z. intros H. apply lit_inj in H.
  apply DecimalZ.to_int_inj.
  destruct (to_int_not_nil a) as [Ha1 Ha2], (to_int_not_nil b) as [Hb1 Hb2].
  pose proof (NilZero.isi _ Ha1 Ha2) as Ea. pose proof (NilZero.isi _ Hb1 Hb2) as Eb.
  rewrite H in Ea. congruence.
Qed.

Lemma chunk_id_inj (documentId : jsstring) (i j : nat) :
  chunk_id documentId i = chunk_id documentId j -> i = j.
Proof.
  unfold chunk_id, JsString.of_nat. intros H.
  apply app_inv_head, app_inv_head, of_Z_inj in H. lia.
Qed.

(** *** Texts that are not blank *)

Lemma not_blank_app (a b : jsstring) : trim b <> [] -> trim (a ++ b) <> [].
Proof.
  intros Hb H. apply Hb. apply trim_nil. apply trim_nil in H.
  rewrite forallb_app in H. now apply andb_prop in H as [_ H].
Qed.

Lemma trimmed_trim (s : jsstring) : trim s <> [] -> trimmed (trim s).
Proof. intros H. split; [exact H | apply trim_idempotent]. Qed.

Lemma open_text_cases (s : jsstring) :
  open_text s -> (0 <? List.length s)%nat = true -> trim s <> [].
Proof.
  intros [-> | H] Hlen; [discriminate | exact H].
Qed.

(** *** The loop keeps well-formed chunks *)

Lemma rag_step_shaped (config : RAGSystem.RAGConfig) (documentId : jsstring)
    (st : RAGSystem.Chunking) (raw : jsstring) :
  rag_shaped_state documentId st ->
  rag_shaped_state documentId (RAGSystem.chunk_step config documentId st raw).
Proof.
  intros [Hchunks Hopen]. unfold RAGSystem.chunk_step.
  destruct (trim raw) as [| ch sentence] eqn:E; [now split |]. cbv zeta.
  assert (Hs : trim (ch :: sentence) <> []).
  { rewrite <- E. apply trim_trim_not_nil. congruence. }
  destruct (exceeds _ _ && _) eqn:B.
  - apply andb_prop in B as [_ B]. split; cbn [RAGSystem.chunks RAGSystem.currentChunk].
    + apply Forall_app. split; [exact Hchunks |]. constructor; [| constructor].
      repeat split; try reflexivity; cbn [RAGSystem.content RAGSystem.make_chunk].
      * now apply open_text_cases.
      * apply trim_idempotent.
    + right. rewrite app_assoc. now apply not_blank_app.
  - split; cbn [RAGSystem.chunks RAGSystem.currentChunk]; [exact Hchunks |].
    right. rewrite app_assoc. now apply not_blank_app.
Qed.

Lemma route_step_shaped (documentId : jsstring)
    (st : ProcessRoute.Chunking) (raw : jsstring) :
  route_shaped_state documentId st ->
  route_shaped_state documentId (ProcessRoute.chunk_step documentId st raw).
Proof.
  intros [Hchunks Hopen]. unfold ProcessRoute.chunk_step.
  destruct (trim raw) as [| ch sentence] eqn:E; [now split |]. cbv zeta.
  assert (Hs : trim (ch :: sentence) <> []).
  { rewrite <- E. apply trim_trim_not_nil. congruence. }
  destruct (exceeds _ _ && _) eqn:B.
  - apply andb_prop in B as [_ B]. split; cbn [ProcessRoute.chunks ProcessRoute.currentChunk].
    + apply Forall_app. split; [exact Hchunks |]. constructor; [| constructor].
      repeat split; try reflexivity; cbn [ProcessRoute.content ProcessRoute.make_chunk].
      * now apply open_text_cases.
      * apply trim_idempotent.
    + right. rewrite app_assoc. now apply not_blank_app.
  - split; cbn [ProcessRoute.chunks ProcessRoute.currentChunk]; [exact Hchunks |].
    right. rewrite app_assoc. now apply not_blank_app.
Qed.

Lemma rag_chunks_shaped (config : RAGSystem.RAGConfig) (content documentId : jsstring) :
  Forall (rag_shaped documentId) (RAGSystem.chunkDocument config content documentId).
Proof.
  unfold RAGSystem.chunkDocument. set (st := fold_left _ _ _).
  assert (H : rag_shaped_state documentId st).
  { apply fold_left_invariant; [intros; now apply rag_step_shaped |].
    split; [constructor | now left]. }
  destruct H as [Hchunks _]. cbv zeta.
  destruct (trim (RAGSystem.currentChunk st)) as [| ch t] eqn:E; [exact Hchunks |].
  apply Forall_app. split; [exact Hchunks |]. constructor; [| constructor].
  repeat split; try reflexivity; cbn [RAGSystem.content RAGSystem.make_chunk].
  - congruence.
  - apply trim_idempotent.
Qed.

Lemma route_chunks_shaped (content documentId : jsstring) :
  Forall (route_shaped documentId) (ProcessRoute.chunkDocument content documentId).
Proof.
  unfold ProcessRoute.chunkDocument. set (st := fold_left _ _ _).
  assert (H : route_shaped_state documentId st).
  { apply fold_left_invariant; [intros; now apply route_step_shaped |].
    split; [constructor | now left]. }
  destruct H as [Hchunks _]. cbv zeta.
  destruct (trim (ProcessRoute.currentChunk st)) as [| ch t] eqn:E; [exact Hchunks |].
  apply Forall_app. split; [exact Hchunks |]. constructor; [| constructor].
  repeat split; try reflexivity; cbn [ProcessRoute.content ProcessRoute.make_chunk].
  - congruence.
  - apply trim_idempotent.
Qed.

(** Every chunk of either chunker belongs to the document it was cut
    from, is named [<documentId>_chunk_<chunkIndex>], has a content that is
    not empty and has no white space at its ends, and carries no embedding
    yet. *)
Theorem chunks_are_well_formed
    (config : RAGSystem.RAGConfig) (content documentId : jsstring) :
  Forall (rag_shaped documentId) (RAGSystem.chunkDocument config content documentId)
  /\ Forall (route_shaped documentId) (ProcessRoute.chunkDocument content documentId).
Proof. split; [apply rag_chunks_shaped | apply route_chunks_shaped]. Qed.

Lemma ids_of_indices {C : Type} (id : C -> jsstring) (index : C -> nat)
    (documentId : jsstring) (l : list C) (n : nat) :
  Forall (fun c => id c = chunk_id documentId (index c)) l ->
  map index l = seq 0 n ->
  NoDup (map id l).
Proof.
  intros Hid Hidx.
  assert (E : map id l = map (chunk_id documentId) (seq 0 n)).
  { rewrite <- Hidx, map_map. apply map_ext_Forall. exact Hid. }
  rewrite E. generalize (seq_NoDup n 0). generalize (seq 0 n).
  intros indices Hnd. induction Hnd as [| i indices Hi Hnd IH]; cbn; constructor;
    [| exact IH].
  intros Hin. apply in_map_iff in Hin as (j & Hj & Hin).
  apply chunk_id_inj in Hj. now subst j.
Qed.

(** No two chunks of a document share an id, so no two are stored under
    the same key. *)
Theorem chunk_ids_are_unique
    (config : RAGSystem.RAGConfig) (content documentId : jsstring) :
  NoDup (map RAGSystem.id (RAGSystem.chunkDocument config content documentId))
  /\ NoDup (map ProcessRoute.id (ProcessRoute.chunkDocument content documentId)).
Proof.
  split.
  - destruct (rag_chunkDocument_pushed config content documentId) as (s & Hidx & _).
    eapply ids_of_indices; [| exact Hidx].
    eapply Forall_impl; [| apply rag_chunks_shaped]. cbn. intros c H. apply H.
  - destruct (route_chunkDocument_pushed content documentId) as (s & Hidx & _).
    eapply ids_of_indices; [| exact Hidx].
    eapply Forall_impl; [| apply route_chunks_shaped]. cbn. intros c H. apply H.
Qed.

(** *** What the sentence patterns lose *)

Lemma sentence_scan_tail (s tail body stops : jsstring) :
  no_terminal tail ->
  sentence_scan (s ++ tail) body stops = sentence_scan s body stops.
Proof.
  intros Htail. revert body stops. induction s as [| c s IH]; intros body stops.
  - cbn [app]. destruct tail as [| c tail]; [reflexivity |].
    unfold no_terminal in Htail. cbn in Htail. apply andb_prop in Htail as [Hc Htail].
    cbn [sentence_scan]. destruct (is_terminal c); [discriminate |].
    destruct stops; now rewrite sentence_scan_no_terminal.
  - cbn [app sentence_scan]. destruct (is_terminal c).
    + destruct body; apply IH.
    + destruct stops; [apply IH | now rewrite IH].
Qed.

(** The RAG chunker sees only what ends in ".", "!" or "?": once a text
    has one sentence, whatever follows its last terminator is in no chunk,
    and the chunks are those of the text without it. *)
Theorem rag_chunker_drops_unterminated_tail
    (config : RAGSystem.RAGConfig) (content tail documentId : jsstring) :
  no_terminal tail ->
  match_sentences content <> None ->
  RAGSystem.chunkDocument config (content ++ tail) documentId
  = RAGSystem.chunkDocument config content documentId.
Proof.
  intros Htail Hsome. unfold RAGSystem.chunkDocument.
  enough (E : RAGSystem.sentences (content ++ tail) = RAGSystem.sentences content)
    by now rewrite E.
  unfold RAGSystem.sentences, match_sentences in *.
  rewrite sentence_scan_tail by assumption.
  destruct (sentence_scan content [] []); [congruence | reflexivity].
Qed.

Lemma rag_chunker_drops_unterminated_tail_witness :
  RAGSystem.chunkDocument standard (lit "Hello. " ++ lit "Goodbye") (lit "d")
  = RAGSystem.chunkDocument standard (lit "Hello. ") (lit "d").
Proof.
  apply rag_chunker_drops_unterminated_tail; [reflexivity | discriminate].
Defined.

Section Carried.

(** A property of code units that white space has. *)
Variable f : N -> bool.

Lemma forallb_trimStart (s : jsstring) :
  forallb f s = true -> forallb f (trimStart s) = true.
Proof.
  induction s as [| c s IH]; [auto |]. cbn [trimStart].
  destruct (is_space c); [| auto]. cbn. intros H. apply andb_prop in H as [_ H]. auto.
Qed.

Lemma forallb_trim (s : jsstring) : forallb f s = true -> forallb f (trim s) = true.
Proof.
  intros H. unfold trim, trimEnd. rewrite forallb_rev. apply forallb_trimStart.
  rewrite forallb_rev. now apply forallb_trimStart.
Qed.

Lemma forallb_split_scan (sep : N -> bool) (s piece : jsstring) (b : bool) :
  forallb f s = true -> forallb f piece = true ->
  Forall (fun p => forallb f p = true) (split_scan sep s piece b).
Proof.
  revert piece b. induction s as [| c s IH]; intros piece b Hs Hp; cbn [split_scan].
  - now repeat constructor.
  - cbn in Hs. apply andb_prop in Hs as [Hc Hs]. destruct (sep c).
    + destruct b; [| constructor; [exact Hp |]]; now apply IH.
    + apply IH; [exact Hs |]. rewrite forallb_app, Hp. cbn. now rewrite Hc.
Qed.

Lemma forallb_join (sep : jsstring) (parts : list jsstring) :
  forallb f sep = true -> Forall (fun p => forallb f p = true) parts ->
  forallb f (join sep parts) = true.
Proof.
  intros Hsep H. induction H as [| p parts Hp H IH]; [reflexivity |].
  destruct parts as [| q parts]; [exact Hp |].
  rewrite join_cons by discriminate. now rewrite !forallb_app, Hp, Hsep, IH.
Qed.

Lemma forallb_slice_from (start : Z) (parts : list jsstring) :
  Forall (fun p => forallb f p = true) parts ->
  Forall (fun p => forallb f p = true) (slice_from start parts).
Proof. intros H. unfold slice_from. now apply Forall_drop. Qed.

End Carried.

Lemma split_scan_separated (sep : N -> bool) (s piece : jsstring) (b : bool) :
  forallb (fun c => negb (sep c)) piece = true ->
  Forall (fun p => forallb (fun c => negb (sep c)) p = true) (split_scan sep s piece b).
Proof.
  revert piece b. induction s as [| c s IH]; intros piece b Hp; cbn [split_scan].
  - now repeat constructor.
  - destruct (sep c) eqn:E.
    + destruct b; [| constructor; [exact Hp |]]; now apply IH.
    + apply IH. rewrite forallb_app, Hp. cbn. now rewrite E.
Qed.

Lemma route_sentences_plain (content : jsstring) :
  Forall no_terminal (ProcessRoute.sentences content).
Proof.
  unfold ProcessRoute.sentences. apply List.Forall_forall. intros p Hp.
  apply filter_In in Hp as [Hp _].
  pose proof (split_scan_separated is_terminal content [] false eq_refl) as H.
  rewrite List.Forall_forall in H. now apply H.
Qed.

Lemma route_step_plain (documentId : jsstring) (st : ProcessRoute.Chunking)
    (sentence : jsstring) :
  no_terminal sentence -> route_plain_state st ->
  route_plain_state (ProcessRoute.chunk_step documentId st sentence).
Proof.
  intros Hs [Hchunks Hcur]. unfold ProcessRoute.chunk_step.
  pose proof (forallb_trim _ sentence Hs) as Ht.
  destruct (trim sentence) as [| ch trimmedSentence]; [now split |]. cbv zeta.
  destruct (exceeds _ _ && _).
  - split; cbn [ProcessRoute.chunks ProcessRoute.currentChunk].
    + apply Forall_app. split; [exact Hchunks |]. constructor; [| constructor].
      cbn [ProcessRoute.content ProcessRoute.make_chunk]. now apply forallb_trim.
    + unfold no_terminal. rewrite !forallb_app, Ht.
      rewrite forallb_join; [reflexivity | reflexivity |].
      apply forallb_slice_from. now apply forallb_split_scan.
  - split; cbn [ProcessRoute.chunks ProcessRoute.currentChunk]; [exact Hchunks |].
    unfold no_terminal in *. rewrite !forallb_app, Hcur, Ht.
    now destruct (ProcessRoute.currentChunk st).
Qed.

Lemma route_fold_plain (documentId : jsstring) (sentences : list jsstring)
    (st : ProcessRoute.Chunking) :
  Forall no_terminal sentences -> route_plain_state st ->
  route_plain_state (fold_left (ProcessRoute.chunk_step documentId) sentences st).
Proof.
  intros H. revert st. induction H as [| s sentences Hs H IH]; intros st Hst; [exact Hst |].
  cbn [fold_left]. apply IH. now apply route_step_plain.
Qed.

(** The endpoint's chunker splits at ".", "!" and "?" and puts none back:
    no chunk it returns has a sentence terminator in its content. *)
Theorem route_chunks_have_no_terminator (content documentId : jsstring) :
  Forall (fun c => no_terminal (ProcessRoute.content c))
    (ProcessRoute.chunkDocument content documentId).
Proof.
  unfold ProcessRoute.chunkDocument. set (st := fold_left _ _ _).
  assert (H : route_plain_state st).
  { apply route_fold_plain; [apply route_sentences_plain |].
    split; [constructor | reflexivity]. }
  destruct H as [Hchunks Hcur]. cbv zeta.
  destruct (trim (ProcessRoute.currentChunk st)) eqn:E; [exact Hchunks |].
  apply Forall_app. split; [exact Hchunks |]. constructor; [| constructor].
  cbn [ProcessRoute.content ProcessRoute.make_chunk]. now apply forallb_trim.
Qed.

End ChunkerMore.

(** ** Embedding the chunks and storing them *)

Module IngestionMore.
Import RAGSystem Redis RAGIngestion StoreSpec ChunkerSpec IngestionMoreSpec StoreFacts.

Lemma bare_bare (c : DocumentChunk) : bare (bare c) = bare c.
Proof. reflexivity. Qed.

Lemma bare_with_embedding (c : DocumentChunk) (v : list float) :
  bare (with_embedding c v) = bare c.
Proof. reflexivity. Qed.

Lemma attach_bare (batch : list DocumentChunk) (vs : list (list float)) :
  (List.length batch <= List.length vs)%nat ->
  attach batch vs = (paired batch vs, true) /\ map bare (paired batch vs) = map bare batch.
Proof.
  revert vs. induction batch as [| c batch IH]; intros vs H; [split; reflexivity |].
  destruct vs as [| v vs]; [cbn in H; lia |].
  destruct (IH vs) as [E B]; [cbn in H; lia |].
  cbn [attach]. rewrite E. split; [reflexivity |].
  unfold paired in *. cbn. now rewrite B.
Qed.

Lemma attach_short (batch : list DocumentChunk) (vs : list (list float)) :
  (List.length vs < List.length batch)%nat ->
  attach batch vs = (paired batch vs, false).
Proof.
  revert vs. induction batch as [| c batch IH]; intros vs H; [cbn in H; lia |].
  destruct vs as [| v vs]; [reflexivity |].
  cbn [attach]. rewrite IH by (cbn in H; lia). reflexivity.
Qed.

Lemma embed_batch_bare (service : list jsstring -> BatchResult)
    (batch : list DocumentChunk) :
  answers_in_full service ->
  map bare (embed_batch (service (map content batch)) batch) = map bare batch.
Proof.
  intros H. specialize (H (map content batch)). unfold embed_batch.
  destruct (service (map content batch)) as [| vs].
  - rewrite map_map. apply map_ext. intros c. apply bare_bare.
  - rewrite length_map in H. destruct (attach_bare batch vs H) as [-> B]. exact B.
Qed.

Lemma embed_batches_bare (service : list jsstring -> BatchResult) (turns : nat)
    (chunks : list DocumentChunk) :
  answers_in_full service ->
  (List.length chunks <= turns)%nat ->
  map bare (embed_batches service turns chunks) = map bare chunks.
Proof.
  intros Hfull. revert chunks. induction turns as [| turns IH]; intros chunks Hle.
  - destruct chunks; [reflexivity | cbn in Hle; lia].
  - destruct chunks as [| c chunks]; [reflexivity |].
    cbn [embed_batches]. rewrite map_app, embed_batch_bare by assumption.
    rewrite IH.
    + rewrite <- map_app. now rewrite firstn_skipn.
    + rewrite length_skipn. cbn [List.length] in *. unfold batchSize. lia.
Qed.

(** When the embedding service answers each batch in full or fails it,
    [generateEmbeddings] returns the chunks it was given, in their order,
    with nothing changed but the embedding. *)
Theorem generateEmbeddings_keeps_the_chunks
    (service : list jsstring -> BatchResult) (chunks : list DocumentChunk) :
  answers_in_full service ->
  map bare (generateEmbeddings service chunks) = map bare chunks.
Proof. intros H. apply embed_batches_bare; [exact H | lia]. Qed.

Lemma generateEmbeddings_keeps_the_chunks_witness :
  map bare (generateEmbeddings constant three_sentences) = map bare three_sentences.
Proof.
  apply generateEmbeddings_keeps_the_chunks.
  intros texts. cbn. now rewrite length_map.
Defined.

(** An answer that is short of embeddings doubles chunks: the chunks that
    got an embedding stay in the result, and the whole batch follows them
    once more without embeddings. *)
Theorem generateEmbeddings_short_answer
    (service : list jsstring -> BatchResult) (chunks : list DocumentChunk)
    (vs : list (list float)) :
  (List.length chunks <= batchSize)%nat ->
  service (map content chunks) = BatchData vs ->
  (List.length vs < List.length chunks)%nat ->
  generateEmbeddings service chunks = paired chunks vs ++ map bare chunks
  /\ List.length (generateEmbeddings service chunks)
     = (List.length vs + List.length chunks)%nat.
Proof.
  intros Hsize Hanswer Hshort.
  assert (E : generateEmbeddings service chunks = paired chunks vs ++ map bare chunks).
  { unfold generateEmbeddings. destruct chunks as [| c chunks]; [cbn in Hshort; lia |].
    cbn [List.length embed_batches].
    rewrite firstn_all2 by exact Hsize. rewrite skipn_all2 by exact Hsize.
    rewrite Hanswer. unfold embed_batch. rewrite attach_short by exact Hshort.
    destruct (List.length chunks); cbn [embed_batches]; now rewrite app_nil_r. }
  split; [exact E |]. rewrite E, length_app, length_map. unfold paired.
  rewrite length_map, length_combine. lia.
Qed.

Lemma generateEmbeddings_short_answer_witness :
  generateEmbeddings first_only three_sentences
  = paired three_sentences [[1%float]] ++ map bare three_sentences
  /\ List.length (generateEmbeddings first_only three_sentences) = (1 + 3)%nat.
Proof.
  apply (generateEmbeddings_short_answer first_only three_sentences [[1%float]]);
    [vm_compute; lia | reflexivity | vm_compute; lia].
Defined.

Lemma embed_batches_agree (s1 s2 : list jsstring -> BatchResult) (turns : nat)
    (chunks : list DocumentChunk) :
  agree_on_batches s1 s2 ->
  embed_batches s1 turns chunks = embed_batches s2 turns chunks.
Proof.
  intros H. revert chunks. induction turns as [| turns IH]; intros chunks; [reflexivity |].
  destruct chunks as [| c chunks]; [reflexivity |].
  cbn [embed_batches]. rewrite IH. f_equal. f_equal. apply H.
  rewrite length_map, length_firstn. cbn [List.length]. unfold batchSize. lia.
Qed.

(** The embedding service is only ever asked for one to ten texts at a
    time: what it would answer to any other request has no bearing on the
    result. *)
Theorem generateEmbeddings_asks_for_ten_at_most
    (s1 s2 : list jsstring -> BatchResult) (chunks : list DocumentChunk) :
  agree_on_batches s1 s2 ->
  generateEmbeddings s1 chunks = generateEmbeddings s2 chunks.
Proof. intros H. now apply embed_batches_agree. Qed.

Lemma generateEmbeddings_asks_for_ten_at_most_witness :
  generateEmbeddings constant three_sentences
  = generateEmbeddings constant_up_to_ten three_sentences.
Proof.
  apply generateEmbeddings_asks_for_ten_at_most.
  intros texts [_ H]. unfold constant_up_to_ten.
  apply Nat.leb_le in H. now rewrite H.
Defined.

Lemma embed_batches_down (turns : nat) (chunks : list DocumentChunk)
    (service : list jsstring -> BatchResult) :
  (forall texts, service texts = BatchFails) ->
  (List.length chunks <= turns)%nat ->
  embed_batches service turns chunks = map bare chunks.
Proof.
  intros Hdown. revert chunks. induction turns as [| turns IH]; intros chunks Hle.
  - destruct chunks; [reflexivity | cbn in Hle; lia].
  - destruct chunks as [| c chunks]; [reflexivity |].
    cbn [embed_batches]. rewrite Hdown. cbn [embed_batch]. rewrite IH.
    + fold bare. rewrite <- map_app. now rewrite firstn_skipn.
    + rewrite length_skipn. cbn [List.length] in *. unfold batchSize. lia.
Qed.

Lemma no_embedding_no_call (d : RAGDocument) (chunks : list DocumentChunk) :
  flat_map (store_chunk d) (map bare chunks) = [].
Proof. induction chunks as [| c chunks IH]; [reflexivity | exact IH]. Qed.

(** With the embedding service down the RAG route still answers that the
    document was processed, with the number of chunks the chunker made, and
    the only call it makes on the store is the one that writes the
    document's record: no chunk is stored. *)
Theorem embedding_outage_stores_no_chunk
    (w : World) (r : ProcessRequest) (docId : jsstring) (n words : nat)
    (calls : list Command) :
  (forall texts, embeddings w texts = BatchFails) ->
  RAGIngestion.POST w r = (Processed docId n words, calls) ->
  exists text record,
    fetchGoogleDoc w docId = Returned text
    /\ n = List.length (chunkDocument (routeConfig r) text docId)
    /\ calls = [HSET (lit "doc:" ++ docId) record].
Proof.
  intros Hdown H. unfold RAGIngestion.POST in H.
  destruct (negb _); [discriminate |].
  destruct (match_doc_id _) as [docId' |]; [| discriminate].
  destruct (fetchGoogleDoc w docId') as [text | e] eqn:F; [| discriminate].
  cbv zeta in H. injection H as <- <- <- <-.
  assert (E : generateEmbeddings (embeddings w) (chunkDocument (routeConfig r) text docId')
              = map bare (chunkDocument (routeConfig r) text docId'))
    by (apply embed_batches_down; [exact Hdown | lia]).
  exists text. eexists. split; [exact F |]. rewrite E. split; [now rewrite length_map |].
  unfold storeDocument. cbn [doc_chunks]. rewrite no_embedding_no_call. reflexivity.
Qed.

Lemma embedding_outage_stores_no_chunk_witness :
  exists text record,
    fetchGoogleDoc outage (lit "abc") = Returned text
    /\ 1%nat = List.length (chunkDocument (routeConfig outage_request) text (lit "abc"))
    /\ snd (RAGIngestion.POST outage outage_request)
       = [HSET (lit "doc:" ++ lit "abc") record].
Proof.
  apply (embedding_outage_stores_no_chunk outage outage_request (lit "abc") 1 2);
    [reflexivity | vm_compute; reflexivity].
Defined.

(** A request the RAG processing route turns down before it reads the
    document leaves the store alone. It answers 400, with no call made on
    the store, exactly when a parameter is missing or the address holds no
    document id; and it answers 500, with no call made on the store, when
    the body of the request does not parse and when the document cannot
    be fetched. *)
Theorem rag_process_failure_stores_nothing (w : World) (r : ProcessRequest) :
  (forall error calls,
      RAGIngestion.POST w r = (Failed 400 error, calls) ->
      calls = []
      /\ (~ complete r \/ match_doc_id (default [] (req_url r)) = None))
  /\ (~ complete r ->
      RAGIngestion.POST w r = (Failed 400 (lit "Missing required parameters"), []))
  /\ (complete r -> match_doc_id (default [] (req_url r)) = None ->
      RAGIngestion.POST w r = (Failed 400 (lit "Invalid Google Docs URL"), []))
  /\ (forall docId e,
        complete r -> match_doc_id (default [] (req_url r)) = Some docId ->
        fetchGoogleDoc w docId = Thrown e ->
        exists message,
          RAGIngestion.POST w r = (Failed 500 message, [])
          /\ (e <> [] -> message = e)
          /\ (e = [] -> message = lit "Failed to process document"))
  /\ (forall e,
        exists message,
          POST_body w (Thrown e) = (Failed 500 message, [])
          /\ (e <> [] -> message = e)).
Proof.
  unfold RAGIngestion.POST, complete.
  destruct (present (req_url r) && present (req_openaiKey r) && present (req_redisUrl r));
    cbn [negb].
  - split; [| split; [| split; [| split]]].
    + intros error calls H. destruct (match_doc_id _) as [docId |].
      * destruct (fetchGoogleDoc w docId) as [text | e]; discriminate.
      * injection H as _ <-. auto.
    + intros H. now destruct H.
    + now intros _ ->.
    + intros docId e _ -> ->. eexists. split; [reflexivity |].
      destruct e; split; congruence.
    + intros e. eexists. split; [reflexivity |]. destruct e; congruence.
  - split; [| split; [| split; [| split]]].
    + intros error calls H. injection H as _ <-. split; [reflexivity |]. left. discriminate.
    + reflexivity.
    + discriminate.
    + discriminate.
    + intros e. eexists. split; [reflexivity |]. destruct e; congruence.
Qed.

(** *** The id in a document's address *)

Lemma strip_prefix_app (prefix s rest : jsstring) :
  strip_prefix prefix s = Some rest -> s = prefix ++ rest.
Proof.
  revert s. induction prefix as [| p prefix IH]; intros s H; [now injection H as -> |].
  destruct s as [| c s]; [discriminate |]. cbn in H.
  destruct (N.eqb_spec p c) as [-> |]; [| discriminate].
  cbn. f_equal. now apply IH.
Qed.

Lemma strip_prefix_here (prefix rest : jsstring) :
  strip_prefix prefix (prefix ++ rest) = Some rest.
Proof.
  induction prefix as [| p prefix IH]; [reflexivity |].
  cbn. now rewrite N.eqb_refl.
Qed.

Lemma take_while_app (f : N -> bool) (l : jsstring) :
  exists rest,
    l = take_while f l ++ rest
    /\ forallb f (take_while f l) = true
    /\ match rest with [] => True | c :: _ => f c = false end.
Proof.
  induction l as [| c l (rest & E & Hall & Hrest)]; [now exists [] |].
  cbn [take_while]. destruct (f c) eqn:C.
  - exists rest. cbn. rewrite C, Hall. split; [now f_equal | split; [reflexivity | exact Hrest]].
  - exists (c :: l). cbn. auto.
Qed.

Lemma take_while_all (f : N -> bool) (found rest : jsstring) :
  forallb f found = true ->
  match rest with [] => True | c :: _ => f c = false end ->
  take_while f (found ++ rest) = found.
Proof.
  intros Hall Hrest. induction found as [| c found IH].
  - destruct rest as [| c rest]; [reflexivity |]. cbn. now rewrite Hrest.
  - cbn in Hall. apply andb_prop in Hall as [Hc Hall]. cbn. rewrite Hc. f_equal. now apply IH.
Qed.

Lemma match_doc_id_skip (c : N) (s : jsstring) :
  strip_prefix (lit "/document/d/") (c :: s) = None ->
  match_doc_id (c :: s) = match_doc_id s.
Proof. intros H. cbn [match_doc_id]. now rewrite H. Qed.

(** The id taken from an address is the run of letters, digits, "-" and
    "_" that follows the first "/document/d/" which has such a run after
    it: it is not empty, it is in the address at that place, and it is the
    whole run. *)
Theorem match_doc_id_sound (url docId : jsstring) :
  match_doc_id url = Some docId ->
  docId <> []
  /\ forallb is_id_unit docId = true
  /\ exists before after,
       url = before ++ lit "/document/d/" ++ docId ++ after /\ ends_id after.
Proof.
  induction url as [| c url IH]; [discriminate |].
  intros H.
  assert (Hnext : match_doc_id url = Some docId ->
                  docId <> [] /\ forallb is_id_unit docId = true
                  /\ exists before after,
                       c :: url = before ++ lit "/document/d/" ++ docId ++ after
                       /\ ends_id after).
  { intros H'. destruct (IH H') as (Hne & Hall & before & after & E & Hend).
    split; [exact Hne |]. split; [exact Hall |].
    exists (c :: before), after. split; [| exact Hend]. cbn. now f_equal. }
  cbn [match_doc_id] in H.
  destruct (strip_prefix (lit "/document/d/") (c :: url)) as [rest |] eqn:P; [| auto].
  destruct (take_while_app is_id_unit rest) as (after & E & Hall & Hend).
  destruct (take_while is_id_unit rest) as [| d found] eqn:T; [auto |].
  injection H as <-. split; [discriminate |]. split; [exact Hall |].
  exists [], after. split; [| exact Hend].
  apply strip_prefix_app in P. rewrite P, E. reflexivity.
Qed.

Lemma match_doc_id_sound_witness :
  lit "abc" <> []
  /\ forallb is_id_unit (lit "abc") = true
  /\ exists before after,
       lit "https://docs.google.com/document/d/abc/edit"
       = before ++ lit "/document/d/" ++ lit "abc" ++ after /\ ends_id after.
Proof.
  apply match_doc_id_sound. vm_compute. reflexivity.
Defined.

(** Both routes find the id of a Google Docs address: for every id made
    of letters, digits, "-" and "_", the address
    [https://docs.google.com/document/d/<id>] followed by nothing or by
    anything that starts with another character ("/edit", "?usp=sharing")
    gives back that id. *)
Theorem match_doc_id_of_google_url (docId rest : jsstring) :
  docId <> [] ->
  forallb is_id_unit docId = true ->
  ends_id rest ->
  match_doc_id (google_url docId rest) = Some docId.
Proof.
  intros Hne Hall Hend. unfold google_url.
  change (lit "https://docs.google.com/document/d/")
    with (lit "https://docs.google.com" ++ lit "/document/d/").
  rewrite <- app_assoc.
  assert (Hhere : match_doc_id (lit "/document/d/" ++ docId ++ rest) = Some docId).
  { change (lit "/document/d/" ++ docId ++ rest)
      with (47%N :: (lit "document/d/" ++ docId ++ rest)).
    cbn [match_doc_id].
    change (47%N :: (lit "document/d/" ++ docId ++ rest))
      with (lit "/document/d/" ++ docId ++ rest).
    rewrite strip_prefix_here, take_while_all by assumption.
    destruct docId; [congruence | reflexivity]. }
  set (tail := lit "/document/d/" ++ docId ++ rest) in *.
  let site := eval vm_compute in (lit "https://docs.google.com") in
  change (lit "https://docs.google.com") with site.
  cbn [app].
  repeat (rewrite match_doc_id_skip by reflexivity).
  exact Hhere.
Qed.

Lemma match_doc_id_of_google_url_witness :
  match_doc_id (google_url (lit "1aB-_9") (lit "/edit?usp=sharing")) = Some (lit "1aB-_9").
Proof.
  apply match_doc_id_of_google_url; [discriminate | reflexivity | reflexivity].
Defined.

End IngestionMore.

(** ** The client of the vector store *)

Module VectorStoreMore.
Import VectorStoreClient VectorStoreSpec IngestionMoreSpec IngestionMore.

Lemma records_app (a b : list Command) : records (a ++ b) = records a ++ records b.
Proof. apply omap_app. Qed.

Lemma entries_app (a b : list Command) : entries (a ++ b) = entries a ++ entries b.
Proof. apply omap_app. Qed.

Section AnyServer.

Context {S : Type}.
Variable exec : S -> Command -> Outcome (list jsstring) * S.
Variable clock : S -> jsstring.

Lemma store_each_sent (chunks : list VectorChunk) (s : Session S) :
  exists written indexed,
    records (sent (snd (store_each exec clock chunks s)))
    = records (sent s) ++ map chunk_key written
    /\ entries (sent (snd (store_each exec clock chunks s)))
       = entries (sent s) ++ map entry indexed
    /\ indexed `prefix_of` written
    /\ written `prefix_of` chunks
    /\ (List.length written <= 1 + List.length indexed)%nat
    /\ (fst (store_each exec clock chunks s) = Returned tt -> indexed = chunks).
Proof.
  revert s. induction chunks as [| c rest IH]; intros s.
  - exists [], []. cbn. rewrite !app_nil_r. repeat split; try reflexivity; lia.
  - cbn [store_each]. unfold andThen at 1, store_chunk, andThen, executeRedisCommand.
    cbn [server connected sent].
    match goal with
    | |- context [exec (server s) ?hset] =>
        destruct (exec (server s) hset) as [[r1 | e1] sv1]
    end; cbn [server connected sent].
    + match goal with
      | |- context [exec sv1 ?sadd] => destruct (exec sv1 sadd) as [[r2 | e2] sv2]
      end; cbn [done server connected sent].
      * match goal with
        | |- context [store_each exec clock rest ?s2] =>
            destruct (IH s2) as (written & indexed & Hr & He & Hp1 & Hp2 & Hlen & Hall)
        end.
        exists (c :: written), (c :: indexed). cbn [sent] in Hr, He.
        split; [| split; [| split; [| split; [| split]]]].
        -- rewrite Hr, !records_app. cbn. now rewrite app_nil_r, <- app_assoc.
        -- rewrite He, !entries_app. cbn. now rewrite app_nil_r, <- app_assoc.
        -- now apply prefix_cons.
        -- now apply prefix_cons.
        -- cbn [List.length]. lia.
        -- intros Hok. f_equal. exact (Hall Hok).
      * exists [c], [c]. cbn [fst snd sent].
        split; [| split; [| split; [| split; [| split]]]].
        -- rewrite !records_app. cbn. now rewrite ?app_nil_r.
        -- rewrite !entries_app. cbn. now rewrite ?app_nil_r.
        -- reflexivity.
        -- apply prefix_cons, prefix_nil.
        -- cbn [List.length]. lia.
        -- discriminate.
    + exists [c], []. cbn [fst snd sent].
      split; [| split; [| split; [| split; [| split]]]].
      * rewrite !records_app. cbn. now rewrite ?app_nil_r.
      * rewrite !entries_app. cbn. now rewrite ?app_nil_r.
      * apply prefix_nil.
      * apply prefix_cons, prefix_nil.
      * cbn [List.length]. lia.
      * discriminate.
Qed.

(** [storeChunks] writes the chunks in their order, each one's hash before
    its entry in the index of its document, and stops at the first command
    that fails. So whatever the server does, the hashes sent are those of
    the first chunks, the index entries sent are those of the same chunks
    but at most the last, and when the call returns every chunk was
    written, with or without an embedding. *)
Theorem storeChunks_writes_in_order (sv : S) (chunks : list VectorChunk) :
  let run := storeChunks exec clock chunks (fresh sv) in
  exists written indexed,
    records (sent (snd run)) = map chunk_key written
    /\ entries (sent (snd run)) = map entry indexed
    /\ indexed `prefix_of` written
    /\ written `prefix_of` chunks
    /\ (List.length written <= 1 + List.length indexed)%nat
    /\ (fst run = Returned tt -> indexed = chunks /\ written = chunks).
Proof.
  assert (Hrun : storeChunks exec clock chunks (fresh sv)
                 = match exec sv PING with
                   | (Returned _, sv1) =>
                       store_each exec clock chunks
                         {| server := sv1; connected := true; sent := [PING] |}
                   | (Thrown e, sv1) =>
                       (Thrown e, {| server := sv1; connected := false; sent := [PING] |})
                   end).
  { unfold storeChunks, andThen, connect, executeRedisCommand.
    cbn [fresh connected server sent app].
    destruct (exec sv PING) as [[r | e] sv1]; reflexivity. }
  cbv zeta. rewrite Hrun. clear Hrun.
  destruct (exec sv PING) as [[r | e] sv1]; cbn [server connected sent fst snd].
  - destruct (store_each_sent chunks {| server := sv1; connected := true; sent := [PING] |})
      as (written & indexed & Hr & He & Hp1 & Hp2 & Hlen & Hall).
    cbn [sent] in Hr, He.
    change (records [PING]) with (@nil jsstring) in Hr.
    change (entries [PING]) with (@nil (jsstring * jsstring)) in He.
    cbn [app] in Hr, He.
    exists written, indexed.
    split; [exact Hr |]. split; [exact He |]. split; [exact Hp1 |]. split; [exact Hp2 |].
    split; [exact Hlen |]. intros Hok. specialize (Hall Hok). split; [exact Hall |].
    subst indexed. destruct Hp1 as [k1 E1], Hp2 as [k2 E2].
    assert (Hk : List.length chunks = (List.length chunks + List.length k1 + List.length k2)%nat).
    { rewrite E2 at 1. rewrite E1 at 1. rewrite !length_app. lia. }
    destruct k1; [now rewrite app_nil_r in E1 | cbn in Hk; lia].
  - exists [], []. cbn [fst snd sent].
    split; [reflexivity |]. split; [reflexivity |]. split; [apply prefix_nil |].
    split; [apply prefix_nil |]. split; [cbn; lia | discriminate].
Qed.

(** *** The documents listed *)

Lemma match_document_sound (key d : jsstring) :
  match_document key = Some d -> d <> [] /\ no_colon d.
Proof.
  induction key as [| c key IH]; [discriminate |]. cbn [match_document].
  destruct (RAGIngestion.strip_prefix (lit "doc:") (c :: key)) as [rest |]; [| exact IH].
  destruct (take_while_app (fun c => negb (is_colon c)) rest) as (after & _ & Hall & _).
  destruct (RAGIngestion.take_while _ rest) as [| x found]; [exact IH |].
  destruct (RAGIngestion.strip_prefix (lit ":chunks") _); [| exact IH].
  intros [= <-]. split; [discriminate | exact Hall].
Qed.

Lemma match_document_set_key (d : jsstring) :
  d <> [] -> no_colon d -> match_document (chunk_set_key d) = Some d.
Proof.
  intros Hne Hd. unfold chunk_set_key.
  change (lit "doc:" ++ d ++ lit ":chunks") with (100%N :: (lit "oc:" ++ d ++ lit ":chunks")).
  cbn [match_document].
  change (100%N :: (lit "oc:" ++ d ++ lit ":chunks")) with (lit "doc:" ++ d ++ lit ":chunks").
  rewrite strip_prefix_here.
  rewrite (take_while_all (fun c => negb (is_colon c)) d (lit ":chunks") Hd eq_refl).
  destruct d as [| x d]; [congruence |].
  rewrite skipn_app, skipn_all, Nat.sub_diag. cbn [app skipn].
  reflexivity.
Qed.

Lemma distinct_fold (items seen : list jsstring) :
  NoDup seen ->
  NoDup (fold_left add_new items seen)
  /\ forall x, In x (fold_left add_new items seen) <-> In x seen \/ In x items.
Proof.
  revert seen. induction items as [| item items IH]; intros seen Hseen.
  - cbn. split; [exact Hseen | tauto].
  - cbn [fold_left]. unfold add_new at 2 4. destruct (bool_decide_reflect (item ∈ seen)) as [Hin | Hout].
    + destruct (IH seen Hseen) as [Hnd Hmem]. split; [exact Hnd |].
      intros x. rewrite Hmem. cbn. apply list_elem_of_In in Hin.
      intuition congruence.
    + assert (Hnd' : NoDup (seen ++ [item])).
      { apply NoDup_app; [exact Hseen | repeat constructor; intros [] |].
        intros x Hx [<- | []]. apply Hout. now apply list_elem_of_In. }
      destruct (IH _ Hnd') as [Hnd Hmem]. split; [exact Hnd |].
      intros x. rewrite Hmem, in_app_iff. cbn. intuition congruence.
Qed.

(** [listDocuments] throws when the server does not answer PING and gives
    the empty list when KEYS fails. Otherwise it lists, each once, the ids
    taken from the keys: every id listed is not empty, has no colon and
    comes from one of the keys, and every document with such an id whose
    index [doc:<id>:chunks] is among the keys is listed. *)
Theorem listDocuments_lists_each_document_once (sv : S) :
  let run := listDocuments exec (fresh sv) in
  match exec sv PING with
  | (Thrown e, _) => fst run = Thrown e
  | (Returned _, sv1) =>
      match exec sv1 (KEYS (lit "doc:*:chunks")) with
      | (Thrown _, _) => fst run = Returned []
      | (Returned keys, _) =>
          exists ids,
            fst run = Returned ids
            /\ NoDup ids
            /\ (forall d, In d ids ->
                  d <> [] /\ no_colon d
                  /\ exists key, In key keys /\ match_document key = Some d)
            /\ (forall d, d <> [] -> no_colon d -> In (chunk_set_key d) keys -> In d ids)
      end
  end.
Proof.
  cbv zeta. unfold listDocuments, andThen, connect, executeRedisCommand.
  cbn [fresh connected server sent app].
  destruct (exec sv PING) as [[r | e] sv1]; cbn [server connected sent fst snd];
    [| reflexivity].
  destruct (exec sv1 (KEYS (lit "doc:*:chunks"))) as [[keys | e] sv2]; [| reflexivity].
  eexists. split; [reflexivity |].
  destruct (distinct_fold (omap match_document keys) [] (NoDup_nil _)) as [Hnd Hmem].
  split; [exact Hnd |]. split.
  - intros d Hd. apply Hmem in Hd as [[] | Hd].
    apply list_elem_of_In, list_elem_of_omap in Hd as (key & Hkey & Hmatch).
    destruct (match_document_sound key d Hmatch) as [Hne Hcolon].
    split; [exact Hne |]. split; [exact Hcolon |].
    exists key. split; [now apply list_elem_of_In | exact Hmatch].
  - intros d Hne Hcolon Hkey. apply Hmem. right.
    apply list_elem_of_In, list_elem_of_omap. exists (chunk_set_key d).
    split; [now apply list_elem_of_In | now apply match_document_set_key].
Qed.

End AnyServer.

(** *** Against a server that does what it is told *)

Section IdealServer.

Context {S : Type}.
Variable exec : S -> Command -> Outcome (list jsstring) * S.
Variable clock : S -> jsstring.
Variable view : S -> Store.
Hypothesis Hideal : ideal exec view.

Lemma execute_ideal (c : Command) (s : Session S) :
  exists reply s',
    executeRedisCommand exec c s = (Returned reply, s')
    /\ connected s' = connected s
    /\ view (server s') = effect c (view (server s))
    /\ match c with
       | SMEMBERS key => forall m, In m reply <-> m ∈ members key (view (server s))
       | _ => True
       end.
Proof.
  unfold executeRedisCommand. pose proof (Hideal (server s) c) as H.
  destruct (exec (server s) c) as [[reply | e] after]; [| destruct H].
  destruct H as [Hview Hreply]. eexists _, _. split; [reflexivity |].
  cbn [server connected]. auto.
Qed.

Lemma connect_ideal (s : Session S) :
  exists s',
    connect exec s = (Returned tt, s') /\ view (server s') = view (server s).
Proof.
  unfold connect. destruct (connected s); [eauto |].
  destruct (execute_ideal PING s) as (reply & s' & -> & _ & Hview & _).
  eexists. split; [reflexivity |]. exact Hview.
Qed.

Lemma store_each_ideal (chunks : list VectorChunk) (s : Session S) :
  exists s',
    store_each exec clock chunks s = (Returned tt, s')
    /\ (forall key, is_Some (hashes (view (server s)) !! key) ->
                    is_Some (hashes (view (server s')) !! key))
    /\ (forall key m, m ∈ members key (view (server s)) ->
                      m ∈ members key (view (server s')))
    /\ (forall c, In c chunks ->
          is_Some (hashes (view (server s')) !! chunk_key c)
          /\ id c ∈ members (chunk_set_key (documentId c)) (view (server s'))).
Proof.
  revert s. induction chunks as [| c rest IH]; intros s.
  - exists s. split; [reflexivity |]. split; [auto |]. split; [auto |]. intros c [].
  - cbn [store_each]. unfold andThen at 1, store_chunk, andThen.
    destruct (execute_ideal (HSET (chunk_key c) (chunk_fields c (clock (server s)))) s)
      as (r1 & s1 & -> & _ & Hv1 & _).
    destruct (execute_ideal (SADD (chunk_set_key (documentId c)) (id c)) s1)
      as (r2 & s2 & -> & _ & Hv2 & _).
    cbn [done]. destruct (IH s2) as (s' & -> & Hkeep & Hmem & Hall).
    assert (Hhash : forall key, is_Some (hashes (view (server s)) !! key) ->
                                is_Some (hashes (view (server s2)) !! key)).
    { intros key H. rewrite Hv2, Hv1. cbn [effect hashes].
      destruct (decide (chunk_key c = key)) as [<- | Hne];
        [rewrite lookup_insert_eq; eauto | now rewrite lookup_insert_ne]. }
    assert (Hset : forall key m, m ∈ members key (view (server s)) ->
                                 m ∈ members key (view (server s2))).
    { intros key m H. rewrite Hv2. unfold members at 1. cbn [effect sets].
      destruct (decide (chunk_set_key (documentId c) = key)) as [<- | Hne].
      - rewrite lookup_insert_eq.
        change (m ∈ {[id c]} ∪ members (chunk_set_key (documentId c)) (view (server s1))).
        rewrite Hv1. apply elem_of_union_r. exact H.
      - rewrite lookup_insert_ne by exact Hne. rewrite Hv1. exact H. }
    exists s'. split; [reflexivity |]. split; [auto |]. split; [auto |].
    intros c' [<- | Hin]; [| now apply Hall]. split.
    + apply Hkeep. rewrite Hv2, Hv1. cbn [effect hashes]. rewrite lookup_insert_eq. eauto.
    + apply Hmem. rewrite Hv2. unfold members at 1. cbn [effect sets].
      rewrite lookup_insert_eq.
      change (id c ∈ {[id c]} ∪ members (chunk_set_key (documentId c)) (view (server s1))).
      apply elem_of_union_l. now apply elem_of_singleton.
Qed.

Lemma delete_each_ideal (d : jsstring) (chunkIds : list jsstring) (s : Session S) :
  exists s',
    delete_each exec d chunkIds s = (Returned tt, s')
    /\ (forall key, hashes (view (server s)) !! key = None ->
                    hashes (view (server s')) !! key = None)
    /\ (forall m, In m chunkIds ->
                  hashes (view (server s')) !! chunk_key_of d m = None).
Proof.
  revert s. induction chunkIds as [| m rest IH]; intros s.
  - exists s. split; [reflexivity |]. split; [auto |]. intros m [].
  - cbn [delete_each]. unfold andThen at 1.
    destruct (execute_ideal (DEL (chunk_key_of d m)) s) as (r1 & s1 & -> & _ & Hv1 & _).
    destruct (IH s1) as (s' & -> & Hkeep & Hall).
    exists s'. split; [reflexivity |]. split.
    + intros key H. apply Hkeep. rewrite Hv1. cbn [effect hashes].
      destruct (decide (chunk_key_of d m = key)) as [<- | Hne];
        [apply lookup_delete_eq | now rewrite lookup_delete_ne].
    + intros m' [<- | Hin]; [| now apply Hall].
      apply Hkeep. rewrite Hv1. cbn [effect hashes]. apply lookup_delete_eq.
Qed.

(** What [storeChunks] writes, [deleteDocument] removes. Against a server
    that answers every command and does what it says, [storeChunks]
    returns with every chunk under its key and in the index of its
    document; and when [deleteDocument] has returned after it, no chunk of
    that document is left under its key, nor is the index. *)
Theorem stored_chunks_are_deleted (sv : S) (chunks : list VectorChunk) (d : jsstring) :
  let stored := storeChunks exec clock chunks (fresh sv) in
  let deleted := deleteDocument exec d (snd stored) in
  fst stored = Returned tt
  /\ fst deleted = Returned tt
  /\ (forall c, In c chunks ->
        is_Some (hashes (view (server (snd stored))) !! chunk_key c)
        /\ id c ∈ members (chunk_set_key (documentId c)) (view (server (snd stored))))
  /\ (forall c, In c chunks -> documentId c = d ->
        hashes (view (server (snd deleted))) !! chunk_key c = None)
  /\ sets (view (server (snd deleted))) !! chunk_set_key d = None.
Proof.
  cbv zeta.
  assert (Hstore : exists s1,
             storeChunks exec clock chunks (fresh sv) = (Returned tt, s1)
             /\ (forall c, In c chunks ->
                   is_Some (hashes (view (server s1)) !! chunk_key c)
                   /\ id c ∈ members (chunk_set_key (documentId c)) (view (server s1)))).
  { unfold storeChunks, andThen.
    destruct (connect_ideal (fresh sv)) as (s0 & -> & _).
    destruct (store_each_ideal chunks s0) as (s1 & -> & _ & _ & Hall). eauto. }
  destruct Hstore as (s1 & -> & Hall). cbn [fst snd].
  assert (Hdelete : exists s2,
             deleteDocument exec d s1 = (Returned tt, s2)
             /\ (forall m, m ∈ members (chunk_set_key d) (view (server s1)) ->
                           hashes (view (server s2)) !! chunk_key_of d m = None)
             /\ sets (view (server s2)) !! chunk_set_key d = None).
  { unfold deleteDocument, andThen.
    destruct (connect_ideal s1) as (s0 & -> & Hv0).
    destruct (execute_ideal (SMEMBERS (chunk_set_key d)) s0)
      as (chunkIds & s0' & -> & _ & Hv0' & Hreply).
    destruct (delete_each_ideal d chunkIds s0') as (s0'' & -> & Hkeep & Hgone).
    destruct (execute_ideal (DEL (chunk_set_key d)) s0'') as (r & s2 & -> & _ & Hv2 & _).
    cbn [done]. exists s2. split; [reflexivity |]. rewrite Hv2. cbn [effect hashes sets].
    split; [| apply lookup_delete_eq].
    intros m Hm.
    destruct (decide (chunk_set_key d = chunk_key_of d m)) as [<- | Hne];
      [apply lookup_delete_eq | rewrite lookup_delete_ne by exact Hne].
    apply Hgone, Hreply. now rewrite Hv0. }
  destruct Hdelete as (s2 & -> & Hgone & Hindex). cbn [fst snd].
  split; [reflexivity |]. split; [reflexivity |]. split; [exact Hall |].
  split; [| exact Hindex].
  intros c Hc <-. apply (Hgone (id c)). now apply Hall.
Qed.

End IdealServer.

Lemma memory_ideal : ideal memory (fun st => st).
Proof.
  intros st c. unfold memory. split; [reflexivity |].
  destruct c; try exact I. intros m. rewrite <- list_elem_of_In. apply elem_of_elements.
Qed.

Lemma stored_chunks_are_deleted_witness :
  let stored := storeChunks memory no_clock two_chunks
                  (fresh {| hashes := ∅; sets := ∅ |}) in
  let deleted := deleteDocument memory (lit "d") (snd stored) in
  fst stored = Returned tt
  /\ fst deleted = Returned tt
  /\ (forall c, In c two_chunks ->
        is_Some (hashes (server (snd stored)) !! chunk_key c)
        /\ id c ∈ members (chunk_set_key (documentId c)) (server (snd stored)))
  /\ (forall c, In c two_chunks -> documentId c = lit "d" ->
        hashes (server (snd deleted)) !! chunk_key c = None)
  /\ sets (server (snd deleted)) !! chunk_set_key (lit "d") = None.
Proof.
  exact (stored_chunks_are_deleted memory no_clock (fun st => st) memory_ideal
           {| hashes := ∅; sets := ∅ |} two_chunks (lit "d")).
Defined.

End VectorStoreMore.

(** ** The chat route, await by await: what is in flight when *)

Module ChatAsyncFacts.
Import ChatRoute ChatRouteSpec ChatRouteMoreSpec ChatRouteAsync ChatAsyncSpec.

Lemma start_quiet {A} (t : Promise A) : Quiet t -> start t = [].
Proof. now intros []. Qed.

Lemma quiet_once {A} (t : Promise A) : Quiet t -> Once t.
Proof. intros H. destruct H; cbn [Once]; now constructor. Qed.

Lemma once_fetch {A} (call : Event) (k : FetchResult -> Promise A) (r : FetchResult) :
  Once (AwaitFetch call k) -> Quiet (k r).
Proof. intros H. apply H. Qed.

Lemma once_body {A} (call : Event) (body : Outcome JSON) (k : Outcome JSON -> Promise A)
    (b : Outcome JSON) :
  Once (AwaitBody call body k) -> Quiet (k b).
Proof. intros H. now inversion H. Qed.

Section Runs.

Variable w : World.

Lemma await_resumes {A} (t : Promise A) :
  Once t -> Forall (fun s => resumes s = true) (snd (await w t)).
Proof.
  induction t as [o | call k IH | call body k IH]; intros H; cbn [await snd].
  - constructor.
  - pose proof (once_fetch call k (fetch w (request_of call)) H) as Hq.
    constructor; [reflexivity |]. rewrite (start_quiet _ Hq). apply IH. now apply quiet_once.
  - pose proof (once_body call body k body H) as Hq.
    constructor; [reflexivity |]. rewrite (start_quiet _ Hq). apply IH. now apply quiet_once.
Qed.

Lemma all_resumes {A B} (a : Promise A) (b : Promise B) (schedule : list bool) :
  Once a -> Once b -> Forall (fun s => resumes s = true) (snd (all w a b schedule)).
Proof.
  revert b schedule.
  induction a as [[x | e] | call k IHa | call body k IHa]; intros b;
    induction b as [[y | e'] | call' k' IHb | call' body' k' IHb]; intros schedule Ha Hb.
  all: try pose proof (once_fetch call k (fetch w (request_of call)) Ha) as Hqa.
  all: try pose proof (once_body call body k body Ha) as Hqa.
  all: try pose proof (once_fetch call' k' (fetch w (request_of call')) Hb) as Hqb.
  all: try pose proof (once_body call' body' k' body' Hb) as Hqb.
  all: try (destruct schedule as [| [|] rest]).
  all: cbn [all snd fst].
  all: try apply Forall_nil.
  all: apply Forall_cons; [reflexivity |].
  all: first
         [ rewrite (start_quiet _ Hqa); cbn [app]; apply IHa;
           [now apply quiet_once | exact Hb]
         | rewrite (start_quiet _ Hqb); cbn [app]; apply IHb;
           [exact Ha | now apply quiet_once] ].
Qed.

(** What [Promise.all] settles with does not depend on the schedule when
    the first call never throws. *)
Lemma all_outcome {A B} (a : Promise A) (b : Promise B) (schedule : list bool) (x : A) :
  fst (await w a) = Returned x ->
  fst (all w a b schedule)
  = match fst (await w b) with
    | Returned y => Returned (x, y)
    | Thrown e => Thrown e
    end.
Proof.
  revert b schedule.
  induction a as [[x' | e] | call k IHa | call body k IHa]; intros b;
    induction b as [[y | e'] | call' k' IHb | call' body' k' IHb]; intros schedule Ha.
  all: try discriminate Ha.
  all: try (destruct schedule as [| [|] rest]).
  all: cbn [all await snd fst] in *.
  all: try (injection Ha as ->).
  all: try reflexivity.
  all: first [ now apply IHb | now rewrite (IHa _ _ _ Ha) | idtac ].
Qed.

Lemma issued_app (a b : list Step) : issued (a ++ b) = issued a ++ issued b.
Proof. apply omap_app. Qed.

Lemma issued_resumes (steps : list Step) :
  Forall (fun s => resumes s = true) steps -> issued steps = [].
Proof.
  intros H. induction H as [| s steps Hs H IH]; [reflexivity |].
  destruct s; try discriminate; exact IH.
Qed.

Lemma issued_calls (calls : list Event) : issued (map Issued calls) = calls.
Proof. induction calls as [| call calls IH]; [reflexivity |]. cbn. now f_equal. Qed.

Lemma resumes_not_dispatches (steps : list Step) :
  Forall (fun s => resumes s = true) steps -> Forall (fun s => dispatches s = false) steps.
Proof. apply Forall_impl. intros [] H; try discriminate; reflexivity. Qed.

(** *** The three calls of the route *)

Lemma search_once (msg : jsstring) (c : Config) : Once (searchLangCache msg c).
Proof.
  unfold searchLangCache.
  destruct (missing (langcacheUrl c) || missing (cacheId c) || missing (serviceKey c));
    [constructor |].
  intros [e | ok code json]; [constructor |].
  destruct ok; cbn [negb]; [| constructor].
  constructor. intros [result | e]; [| constructor].
  cbv zeta. destruct (opt_member _ _) as [response |]; [| constructor].
  destruct (truthy (Some response)); constructor.
Qed.

Lemma generation_once (msg : jsstring) (c : Config) : Once (callOpenAI w msg c).
Proof.
  unfold callOpenAI. intros [e | ok code json]; [constructor |].
  cbv zeta. destruct ok; cbn [negb]; [| constructor].
  constructor. intros [data | e]; [| constructor].
  destruct data; try constructor;
    destruct (member (lit "choices") _) as [[] |]; constructor.
Qed.

Lemma start_search (msg : jsstring) (c : Config) :
  start (searchLangCache msg c) = map Issued (searchCalls msg c).
Proof.
  unfold searchLangCache, searchCalls, configured.
  now destruct (missing (langcacheUrl c) || missing (cacheId c) || missing (serviceKey c)).
Qed.

Lemma start_store (msg : jsstring) (response : JSON) (c : Config) :
  issued (start (storeInLangCache msg response c))
  = snd (storeOutcome w msg response c)
  /\ Forall (fun s => dispatches s = false) (start (storeInLangCache msg response c)).
Proof.
  unfold storeInLangCache, storeOutcome, configured.
  destruct (missing (langcacheUrl c) || missing (cacheId c) || missing (serviceKey c));
    cbn [negb]; [split; [reflexivity | constructor] |].
  destruct response; cbn; split; try reflexivity; repeat constructor.
Qed.

Lemma await_search (msg : jsstring) (c : Config) :
  fst (await w (searchLangCache msg c)) = Returned (searchOutcome w msg c).
Proof.
  unfold searchLangCache, searchOutcome, configured.
  destruct (missing (langcacheUrl c) || missing (cacheId c) || missing (serviceKey c));
    cbn [negb]; [reflexivity |].
  cbn [await fst request_of].
  destruct (fetch w (searchRequest msg c)) as [e | ok code json]; [reflexivity |].
  destruct ok; cbn [negb]; [| reflexivity].
  cbn [await fst]. destruct json as [result | e]; [| reflexivity].
  cbv zeta. destruct (opt_member _ _) as [response |]; [| reflexivity].
  destruct (truthy (Some response)); reflexivity.
Qed.

Lemma await_generation (msg : jsstring) (c : Config) :
  fst (await w (callOpenAI w msg c)) = fst (ChatRoute.callOpenAI w msg c []).
Proof.
  unfold callOpenAI, ChatRoute.callOpenAI, bind, emit, ret, throw, lift.
  cbn [await fst request_of].
  destruct (fetch w (generationRequest msg c)) as [e | ok code json]; [reflexivity |].
  cbv zeta. destruct ok; cbn [negb]; [| reflexivity].
  cbn [await fst]. destruct json as [data | e]; [| reflexivity].
  destruct data; try reflexivity;
    destruct (member (lit "choices") _) as [[] |]; reflexivity.
Qed.

Lemma all_answers_second {A B} (a : Promise A) (call : Event) (k : FetchResult -> Promise B)
    (schedule : list bool) (x : A) :
  fst (await w a) = Returned x ->
  In (Answered call) (snd (all w a (AwaitFetch call k) schedule)).
Proof.
  revert schedule.
  induction a as [[x' | e] | call' k' IHa | call' body' k' IHa]; intros schedule Ha.
  all: try discriminate Ha.
  all: try (destruct schedule as [| [|] rest]).
  all: cbn [all await snd fst] in *.
  all: first [ now left | right; apply in_or_app; right; now apply IHa ].
Qed.

Lemma all_answers_first {A B} (call : Event) (k : FetchResult -> Promise A) (b : Promise B)
    (schedule : list bool) (y : B) :
  fst (await w b) = Returned y ->
  In (Answered call) (snd (all w (AwaitFetch call k) b schedule)).
Proof.
  revert schedule.
  induction b as [[y' | e] | call' k' IHb | call' body' k' IHb]; intros schedule Hb.
  all: try discriminate Hb.
  all: try (destruct schedule as [| [|] rest]).
  all: cbn [all await snd fst] in *.
  all: first [ now left | right; apply in_or_app; right; now apply IHb ].
Qed.

Lemma before_a_resume (front later before after : list Step) (s : Step) :
  Forall (fun s => resumes s = false) front ->
  front ++ later = before ++ s :: after -> resumes s = true ->
  front `prefix_of` before.
Proof.
  intros Hfront. revert before.
  induction Hfront as [| d front Hd Hfront IH]; intros before E Hs; [apply prefix_nil |].
  destruct before as [| d' before].
  - cbn in E. injection E as -> _. congruence.
  - cbn in E. injection E as -> E. apply prefix_cons. now apply IH.
Qed.

Lemma dispatched_issue_only (msg : jsstring) (c : Config) :
  Forall (fun s => resumes s = false) (dispatched msg c).
Proof.
  unfold dispatched, searchCalls. destruct (configured c); repeat constructor.
Qed.

End Runs.


(** C9. In shadow mode, for every query, every answer of the services and
    every order in which the two responses arrive, the cache search (when
    the cache is configured; it is not called otherwise) and the
    generation call are both in flight before anything is awaited: the
    run of [POST] begins with the two calls being issued, every step in
    which an [await] resumes comes after both, and neither call is issued
    a second time. The generation call is then awaited, and the response
    and the calls are those of the route read call by call, whichever
    response arrives first; so the latency the response reports is the one
    the generation call measured around its own request. *)
Theorem shadow_mode_calls_in_flight_together
    (w : World) (msg : jsstring) (c : Config) (schedule : list bool) :
  msg <> [] ->
  shadowMode c = true ->
  let run := ChatRouteAsync.POST w (chatRequest msg c) schedule in
  (exists later,
      snd run = dispatched msg c ++ later
      /\ Forall (fun s => dispatches s = false) later)
  /\ (forall before s after,
        snd run = before ++ s :: after -> resumes s = true ->
        dispatched msg c `prefix_of` before)
  /\ In (Answered (GenerationCall (generationRequest msg c))) (snd run)
  /\ fst (ChatRoute.POST w (chatRequest msg c) []) = Returned (fst run)
  /\ snd (ChatRoute.POST w (chatRequest msg c) []) = issued (snd run)
  /\ (forall gen,
        fst (ChatRoute.callOpenAI w msg c []) = Returned gen ->
        field "latency" (fst run)
        = Some (Some (JNum (num_of_Z (elapsed w (generationRequest msg c)))))).
Proof.
  intros Hmsg Hshadow run.
  pose proof (all_resumes w (searchLangCache msg c) (callOpenAI w msg c) schedule
                (search_once msg c) (generation_once w msg c)) as Hsteps.
  pose proof (all_outcome w (searchLangCache msg c) (callOpenAI w msg c) schedule
                _ (await_search w msg c)) as Hout.
  assert (Hanswered : In (Answered (GenerationCall (generationRequest msg c)))
                         (snd (all w (searchLangCache msg c) (callOpenAI w msg c) schedule)))
    by (unfold callOpenAI at 1; eapply all_answers_second; apply await_search).
  rewrite await_generation in Hout.
  assert (Hrun : exists later,
             run = (fst (postOutcome w msg c), dispatched msg c ++ later)
             /\ Forall (fun s => dispatches s = false) later
             /\ issued later
                = match fst (ChatRoute.callOpenAI w msg c []) with
                  | Returned gen =>
                      if hit (searchOutcome w msg c) then []
                      else snd (storeOutcome w msg (content gen) c)
                  | Thrown _ => []
                  end
             /\ In (Answered (GenerationCall (generationRequest msg c))) later).
  { subst run. destruct msg as [| ch msg']; [congruence |].
    unfold ChatRouteAsync.POST, chatRequest, postOutcome. cbv zeta. cbn [message config].
    rewrite Hshadow.
    destruct (all w (searchLangCache (ch :: msg') c) (callOpenAI w (ch :: msg') c) schedule)
      as [o steps] eqn:E.
    cbn [fst snd] in Hsteps, Hout, Hanswered.
    pose proof Hanswered as Hin.
    rewrite start_search. unfold dispatched.
    change (start (callOpenAI w (ch :: msg') c))
      with [Issued (GenerationCall (generationRequest (ch :: msg') c))].
    destruct (fst (ChatRoute.callOpenAI w (ch :: msg') c [])) as [gen | e]; subst o.
    - destruct (start_store w (ch :: msg') (content gen) c) as [Hstore Hquiet].
      exists (steps ++ (if negb (hit (searchOutcome w (ch :: msg') c))
                        then start (storeInLangCache (ch :: msg') (content gen) c)
                        else [])).
      split; [cbn [fst]; f_equal; now rewrite <- ?app_assoc |].
      split; [| split].
      + apply Forall_app. split; [now apply resumes_not_dispatches |].
        destruct (hit (searchOutcome w (ch :: msg') c)); [constructor | exact Hquiet].
      + rewrite issued_app, (issued_resumes _ Hsteps). cbn [app].
        destruct (hit (searchOutcome w (ch :: msg') c)); [reflexivity | exact Hstore].
      + apply in_or_app. now left.
    - exists steps. split; [cbn [fst]; f_equal; now rewrite <- ?app_assoc |].
      split; [now apply resumes_not_dispatches |].
      split; [now apply issued_resumes | exact Hin]. }
  destruct Hrun as (later & Hrun & Hquiet & Hissued & Hin). rewrite Hrun. cbn [fst snd].
  split; [eauto |]. split; [| split; [| split; [| split]]].
  - intros before s after E Hs.
    eapply before_a_resume; [apply dispatched_issue_only | exact E | exact Hs].
  - apply in_or_app. now right.
  - now rewrite ChatRouteMore.POST_run.
  - rewrite ChatRouteMore.POST_run by assumption. cbn [snd app].
    unfold dispatched. rewrite !issued_app, issued_calls, Hissued.
    change (issued [Issued (GenerationCall (generationRequest msg c))])
      with [GenerationCall (generationRequest msg c)].
    unfold postOutcome. rewrite Hshadow.
    destruct (fst (ChatRoute.callOpenAI w msg c [])) as [gen | e]; cbn [snd];
      now rewrite <- ?app_assoc, ?app_nil_r.
  - intros gen Hgen. unfold postOutcome. rewrite Hshadow, Hgen. cbn [fst].
    pose proof (ChatRouteMore.callOpenAI_outcome w msg c) as Hlat. rewrite Hgen in Hlat.
    assert (Hl : latency gen = elapsed w (generationRequest msg c)).
    { destruct (fetch w (generationRequest msg c)) as [e | [|] code [data | e]];
        try discriminate.
      unfold generationOf in Hlat. destruct (is_null data); [discriminate |].
      destruct (member (lit "choices") data) as [choices |]; [| discriminate].
      destruct (is_null choices); [discriminate |].
      injection Hlat as Hlat. now subst gen. }
    rewrite <- Hl. reflexivity.
Qed.

Lemma shadow_mode_calls_in_flight_together_witness :
  let run :=
    ChatRouteAsync.POST demo_world (chatRequest (lit "Q") (demo_config true))
      generation_first in
  (exists later,
      snd run = dispatched (lit "Q") (demo_config true) ++ later
      /\ Forall (fun s => dispatches s = false) later)
  /\ (forall before s after,
        snd run = before ++ s :: after -> resumes s = true ->
        dispatched (lit "Q") (demo_config true) `prefix_of` before)
  /\ In (Answered (GenerationCall (generationRequest (lit "Q") (demo_config true))))
        (snd run)
  /\ fst (ChatRoute.POST demo_world (chatRequest (lit "Q") (demo_config true)) [])
     = Returned (fst run)
  /\ snd (ChatRoute.POST demo_world (chatRequest (lit "Q") (demo_config true)) [])
     = issued (snd run)
  /\ (forall gen,
        fst (ChatRoute.callOpenAI demo_world (lit "Q") (demo_config true) [])
        = Returned gen ->
        field "latency" (fst run)
        = Some (Some (JNum (num_of_Z
                              (elapsed demo_world
                                 (generationRequest (lit "Q") (demo_config true))))))).
Proof.
  apply (shadow_mode_calls_in_flight_together demo_world (lit "Q") (demo_config true)
           generation_first).
  - discriminate.
  - reflexivity.
Defined.

(** The two orders of arrival, on the demo world: the generation service
    heard first, and the cache heard first. Both calls are issued before
    either answer is taken up. *)
Example shadow_mode_generation_heard_first :
  let search := SearchCall (searchRequest (lit "Q") (demo_config true)) in
  let generation := GenerationCall (generationRequest (lit "Q") (demo_config true)) in
  snd (ChatRouteAsync.POST demo_world (chatRequest (lit "Q") (demo_config true))
         generation_first)
  = [Issued search; Issued generation;
     Answered generation; Read generation; Answered search; Read search].
Proof. vm_compute. reflexivity. Qed.

Example shadow_mode_search_heard_first :
  let search := SearchCall (searchRequest (lit "Q") (demo_config true)) in
  let generation := GenerationCall (generationRequest (lit "Q") (demo_config true)) in
  snd (ChatRouteAsync.POST demo_world (chatRequest (lit "Q") (demo_config true))
         search_first)
  = [Issued search; Issued generation;
     Answered search; Read search; Answered generation; Read generation].
Proof. vm_compute. reflexivity. Qed.

(** Normal mode, by contrast, awaits the search before it calls the
    generation service: on a miss the generation call is issued after the
    search has been answered (404 here, so there is no body to read). *)
Example normal_mode_awaits_the_search_first :
  let search := SearchCall (searchRequest (lit "Q") (demo_config false)) in
  let generation := GenerationCall (generationRequest (lit "Q") (demo_config false)) in
  let store := StoreCall (storeRequest (lit "Q") (lit "G") (demo_config false)) in
  snd (ChatRouteAsync.POST cache_empty (chatRequest (lit "Q") (demo_config false)) [])
  = [Issued search; Answered search;
     Issued generation; Answered generation; Read generation; Issued store].
Proof. vm_compute. reflexivity. Qed.

End ChatAsyncFacts.
